(** * A verification development of [HashMap<KeyT, ValT>] (src/hashmap.h)

    A separately chained hash table.  Two embeddings of the same class:

    - [HashMap]: the value-level embedding.  A chain of [ChainNode]s
      reached from a bucket head is the list of its (key, value) pairs,
      head first ([nullptr] is the empty list); the bucket array is a list
      of chains.  The iteration cursor [curr] is the rest of the chain it
      points into.  Exceptions ([std::out_of_range]) are a result type.
    - [Heap]: the pointer-level embedding used for the copy constructor and
      [operator=]: nodes live at addresses of a heap (a [gmap]); bucket
      slots and [next] fields hold [option loc] ([None] is [nullptr]);
      several tables live side by side in one heap.

    [size_t] arithmetic is modelled by [nat].  The only operations that
    could wrap are [sz++] (it would need 2^64 live nodes) and
    [capacity * 2] (it would need a bucket array of 2^63 pointers to have
    been allocated), neither of which a process can reach.  The load factor
    test [(double)sz / (double)capacity > 1.5] is modelled by the exact
    rational comparison [2 * sz > 3 * capacity]; the two agree while
    [capacity < 2^52]. *)

From stdpp Require Import base list gmap strings.

(* ================================================================== *)
(** ** Value-level embedding *)
(* ================================================================== *)

Module HashMap.

(** [throw std::out_of_range(...)]: the one exception of the class. *)
Inductive exn : Type :=
| out_of_range.

Inductive result (A : Type) : Type :=
| Ok (a : A)
| Throw (e : exn).
Arguments Ok {A} a.
Arguments Throw {A} e.

(** The fields of the class.  [data] holds [capacity] bucket heads,
    [curr]/[curr_idx] are the begin/next cursor. *)
Record table (K V : Type) : Type := MkTable {
  data : list (list (K * V));
  sz : nat;
  capacity : nat;
  curr : list (K * V);
  curr_idx : nat
}.
Arguments MkTable {K V} data sz capacity curr curr_idx.
Arguments data {K V} t.
Arguments sz {K V} t.
Arguments capacity {K V} t.
Arguments curr {K V} t.
Arguments curr_idx {K V} t.

Section Ops.
Context {K V : Type} `{EqDecision K}.
(** [std::hash<KeyT>{}]: any function from keys to [size_t]. *)
Variable hash : K -> nat.

(** [data[i]] *)
Definition bucket (t : table K V) (i : nat) : list (K * V) :=
  default [] (data t !! i).

(** The [while (current != nullptr) if (current->key == key) ...] scan
    shared by [insert], [at] and [contains]. *)
Fixpoint chain_find (c : list (K * V)) (k : K) : option V :=
  match c with
  | [] => None
  | (k', v) :: c' => if decide (k' = k) then Some v else chain_find c' k
  end.

(** [HashMap(size_t capacity)]: [capacity] empty buckets.  The cursor
    fields are left uninitialised by the constructor; they are given
    [nullptr]/0 here, which no operation reads before [begin]. *)
Definition hm_new (cap : nat) : table K V :=
  MkTable (replicate cap []) 0 cap [] 0.

(** [HashMap()]: 10 buckets. *)
Definition hm_default : table K V := hm_new 10.

Definition empty (t : table K V) : bool := bool_decide (sz t = 0).

Definition size (t : table K V) : nat := sz t.

Definition get_capacity (t : table K V) : nat := capacity t.

(** One step of the inner loop of [rehash]: the node [current] is
    linked in at the head of [data[hash(key) % new_capacity]]. *)
Definition relink (new_capacity : nat) (d : list (list (K * V)))
    (kv : K * V) : list (list (K * V)) :=
  let new_index := hash kv.1 mod new_capacity in
  <[new_index := kv :: default [] (d !! new_index)]> d.

(** [rehash(new_capacity)]: a fresh array of empty buckets, then the old
    buckets in index order, each chain from head to tail. *)
Definition rehash (t : table K V) (new_capacity : nat) : table K V :=
  let d := fold_left
             (fun d i => fold_left (relink new_capacity) (bucket t i) d)
             (seq 0 (capacity t)) (replicate new_capacity []) in
  MkTable d (sz t) new_capacity (curr t) (curr_idx t).

(** [insert(key, value)]: nothing if the key is in its chain; otherwise a
    new head node, [sz++], and a doubling when the load factor exceeds
    1.5. *)
Definition insert (t : table K V) (key : K) (value : V) : table K V :=
  let index := hash key mod capacity t in
  match chain_find (bucket t index) key with
  | Some _ => t
  | None =>
      let t1 := MkTable (<[index := (key, value) :: bucket t index]> (data t))
                        (S (sz t)) (capacity t) (curr t) (curr_idx t) in
      if decide (3 * capacity t1 < 2 * sz t1)
      then rehash t1 (capacity t1 * 2)
      else t1
  end.

(** [at(key)]: the value, or [out_of_range]. *)
Definition at_ (t : table K V) (key : K) : result V :=
  match chain_find (bucket t (hash key mod capacity t)) key with
  | Some v => Ok v
  | None => Throw out_of_range
  end.

(** [contains(key)] *)
Definition contains (t : table K V) (key : K) : bool :=
  match chain_find (bucket t (hash key mod capacity t)) key with
  | Some _ => true
  | None => false
  end.

(** [clear()]: every bucket [i < capacity] reset to [nullptr], [sz = 0]. *)
Definition clear (t : table K V) : table K V :=
  MkTable (fold_left (fun d i => <[i := []]> d) (seq 0 (capacity t)) (data t))
          0 (capacity t) (curr t) (curr_idx t).

(** The scan of [erase] with [prev]: the first node with the key is
    unlinked, the others keep their order. *)
Fixpoint chain_erase (c : list (K * V)) (k : K) : option (V * list (K * V)) :=
  match c with
  | [] => None
  | (k', v) :: c' =>
      if decide (k' = k) then Some (v, c')
      else match chain_erase c' k with
           | Some (x, c'') => Some (x, (k', v) :: c'')
           | None => None
           end
  end.

(** [erase(key)]: the removed value and the new state, or [out_of_range]
    with the state as it was. *)
Definition erase (t : table K V) (key : K) : result V * table K V :=
  let index := hash key mod capacity t in
  match chain_erase (bucket t index) key with
  | Some (val, c') =>
      (Ok val, MkTable (<[index := c']> (data t)) (sz t - 1) (capacity t)
                       (curr t) (curr_idx t))
  | None => (Throw out_of_range, t)
  end.

(** Copy constructor: same capacity, same size, the same chains in the
    same order (the cursor is left uninitialised, here reset). *)
Definition hm_copy (other : table K V) : table K V :=
  MkTable (data other) (sz other) (capacity other) [] 0.

(** [operator=] from a distinct table: the mappings of [other], the
    cursor fields of [this] untouched. *)
Definition assign (this other : table K V) : table K V :=
  MkTable (data other) (sz other) (capacity other) (curr this) (curr_idx this).

(** [while (curr_idx < capacity && data[curr_idx] == nullptr) curr_idx++;]
    ([fuel] bounds the iterations; [capacity] of them always suffice). *)
Fixpoint begin_scan (t : table K V) (i fuel : nat) : nat :=
  match fuel with
  | 0 => i
  | S f =>
      if decide (i < capacity t) then
        match bucket t i with
        | [] => begin_scan t (S i) f
        | _ :: _ => i
        end
      else i
  end.

(** [begin()] *)
Definition begin (t : table K V) : table K V :=
  let i := begin_scan t 0 (capacity t) in
  MkTable (data t) (sz t) (capacity t)
          (if decide (i < capacity t) then bucket t i else []) i.

(** [while (curr == nullptr && ++curr_idx < capacity) curr = data[curr_idx];]
    ([S capacity] iterations always suffice). *)
Fixpoint next_scan (t : table K V) (c : list (K * V)) (idx fuel : nat)
    : list (K * V) * nat :=
  match fuel with
  | 0 => (c, idx)
  | S f =>
      match c with
      | [] =>
          if decide (S idx < capacity t)
          then next_scan t (bucket t (S idx)) (S idx) f
          else ([], S idx)
      | _ :: _ => (c, idx)
      end
  end.

(** [next(key, value)]: [Some (key, value)] for [true] with the output
    parameters set, [None] for [false]. *)
Definition next (t : table K V) : option (K * V) * table K V :=
  match curr t with
  | [] => (None, t)
  | kv :: rest =>
      let '(c, idx) := next_scan t rest (curr_idx t) (S (capacity t)) in
      (Some kv, MkTable (data t) (sz t) (capacity t) c idx)
  end.

End Ops.

(** ** The invariant of the class and the abstract map *)

Section Invariant.
Context {K V : Type} `{EqDecision K}.
Variable hash : K -> nat.

(** All live (key, value) pairs, bucket after bucket, chain order. *)
Definition entries (t : table K V) : list (K * V) := concat (data t).

(** Every key sits in the bucket [hash(key) % capacity]. *)
Definition keys_in_place (t : table K V) : Prop :=
  Forall (fun i => Forall (fun kv => hash kv.1 mod capacity t = i) (bucket t i))
         (seq 0 (capacity t)).

(** The invariant of section 3 of the spec: [capacity] buckets (at least
    one), keys in their buckets, no key twice, [sz] counts the nodes. *)
(** The same, stated by index over an array of buckets. *)
Definition in_place (cap : nat) (d : list (list (K * V))) : Prop :=
  forall i c kv, d !! i = Some c -> kv ∈ c -> hash kv.1 mod cap = i.

Definition wf (t : table K V) : Prop :=
  length (data t) = capacity t /\ 0 < capacity t /\ keys_in_place t /\
  NoDup (fst <$> entries t) /\ sz t = length (entries t).

#[global] Instance wf_dec (t : table K V) : Decision (wf t).
Proof. unfold wf, keys_in_place. apply _. Defined.

(** The public mutators, as a caller applies them to one table
    ([at], [contains], [size], [empty] do not change the state). *)
Inductive op : Type :=
| OInsert (k : K) (v : V)
| OErase (k : K)
| OClear
| ORehash (n : nat)
| OBegin
| ONext.

Definition step (t : table K V) (o : op) : table K V :=
  match o with
  | OInsert k v => insert hash t k v
  | OErase k => snd (erase hash t k)
  | OClear => clear t
  | ORehash n => rehash hash t n
  | OBegin => begin t
  | ONext => snd (next t)
  end.

Definition run (t : table K V) (os : list op) : table K V := fold_left step os t.

(** [rehash(0)] on a non-empty table divides by zero: callers pass at
    least 1. *)
Definition op_ok (o : op) : Prop :=
  match o with ORehash n => 0 < n | _ => True end.

(** The map a caller expects, following section 8 of the spec: insert
    keeps an existing mapping, erase and clear remove mappings. *)
Definition amap := K -> option V.

Definition a_insert (m : amap) (k : K) (v : V) : amap :=
  match m k with
  | Some _ => m
  | None => fun k' => if decide (k' = k) then Some v else m k'
  end.

Definition a_step (m : amap) (o : op) : amap :=
  match o with
  | OInsert k v => a_insert m k v
  | OErase k => fun k' => if decide (k' = k) then None else m k'
  | OClear => fun _ => None
  | _ => m
  end.

Definition a_run (m : amap) (os : list op) : amap := fold_left a_step os m.

(** The states a program can reach from a constructor through the public
    operations (copies included), without calling [rehash] directly. *)
Inductive reachable : table K V -> Prop :=
| R_new cap : 0 < cap -> reachable (hm_new cap)
| R_insert t k v : reachable t -> reachable (insert hash t k v)
| R_erase t k : reachable t -> reachable (snd (erase hash t k))
| R_clear t : reachable t -> reachable (clear t)
| R_begin t : reachable t -> reachable (begin t)
| R_next t : reachable t -> reachable (snd (next t))
| R_copy t : reachable t -> reachable (hm_copy t)
| R_assign t u : reachable t -> reachable u -> reachable (assign t u).

(** What a cursor still has to yield: the rest of the current chain, then
    the buckets after [curr_idx]. *)
Definition remaining (t : table K V) : list (K * V) :=
  curr t ++ concat (drop (S (curr_idx t)) (data t)).

(** A [nullptr] cursor has nothing left to yield. *)
Definition cursor_ok (t : table K V) : Prop :=
  curr t = [] -> concat (drop (S (curr_idx t)) (data t)) = [].

(** Calls [next] [n] times and collects what it yields. *)
Fixpoint next_n (t : table K V) (n : nat) : list (option (K * V)) * table K V :=
  match n with
  | 0 => ([], t)
  | S n' =>
      let '(r, t') := next t in
      let '(rs, t'') := next_n t' n' in
      (r :: rs, t'')
  end.

End Invariant.

(** ** Lemmas about the value-level embedding *)

Section Lemmas.
Context {K V : Type} `{EqDecision K}.
Variable hash : K -> nat.

Lemma chain_find_app (c1 c2 : list (K * V)) k :
  chain_find (c1 ++ c2) k =
  match chain_find c1 k with Some v => Some v | None => chain_find c2 k end.
Proof.
  induction c1 as [|[k' v'] c1 IH]; simpl; [done|].
  case_decide; [done|]. exact IH.
Qed.

Lemma chain_find_Some_elem (c : list (K * V)) k v :
  chain_find c k = Some v -> (k, v) ∈ c.
Proof.
  induction c as [|[k' v'] c IH]; simpl; [done|].
  case_decide; intros H'.
  - injection H' as <-. subst. left.
  - right. by apply IH.
Qed.

Lemma chain_find_None (c : list (K * V)) k :
  chain_find c k = None <-> k ∉ fst <$> c.
Proof.
  induction c as [|[k' v'] c IH]; simpl.
  - split; [intros _; apply not_elem_of_nil|done].
  - rewrite elem_of_cons. case_decide.
    + subst. split; [done|]. intros H. exfalso. apply H. by left.
    + rewrite IH. simpl. naive_solver.
Qed.

Lemma chain_find_elem (c : list (K * V)) k v :
  NoDup (fst <$> c) -> (k, v) ∈ c -> chain_find c k = Some v.
Proof.
  induction c as [|[k' v'] c IH]; simpl; intros Hnd Hin.
  - by apply not_elem_of_nil in Hin.
  - apply NoDup_cons in Hnd as [Hk' Hnd].
    apply elem_of_cons in Hin as [Heq|Hin].
    + injection Heq as -> ->. by rewrite decide_True.
    + case_decide as Hkk.
      * subst. exfalso. apply Hk'. by apply (list_elem_of_fmap_2 fst) in Hin.
      * by apply IH.
Qed.

Lemma chain_find_concat_None (cs : list (list (K * V))) k :
  (forall c, c ∈ cs -> chain_find c k = None) -> chain_find (concat cs) k = None.
Proof.
  induction cs as [|c cs IH]; simpl; intros H; [done|].
  rewrite chain_find_app, (H c) by (left). apply IH.
  intros c' Hc'. apply H. by right.
Qed.

Lemma keys_in_place_iff (t : table K V) :
  length (data t) = capacity t ->
  keys_in_place hash t <-> in_place hash (capacity t) (data t).
Proof.
  intros Hlen. unfold keys_in_place, in_place. rewrite Forall_forall. split.
  - intros H i c kv Hi Hkv.
    pose proof (lookup_lt_Some _ _ _ Hi) as Hlt.
    assert (Hs : i ∈ seq 0 (capacity t)) by (apply elem_of_seq; lia).
    specialize (H i Hs). rewrite Forall_forall in H. apply H.
    unfold bucket. by rewrite Hi.
  - intros H i Hs. apply elem_of_seq in Hs. rewrite Forall_forall.
    intros kv Hkv. unfold bucket in Hkv.
    destruct (data t !! i) as [c|] eqn:Hi; simpl in Hkv.
    + by apply (H i c).
    + by apply not_elem_of_nil in Hkv.
Qed.

Lemma in_place_find cap (d : list (list (K * V))) k :
  in_place hash cap d -> 0 < cap -> length d = cap ->
  chain_find (default [] (d !! (hash k mod cap))) k = chain_find (concat d) k.
Proof.
  intros Hp Hcap Hlen.
  set (i := hash k mod cap).
  assert (Hi : i < length d) by (subst i; rewrite Hlen; apply Nat.mod_upper_bound; lia).
  destruct (lookup_lt_is_Some_2 _ _ Hi) as [b Hb].
  rewrite <- (take_drop_middle d i b Hb) at 2.
  rewrite concat_app. simpl. rewrite !chain_find_app, Hb. simpl.
  assert (Hother : forall j c, d !! j = Some c -> j <> i -> chain_find c k = None).
  { intros j c Hj Hne. apply chain_find_None. intros Hk.
    apply list_elem_of_fmap_1 in Hk as [kv [-> Hkv]].
    apply Hne. rewrite <- (Hp j c kv Hj Hkv). done. }
  rewrite (chain_find_concat_None (take i d)).
  2:{ intros c Hc. apply elem_of_take in Hc as [j [Hj Hlt]].
      apply (Hother j); [done|lia]. }
  destruct (chain_find b k) eqn:Hf; [done|].
  symmetry. apply chain_find_concat_None.
  intros c Hc. apply list_elem_of_lookup in Hc as [j Hj].
  rewrite lookup_drop in Hj. apply (Hother (S i + j)); [done|lia].
Qed.

Lemma wf_find (t : table K V) k :
  wf hash t ->
  chain_find (bucket t (hash k mod capacity t)) k = chain_find (entries t) k.
Proof.
  intros (Hlen & Hcap & Hp & _ & _).
  apply keys_in_place_iff in Hp; [|done].
  by apply in_place_find.
Qed.

Lemma wf_at (t : table K V) k v :
  wf hash t -> at_ hash t k = Ok v <-> (k, v) ∈ entries t.
Proof.
  intros Hwf. unfold at_. rewrite wf_find by done.
  destruct Hwf as (_ & _ & _ & Hnd & _). split.
  - destruct (chain_find (entries t) k) eqn:Hf; intros H; [|done].
    injection H as <-. by apply chain_find_Some_elem.
  - intros Hin. by rewrite (chain_find_elem _ _ _ Hnd Hin).
Qed.

Lemma wf_at_Throw (t : table K V) k :
  wf hash t -> at_ hash t k = Throw out_of_range <-> k ∉ fst <$> entries t.
Proof.
  intros Hwf. unfold at_. rewrite wf_find by done. rewrite <- chain_find_None.
  destruct (chain_find (entries t) k); naive_solver.
Qed.

Lemma contains_at (t : table K V) k :
  contains hash t k = match at_ hash t k with Ok _ => true | Throw _ => false end.
Proof. unfold contains, at_. by destruct (chain_find _ k). Qed.

End Lemmas.

Section Rehash.
Context {K V : Type} `{EqDecision K}.
Variable hash : K -> nat.

Lemma keys_elem (l : list (K * V)) k : k ∈ fst <$> l <-> exists v, (k, v) ∈ l.
Proof.
  rewrite list_elem_of_fmap. split.
  - intros [[k' v] [-> Hin]]. by exists v.
  - intros [v Hin]. by exists (k, v).
Qed.

Lemma at_ext (t1 t2 : table K V) k :
  wf hash t1 -> wf hash t2 -> (forall v, (k, v) ∈ entries t1 <-> (k, v) ∈ entries t2) ->
  at_ hash t1 k = at_ hash t2 k.
Proof.
  intros H1 H2 Heq.
  destruct (at_ hash t1 k) as [v|[]] eqn:Ha.
  - symmetry. apply wf_at; [done|]. apply Heq. by apply (wf_at hash).
  - symmetry. apply wf_at_Throw; [done|].
    apply (wf_at_Throw hash) in Ha; [|done].
    rewrite keys_elem. rewrite keys_elem in Ha. intros [v Hv].
    apply Ha. exists v. by apply Heq.
Qed.

Lemma concat_insert (d : list (list (K * V))) i b c :
  d !! i = Some b -> b ++ concat (<[i := c]> d) ≡ₚ c ++ concat d.
Proof.
  intros Hb.
  pose proof (lookup_lt_Some _ _ _ Hb) as Hi.
  assert (Hd : concat d = concat (take i d) ++ b ++ concat (drop (S i) d)).
  { rewrite <- (take_drop_middle d i b Hb) at 1. by rewrite concat_app. }
  rewrite Hd, (insert_take_drop d i c Hi), concat_app. simpl.
  solve_Permutation.
Qed.

Lemma concat_insert_cons (d : list (list (K * V))) i x :
  i < length d -> concat (<[i := x :: default [] (d !! i)]> d) ≡ₚ x :: concat d.
Proof.
  intros Hi. destruct (lookup_lt_is_Some_2 _ _ Hi) as [b Hb].
  pose proof (concat_insert d i b (x :: b) Hb) as H.
  rewrite Hb. simpl.
  apply (Permutation_app_inv_l b). rewrite H. solve_Permutation.
Qed.

Lemma in_place_insert_cons cap (d : list (list (K * V))) x :
  in_place hash cap d ->
  in_place hash cap (<[hash x.1 mod cap := x :: default [] (d !! (hash x.1 mod cap))]> d).
Proof.
  intros Hp j c kv Hj Hkv.
  apply list_lookup_insert_Some in Hj as [(<- & <- & _)|(_ & Hj)].
  - apply elem_of_cons in Hkv as [->|Hkv]; [done|].
    destruct (d !! (hash x.1 mod cap)) as [b|] eqn:Hb; simpl in Hkv.
    + by apply (Hp _ b).
    + by apply not_elem_of_nil in Hkv.
  - by apply (Hp j c).
Qed.

Lemma relink_fold nc (c : list (K * V)) d :
  0 < nc -> length d = nc -> in_place hash nc d ->
  length (fold_left (relink hash nc) c d) = nc /\
  in_place hash nc (fold_left (relink hash nc) c d) /\
  concat (fold_left (relink hash nc) c d) ≡ₚ c ++ concat d.
Proof.
  intros Hnc. revert d.
  induction c as [|x c IH]; intros d Hlen Hp; simpl; [done|].
  assert (Hi : hash x.1 mod nc < length d) by (rewrite Hlen; apply Nat.mod_upper_bound; lia).
  destruct (IH (relink hash nc d x)) as (H1 & H2 & H3).
  - unfold relink. by rewrite length_insert.
  - unfold relink. by apply in_place_insert_cons.
  - split; [done|]. split; [done|]. rewrite H3.
    unfold relink. rewrite concat_insert_cons by done. solve_Permutation.
Qed.

Lemma rehash_fold nc (t : table K V) (is : list nat) d :
  0 < nc -> length d = nc -> in_place hash nc d ->
  let d' := fold_left (fun d i => fold_left (relink hash nc) (bucket t i) d) is d in
  length d' = nc /\ in_place hash nc d' /\
  concat d' ≡ₚ concat (bucket t <$> is) ++ concat d.
Proof.
  intros Hnc. revert d.
  induction is as [|i is IH]; intros d Hlen Hp; simpl; [done|].
  destruct (relink_fold nc (bucket t i) d Hnc Hlen Hp) as (H1 & H2 & H3).
  destruct (IH _ H1 H2) as (H4 & H5 & H6).
  split; [done|]. split; [done|]. rewrite H6, H3. solve_Permutation.
Qed.

Lemma buckets_seq (t : table K V) :
  length (data t) = capacity t -> bucket t <$> seq 0 (capacity t) = data t.
Proof.
  intros Hlen. apply list_eq. intros i. rewrite list_lookup_fmap.
  destruct (decide (i < capacity t)) as [Hi|Hi].
  - rewrite lookup_seq_lt by done. simpl. unfold bucket.
    rewrite <- Hlen in Hi. destruct (lookup_lt_is_Some_2 _ _ Hi) as [b Hb].
    by rewrite Hb.
  - rewrite lookup_seq_ge by lia. rewrite lookup_ge_None_2 by lia. done.
Qed.

Lemma concat_replicate_nil n : concat (replicate n (@nil (K * V))) = [].
Proof. induction n; simpl; done. Qed.

Lemma in_place_replicate_nil cap n : in_place hash cap (replicate n (@nil (K * V))).
Proof.
  intros i c kv Hi Hkv. apply lookup_replicate in Hi as [-> _].
  by apply not_elem_of_nil in Hkv.
Qed.

Lemma rehash_wf (t : table K V) nc :
  wf hash t -> 0 < nc ->
  wf hash (rehash hash t nc) /\ entries (rehash hash t nc) ≡ₚ entries t /\
  sz (rehash hash t nc) = sz t /\ capacity (rehash hash t nc) = nc.
Proof.
  intros (Hlen & Hcap & Hp & Hnd & Hsz) Hnc.
  destruct (rehash_fold nc t (seq 0 (capacity t)) (replicate nc [])
              Hnc (length_replicate _ _) (in_place_replicate_nil _ _))
    as (H1 & H2 & H3).
  rewrite concat_replicate_nil, app_nil_r, buckets_seq in H3 by done.
  assert (He : entries (rehash hash t nc) ≡ₚ entries t) by exact H3.
  split; [|done].
  unfold wf. simpl. split; [done|]. split; [done|]. split.
  - by apply keys_in_place_iff.
  - split.
    + by rewrite He.
    + rewrite Hsz. by rewrite He.
Qed.

End Rehash.

Section Mutators.
Context {K V : Type} `{EqDecision K}.
Variable hash : K -> nat.

Lemma insert_present (t : table K V) k v v1 :
  at_ hash t k = Ok v1 -> insert hash t k v = t.
Proof. unfold at_, insert. by destruct (chain_find _ k). Qed.

Lemma insert_new (t : table K V) k v :
  wf hash t -> at_ hash t k = Throw out_of_range ->
  wf hash (insert hash t k v) /\
  entries (insert hash t k v) ≡ₚ (k, v) :: entries t /\
  sz (insert hash t k v) = S (sz t) /\
  capacity (insert hash t k v) =
    (if decide (3 * capacity t < 2 * S (sz t)) then capacity t * 2 else capacity t).
Proof.
  intros Hwf Hat. pose proof Hwf as (Hlen & Hcap & Hp & Hnd & Hsz).
  pose proof Hat as Hat'. apply (wf_at_Throw hash) in Hat'; [|done].
  unfold at_ in Hat. unfold insert.
  destruct (chain_find (bucket t (hash k mod capacity t)) k) eqn:Hf; [done|].
  set (i := hash k mod capacity t) in *.
  assert (Hi : i < length (data t)) by (subst i; rewrite Hlen; apply Nat.mod_upper_bound; lia).
  set (t1 := MkTable (<[i := (k, v) :: bucket t i]> (data t)) (S (sz t))
                     (capacity t) (curr t) (curr_idx t)).
  assert (He1 : entries t1 ≡ₚ (k, v) :: entries t).
  { unfold entries, t1. simpl. unfold bucket. by apply concat_insert_cons. }
  assert (Hwf1 : wf hash t1).
  { unfold wf, t1. simpl. split; [by rewrite length_insert|]. split; [done|].
    split; [|split].
    - apply keys_in_place_iff; simpl; [by rewrite length_insert|].
      apply keys_in_place_iff in Hp; [|done].
      apply (in_place_insert_cons hash _ _ (k, v) Hp).
    - change (NoDup (fst <$> entries t1)). rewrite He1. simpl.
      by apply NoDup_cons.
    - change (S (sz t) = length (entries t1)). by rewrite He1, Hsz. }
  destruct (decide (3 * capacity t1 < 2 * sz t1)) as [Hgt|Hle].
  - destruct (rehash_wf hash t1 (capacity t1 * 2) Hwf1 ltac:(simpl; lia))
      as (Hw & Hperm & Hs & Hc).
    split; [done|]. split; [by rewrite Hperm|]. split; [done|].
    rewrite Hc. simpl. by rewrite decide_True.
  - split; [done|]. split; [done|]. split; [done|].
    simpl. by rewrite decide_False.
Qed.

Lemma chain_erase_Some (c : list (K * V)) k v c' :
  chain_erase c k = Some (v, c') -> chain_find c k = Some v /\ c ≡ₚ (k, v) :: c'.
Proof.
  revert c'. induction c as [|[k1 v1] c IH]; intros c'; simpl; [done|].
  case_decide as Hk.
  - intros H. injection H as <- <-. subst. done.
  - destruct (chain_erase c k) as [[x c'']|] eqn:He; [|done].
    intros H. injection H as <- <-.
    destruct (IH c'' eq_refl) as [Hf Hp]. split; [done|].
    rewrite Hp. solve_Permutation.
Qed.

Lemma chain_erase_None (c : list (K * V)) k :
  chain_erase c k = None -> chain_find c k = None.
Proof.
  induction c as [|[k1 v1] c IH]; simpl; [done|].
  case_decide; [done|].
  destruct (chain_erase c k) as [[x c'']|]; [done|]. auto.
Qed.

Lemma erase_absent (t : table K V) k :
  at_ hash t k = Throw out_of_range -> erase hash t k = (Throw out_of_range, t).
Proof.
  unfold at_, erase. intros H.
  destruct (chain_find _ k) eqn:Hf; [done|].
  destruct (chain_erase _ k) as [[v c']|] eqn:He; [|done].
  apply chain_erase_Some in He as [He _]. congruence.
Qed.

Lemma erase_present (t : table K V) k v :
  wf hash t -> at_ hash t k = Ok v ->
  exists t', erase hash t k = (Ok v, t') /\ wf hash t' /\
    entries t ≡ₚ (k, v) :: entries t' /\ capacity t' = capacity t /\
    sz t' = sz t - 1.
Proof.
  intros Hwf Hat. pose proof Hwf as (Hlen & Hcap & Hp & Hnd & Hsz).
  unfold at_ in Hat. unfold erase.
  set (i := hash k mod capacity t) in *.
  assert (Hi : i < length (data t)) by (subst i; rewrite Hlen; apply Nat.mod_upper_bound; lia).
  destruct (lookup_lt_is_Some_2 _ _ Hi) as [b Hb].
  destruct (chain_erase (bucket t i) k) as [[v' c']|] eqn:He.
  2:{ apply chain_erase_None in He. rewrite He in Hat. done. }
  apply chain_erase_Some in He as [Hf Hbp].
  rewrite Hf in Hat. injection Hat as <-.
  unfold bucket in Hbp. rewrite Hb in Hbp. simpl in Hbp.
  set (t' := MkTable (<[i := c']> (data t)) (sz t - 1) (capacity t) (curr t) (curr_idx t)).
  assert (He' : entries t ≡ₚ (k, v') :: entries t').
  { unfold entries, t'. simpl.
    pose proof (concat_insert (data t) i b c' Hb) as Hc.
    rewrite Hbp in Hc. simpl in Hc.
    apply (Permutation_app_inv_l c'). rewrite <- Hc. solve_Permutation. }
  exists t'. split; [done|]. split.
  - unfold wf, t'. simpl. split; [by rewrite length_insert|]. split; [done|].
    split; [|split].
    + apply keys_in_place_iff; simpl; [by rewrite length_insert|].
      apply keys_in_place_iff in Hp; [|done].
      intros j c kv Hj Hkv.
      apply list_lookup_insert_Some in Hj as [(<- & <- & _)|(_ & Hj)].
      * apply (Hp i b kv Hb). rewrite Hbp. by right.
      * by apply (Hp j c).
    + rewrite He' in Hnd. simpl in Hnd. by apply NoDup_cons in Hnd as [_ ?].
    + change (sz t - 1 = length (entries t')).
      rewrite Hsz, He'. simpl. lia.
  - split; [done|]. split; [done|]. done.
Qed.

Lemma clear_fold_nil (is : list nat) (d : list (list (K * V))) j :
  j ∈ is \/ default [] (d !! j) = [] ->
  default [] (fold_left (fun d i => <[i := []]> d) is d !! j) = [].
Proof.
  revert d. induction is as [|i is IH]; intros d H; simpl.
  - destruct H as [H|H]; [by apply not_elem_of_nil in H|done].
  - apply IH. destruct (decide (j ∈ is)) as [Hj|Hj]; [by left|right].
    rewrite list_lookup_insert. case_decide as Hc; [done|].
    apply not_and_l in Hc.
    destruct H as [Hin|H]; [|done].
    apply elem_of_cons in Hin as [->|Hin]; [|contradiction].
    destruct Hc as [Hc|Hc]; [done|].
    rewrite lookup_ge_None_2 by lia. done.
Qed.

Lemma clear_bucket (t : table K V) j :
  j < capacity t -> bucket (clear t) j = [].
Proof.
  intros Hj. unfold bucket, clear. simpl. apply clear_fold_nil.
  left. apply elem_of_seq. lia.
Qed.

End Mutators.

Section Cursor.
Context {K V : Type}.

Lemma concat_drop_lookup (d : list (list (K * V))) i :
  i < length d -> concat (drop i d) = default [] (d !! i) ++ concat (drop (S i) d).
Proof.
  intros Hi. destruct (lookup_lt_is_Some_2 _ _ Hi) as [b Hb].
  rewrite (drop_S d b i Hb), Hb. done.
Qed.

Lemma concat_drop_ge (d : list (list (K * V))) i :
  length d <= i -> concat (drop i d) = [].
Proof. intros Hi. by rewrite drop_ge. Qed.

Lemma next_scan_spec (t : table K V) fuel c idx :
  length (data t) = capacity t -> capacity t <= fuel + idx ->
  let '(c', idx') := next_scan t c idx fuel in
  c' ++ concat (drop (S idx') (data t)) = c ++ concat (drop (S idx) (data t)) /\
  (c' = [] -> concat (drop (S idx') (data t)) = []).
Proof.
  intros Hlen. revert c idx.
  induction fuel as [|f IH]; intros c idx Hf; simpl.
  - split; [done|]. intros _. apply concat_drop_ge. lia.
  - destruct c as [|x c].
    + case_decide as Hi.
      * pose proof (IH (bucket t (S idx)) (S idx) ltac:(lia)) as IH'.
        destruct (next_scan t (bucket t (S idx)) (S idx) f) as [c' idx'].
        destruct IH' as [H1 H2]. split; [|done].
        rewrite H1. rewrite (concat_drop_lookup _ (S idx)) by lia. done.
      * rewrite !concat_drop_ge by lia. done.
    + done.
Qed.

Lemma begin_scan_spec (t : table K V) fuel i :
  length (data t) = capacity t -> capacity t <= fuel + i ->
  let j := begin_scan t i fuel in
  concat (drop i (data t)) = concat (drop j (data t)) /\
  (j < capacity t -> bucket t j <> []) /\
  (capacity t <= j -> concat (drop i (data t)) = []).
Proof.
  intros Hlen. revert i.
  induction fuel as [|f IH]; intros i Hf; simpl.
  - split; [done|]. split; [lia|]. intros _. apply concat_drop_ge. lia.
  - case_decide as Hi.
    + destruct (bucket t i) as [|x b] eqn:Hb.
      * destruct (IH (S i) ltac:(lia)) as (H1 & H2 & H3).
        rewrite (concat_drop_lookup _ i) by lia.
        change (default [] (data t !! i)) with (bucket t i). rewrite Hb. simpl.
        done.
      * split; [done|]. split; [by rewrite Hb|lia].
    + split; [done|]. split; [lia|]. intros _. apply concat_drop_ge. lia.
Qed.

Lemma begin_remaining (t : table K V) :
  length (data t) = capacity t ->
  remaining (begin t) = entries t /\ cursor_ok (begin t) /\
  data (begin t) = data t /\ capacity (begin t) = capacity t.
Proof.
  intros Hlen.
  destruct (begin_scan_spec t (capacity t) 0 Hlen ltac:(lia)) as (H1 & H2 & H3).
  unfold remaining, cursor_ok, begin, entries. simpl.
  set (j := begin_scan t 0 (capacity t)) in *.
  rewrite drop_0 in H1, H3.
  case_decide as Hj.
  - split; [|split; [|done]].
    + rewrite H1. rewrite (concat_drop_lookup _ j) by lia. done.
    + intros Hb. exfalso. by apply H2.
  - rewrite concat_drop_ge by lia. rewrite H3 by lia.
    split; [done|]. split; [|done]. intros _; try done; apply concat_drop_ge; lia.
Qed.

Lemma next_remaining (t : table K V) :
  length (data t) = capacity t -> cursor_ok t ->
  match remaining t with
  | [] => next t = (None, t)
  | kv :: r => exists t', next t = (Some kv, t') /\ remaining t' = r /\
               cursor_ok t' /\ data t' = data t /\ capacity t' = capacity t /\
               sz t' = sz t
  end.
Proof.
  intros Hlen Hok. unfold remaining, next, cursor_ok in *.
  destruct (curr t) as [|x rest] eqn:Hc.
  - rewrite Hok by done. done.
  - pose proof (next_scan_spec t (S (capacity t)) rest (curr_idx t) Hlen ltac:(lia)) as Hs.
    destruct (next_scan t rest (curr_idx t) (S (capacity t))) as [c' idx'].
    destruct Hs as [H1 H2]. simpl.
    eexists. split; [done|]. simpl. split; [exact H1|]. split; [exact H2|]. done.
Qed.

Lemma next_n_remaining (l : list (K * V)) (t : table K V) :
  length (data t) = capacity t -> cursor_ok t -> remaining t = l ->
  exists t', next_n t (length l) = (Some <$> l, t') /\ remaining t' = [] /\
    cursor_ok t' /\ data t' = data t /\ capacity t' = capacity t /\ sz t' = sz t.
Proof.
  revert t. induction l as [|kv l IH]; intros t Hlen Hok Hr; simpl.
  - exists t. done.
  - pose proof (next_remaining t Hlen Hok) as Hn. rewrite Hr in Hn.
    destruct Hn as (t1 & Hn & Hr1 & Hok1 & Hd1 & Hc1 & Hs1).
    rewrite Hn.
    destruct (IH t1 ltac:(congruence) Hok1 Hr1) as (t2 & Hn2 & Hr2 & Hok2 & Hd2 & Hc2 & Hs2).
    rewrite Hn2. exists t2. split; [done|]. split; [done|]. split; [done|].
    split; [congruence|]. split; congruence.
Qed.

End Cursor.

Section Preservation.
Context {K V : Type} `{EqDecision K}.
Variable hash : K -> nat.

Lemma wf_fields (t1 t2 : table K V) :
  data t1 = data t2 -> sz t1 = sz t2 -> capacity t1 = capacity t2 ->
  wf hash t1 -> wf hash t2.
Proof.
  intros Hd Hs Hc. unfold wf, keys_in_place, bucket, entries.
  rewrite Hd, Hs, Hc. done.
Qed.

Lemma next_fields (t : table K V) :
  data (snd (next t)) = data t /\ sz (snd (next t)) = sz t /\
  capacity (snd (next t)) = capacity t.
Proof.
  unfold next. destruct (curr t); [done|].
  destruct (next_scan _ _ _ _). done.
Qed.

Lemma at_fields (t1 t2 : table K V) k :
  data t1 = data t2 -> capacity t1 = capacity t2 -> at_ hash t1 k = at_ hash t2 k.
Proof. intros Hd Hc. unfold at_, bucket. by rewrite Hd, Hc. Qed.

Lemma contains_fields (t1 t2 : table K V) k :
  data t1 = data t2 -> capacity t1 = capacity t2 ->
  contains hash t1 k = contains hash t2 k.
Proof. intros Hd Hc. unfold contains, bucket. by rewrite Hd, Hc. Qed.

Lemma hm_new_wf cap : 0 < cap -> wf hash (@hm_new K V cap).
Proof.
  intros Hcap. unfold wf, hm_new, entries, keys_in_place. simpl.
  rewrite length_replicate, concat_replicate_nil. split; [done|]. split; [done|].
  split; [|split; [constructor|done]].
  apply Forall_forall. intros i _. apply Forall_forall. intros kv Hkv.
  unfold bucket in Hkv. simpl in Hkv.
  destruct (replicate cap [] !! i) as [c|] eqn:Hi; simpl in Hkv.
  - apply lookup_replicate in Hi as [-> _]. by apply not_elem_of_nil in Hkv.
  - by apply not_elem_of_nil in Hkv.
Qed.

Lemma concat_all_nil (d : list (list (K * V))) :
  (forall j, default [] (d !! j) = []) -> concat d = [].
Proof.
  induction d as [|c d IH]; intros H; simpl; [done|].
  pose proof (H 0) as H0. simpl in H0. subst c. simpl.
  apply IH. intros j. apply (H (S j)).
Qed.

Lemma clear_wf (t : table K V) :
  wf hash t -> wf hash (clear t) /\ entries (clear t) = [].
Proof.
  intros (Hlen & Hcap & Hp & Hnd & Hsz).
  assert (Hlen' : length (data (clear t)) = capacity t).
  { unfold clear. simpl. rewrite <- Hlen at 2.
    generalize (data t). induction (seq 0 (capacity t)) as [|i is IH];
      intros d; simpl; [done|]. by rewrite IH, length_insert. }
  assert (He : entries (clear t) = []).
  { apply concat_all_nil. intros j.
    destruct (decide (j < capacity t)) as [Hj|Hj].
    - by apply clear_bucket.
    - rewrite lookup_ge_None_2; [done|]. rewrite Hlen'. lia. }
  split; [|done].
  unfold wf. rewrite He. simpl. split; [done|]. split; [done|].
  split; [|split; [constructor|done]].
  apply keys_in_place_iff; [done|].
  intros i c kv Hi Hkv. exfalso.
  assert (Hb : bucket (clear t) i = []).
  { apply clear_bucket. rewrite <- Hlen'. by eapply lookup_lt_Some. }
  unfold bucket in Hb. rewrite Hi in Hb. simpl in Hb. subst c.
  by apply not_elem_of_nil in Hkv.
Qed.

Lemma insert_cases (t : table K V) k v :
  wf hash t ->
  (exists v1, at_ hash t k = Ok v1 /\ insert hash t k v = t) \/
  (at_ hash t k = Throw out_of_range /\ wf hash (insert hash t k v) /\
   entries (insert hash t k v) ≡ₚ (k, v) :: entries t /\
   sz (insert hash t k v) = S (sz t)).
Proof.
  intros Hwf. destruct (at_ hash t k) as [v1|[]] eqn:Ha.
  - left. exists v1. split; [done|]. by apply (insert_present hash t k v v1).
  - right. destruct (insert_new hash t k v Hwf Ha) as (H1 & H2 & H3 & _). done.
Qed.

Lemma insert_wf (t : table K V) k v : wf hash t -> wf hash (insert hash t k v).
Proof.
  intros Hwf. destruct (insert_cases t k v Hwf) as [(v1 & _ & ->)|(_ & H & _)]; done.
Qed.

Lemma erase_wf (t : table K V) k : wf hash t -> wf hash (snd (erase hash t k)).
Proof.
  intros Hwf. destruct (at_ hash t k) as [v|[]] eqn:Ha.
  - destruct (erase_present hash t k v Hwf Ha) as (t' & -> & H & _). done.
  - by rewrite erase_absent.
Qed.

Lemma step_wf (t : table K V) o : wf hash t -> op_ok o -> wf hash (step hash t o).
Proof.
  intros Hwf Hok. destruct o; simpl.
  - by apply insert_wf.
  - by apply erase_wf.
  - by apply clear_wf.
  - by apply rehash_wf.
  - apply (wf_fields t); [done..|]. done.
  - destruct (next_fields t) as (H1 & H2 & H3).
    by apply (wf_fields t).
Qed.

(** The refinement relation between a table and the map it represents. *)
Lemma step_refines (t : table K V) (m : amap) o :
  wf hash t -> op_ok o -> (forall k v, (k, v) ∈ entries t <-> m k = Some v) ->
  forall k v, (k, v) ∈ entries (step hash t o) <-> a_step m o k = Some v.
Proof.
  intros Hwf Hok HR. destruct o as [k0 v0|k0| |n| |]; simpl.
  - unfold a_insert. destruct (m k0) as [v1|] eqn:Hm.
    + apply HR in Hm. apply (wf_at hash) in Hm; [|done].
      rewrite (insert_present hash t k0 v0 v1 Hm). apply HR.
    + assert (Ha : at_ hash t k0 = Throw out_of_range).
      { destruct (at_ hash t k0) as [v1|[]] eqn:Ha; [|done].
        apply (wf_at hash) in Ha; [|done]. apply HR in Ha. congruence. }
      destruct (insert_new hash t k0 v0 Hwf Ha) as (_ & He & _).
      intros k v. rewrite He, elem_of_cons, HR.
      case_decide as Hk.
      * subst. rewrite Hm. naive_solver.
      * naive_solver.
  - destruct (at_ hash t k0) as [v0|[]] eqn:Ha.
    + destruct (erase_present hash t k0 v0 Hwf Ha) as (t' & -> & Hwf' & He & _).
      simpl. intros k v. pose proof (proj1 (proj2 (proj2 (proj2 Hwf')))) as Hnd.
      assert (Hk0 : k0 ∉ fst <$> entries t').
      { destruct Hwf as (_ & _ & _ & Hnd0 & _). rewrite He in Hnd0. simpl in Hnd0.
        by apply NoDup_cons in Hnd0 as [? _]. }
      case_decide as Hk.
      * subst. split; [|done]. intros Hin. exfalso. apply Hk0.
        apply keys_elem. by exists v.
      * rewrite <- HR, He, elem_of_cons. naive_solver.
    + rewrite erase_absent by done. simpl. intros k v.
      case_decide as Hk; [|apply HR].
      subst. split; [|done]. intros Hin. apply (wf_at hash) in Hin; [|done]. congruence.
  - destruct (clear_wf t Hwf) as [_ ->]. intros k v. split; [|done].
    intros Hin. by apply not_elem_of_nil in Hin.
  - destruct (rehash_wf hash t n Hwf Hok) as (_ & He & _).
    intros k v. rewrite He. apply HR.
  - intros k v. apply HR.
  - destruct (next_fields t) as (H1 & _ & _).
    intros k v. unfold entries. rewrite H1. apply HR.
Qed.

Lemma run_refines (os : list op) (t : table K V) (m : amap) :
  wf hash t -> Forall op_ok os -> (forall k v, (k, v) ∈ entries t <-> m k = Some v) ->
  wf hash (run hash t os) /\
  forall k v, (k, v) ∈ entries (run hash t os) <-> a_run m os k = Some v.
Proof.
  revert t m. induction os as [|o os IH]; intros t m Hwf Hok HR; simpl; [done|].
  apply Forall_cons in Hok as [Ho Hos].
  apply IH; [by apply step_wf|done|].
  by apply step_refines.
Qed.

Lemma inserts_keys (kvs : list (K * V)) (t : table K V) :
  wf hash t ->
  let t' := fold_left (fun t kv => insert hash t kv.1 kv.2) kvs t in
  wf hash t' /\
  forall k, k ∈ fst <$> entries t' <-> k ∈ fst <$> entries t \/ k ∈ fst <$> kvs.
Proof.
  revert t. induction kvs as [|[k v] kvs IH]; intros t Hwf; simpl.
  - split; [done|]. intros k. split; [by left|]. intros [H|H]; [done|].
    by apply not_elem_of_nil in H.
  - destruct (IH (insert hash t k v) (insert_wf t k v Hwf)) as [H1 H2].
    split; [done|]. intros k'. rewrite H2, elem_of_cons.
    destruct (insert_cases t k v Hwf) as [(v1 & Ha & ->)|(_ & _ & He & _)].
    + apply (wf_at hash) in Ha; [|done].
      assert (k ∈ fst <$> entries t) by (apply keys_elem; by exists v1).
      naive_solver.
    + rewrite He. simpl. rewrite elem_of_cons. naive_solver.
Qed.

Lemma reachable_wf (t : table K V) : reachable hash t -> wf hash t.
Proof.
  induction 1.
  - by apply hm_new_wf.
  - by apply insert_wf.
  - by apply erase_wf.
  - by apply clear_wf.
  - by apply (wf_fields t).
  - destruct (next_fields t) as (H1 & H2 & H3). by apply (wf_fields t).
  - by apply (wf_fields t).
  - by apply (wf_fields u).
Qed.

Lemma insert_fresh (t : table K V) k v :
  wf hash t -> k ∉ fst <$> entries t ->
  wf hash (insert hash t k v) /\
  entries (insert hash t k v) ≡ₚ (k, v) :: entries t /\
  sz (insert hash t k v) = S (sz t) /\
  capacity (insert hash t k v) =
    (if decide (3 * capacity t < 2 * S (sz t)) then capacity t * 2 else capacity t).
Proof.
  intros Hwf Hk. apply insert_new; [done|]. by apply wf_at_Throw.
Qed.

End Preservation.

(** ** The claims, on the value-level embedding *)

Section Claims.
Context {K V : Type} `{EqDecision K}.
Variable hash : K -> nat.

(** C1: [insert] is first-write-wins.  On a key that [at] finds (with
    value [v1]) it returns the table unchanged (so [at] still gives [v1],
    [size] and [capacity] are unchanged); and from a fresh table with at
    least one bucket, after any sequence of inserts [size()] is the number
    of distinct keys inserted. *)
Theorem insert_first_write_wins :
  (forall (t : table K V) k v1 v2,
     at_ hash t k = Ok v1 -> insert hash t k v2 = t) /\
  (forall cap (kvs : list (K * V)), 0 < cap ->
     size (fold_left (fun t kv => insert hash t kv.1 kv.2) kvs (hm_new cap)) =
     length (remove_dups (fst <$> kvs))).
Proof.
  split.
  - intros t k v1 v2. apply insert_present.
  - intros cap kvs Hcap.
    destruct (inserts_keys hash kvs (hm_new cap) (hm_new_wf hash cap Hcap))
      as [Hwf Hkeys].
    set (t' := fold_left (fun t kv => insert hash t kv.1 kv.2) kvs (hm_new cap)) in *.
    destruct Hwf as (_ & _ & _ & Hnd & Hsz).
    unfold size. rewrite Hsz, <- (length_fmap fst).
    apply Permutation_length. apply NoDup_Permutation; [done|apply NoDup_remove_dups|].
    intros k. rewrite elem_of_remove_dups, Hkeys.
    unfold entries, hm_new. simpl. rewrite concat_replicate_nil. simpl.
    split; [intros [H|H]; [by apply not_elem_of_nil in H|done]|by right].
Qed.

(** C2: after any sequence of inserts, erases, clears, rehashes (to at
    least one bucket) and cursor moves from a fresh table with at least one
    bucket, a key mapped by the caller's map (first insertion kept,
    erase/clear remove) is found by [contains] and [at] with that value, and
    any other key makes [contains] false and [at] throw [out_of_range]. *)
Theorem at_contains_membership (cap : nat) (os : list (op (K:=K) (V:=V))) :
  0 < cap -> Forall op_ok os ->
  forall k,
    (forall v, a_run (fun _ => None) os k = Some v ->
       contains hash (run hash (hm_new cap) os) k = true /\
       at_ hash (run hash (hm_new cap) os) k = Ok v) /\
    (a_run (fun _ => None) os k = None ->
       contains hash (run hash (hm_new cap) os) k = false /\
       at_ hash (run hash (hm_new cap) os) k = Throw out_of_range).
Proof.
  intros Hcap Hok k.
  destruct (run_refines hash os (hm_new cap) (fun _ => None) (hm_new_wf hash cap Hcap) Hok)
    as [Hwf HR].
  { intros k' v'. unfold entries, hm_new. simpl. rewrite concat_replicate_nil.
    split; [intros H; by apply not_elem_of_nil in H|done]. }
  split.
  - intros v Hm. apply HR in Hm. apply (wf_at hash) in Hm; [|done].
    rewrite contains_at, Hm. done.
  - intros Hm.
    assert (Ha : at_ hash (run hash (hm_new cap) os) k = Throw out_of_range).
    { apply wf_at_Throw; [done|]. rewrite keys_elem. intros [v Hv].
      apply HR in Hv. congruence. }
    rewrite contains_at, Ha. done.
Qed.

(** C3: [erase] of a present key returns its value, removes exactly one
    node ([sz] goes down by one), leaves the key absent, keeps the
    capacity and every other key's [at]; [erase] of an absent key throws
    [out_of_range] and returns the table exactly as it was. *)
Theorem erase_semantics (t : table K V) k :
  wf hash t ->
  (forall v, at_ hash t k = Ok v ->
     exists t', erase hash t k = (Ok v, t') /\ S (sz t') = sz t /\
       contains hash t' k = false /\ capacity t' = capacity t /\
       (forall k', k' <> k -> at_ hash t' k' = at_ hash t k')) /\
  (at_ hash t k = Throw out_of_range -> erase hash t k = (Throw out_of_range, t)).
Proof.
  intros Hwf. split; [|apply erase_absent].
  intros v Ha.
  destruct (erase_present hash t k v Hwf Ha) as (t' & He & Hwf' & Hp & Hc & Hs).
  exists t'. split; [done|].
  pose proof Hwf as (_ & _ & _ & Hnd & Hsz).
  pose proof Hwf' as (_ & _ & _ & _ & Hsz').
  split; [rewrite Hsz, Hsz', Hp; done|].
  assert (Hk : k ∉ fst <$> entries t').
  { rewrite Hp in Hnd. simpl in Hnd. by apply NoDup_cons in Hnd as [? _]. }
  split; [|split; [done|]].
  - rewrite contains_at. by rewrite (proj2 (wf_at_Throw hash t' k Hwf') Hk).
  - intros k' Hk'. apply at_ext; [done|done|]. intros v'.
    rewrite Hp, elem_of_cons. naive_solver.
Qed.

(** C4: [rehash(n)] with [n >= 1] keeps every (key, value) pair (the
    entries are a permutation of the old ones), [at] answers as before for
    every key, [size] is unchanged, the capacity becomes [n], and every key
    sits in bucket [hash(key) % n] (the invariant holds again). *)
Theorem rehash_preserves (t : table K V) (new_capacity : nat) :
  wf hash t -> 0 < new_capacity ->
  (forall k, at_ hash (rehash hash t new_capacity) k = at_ hash t k) /\
  entries (rehash hash t new_capacity) ≡ₚ entries t /\
  sz (rehash hash t new_capacity) = sz t /\
  capacity (rehash hash t new_capacity) = new_capacity /\
  (forall i kv, kv ∈ bucket (rehash hash t new_capacity) i ->
     hash kv.1 mod new_capacity = i) /\
  wf hash (rehash hash t new_capacity).
Proof.
  intros Hwf Hnc.
  destruct (rehash_wf hash t new_capacity Hwf Hnc) as (Hwf' & Hp & Hs & Hc).
  split; [|split; [done|split; [done|split; [done|split; [|done]]]]].
  - intros k. apply at_ext; [done|done|]. intros v. by rewrite Hp.
  - intros i kv Hkv.
    pose proof Hwf' as (Hlen & _ & Hin & _).
    apply keys_in_place_iff in Hin; [|done]. rewrite Hc in Hin.
    unfold bucket in Hkv.
    destruct (data (rehash hash t new_capacity) !! i) as [c|] eqn:Hi; simpl in Hkv.
    + by apply (Hin i c).
    + by apply not_elem_of_nil in Hkv.
Qed.

(** C7: from [begin()], calling [next] [size()] times yields every entry
    of the table exactly once (keys are distinct) with the value [at]
    gives for it, and the following [next] returns [false]; on an empty
    table [begin()] leaves a [nullptr] cursor and the first [next] returns
    [false]. *)
Theorem iteration_complete (t : table K V) :
  wf hash t ->
  (exists t', next_n (begin t) (size t) = (Some <$> entries t, t') /\
              fst (next t') = None) /\
  NoDup (fst <$> entries t) /\ length (entries t) = size t /\
  (forall k v, (k, v) ∈ entries t <-> at_ hash t k = Ok v) /\
  (size t = 0 -> curr (begin t) = [] /\ fst (next (begin t)) = None).
Proof.
  intros Hwf. pose proof Hwf as (Hlen & _ & _ & Hnd & Hsz).
  destruct (begin_remaining t Hlen) as (Hr & Hok & Hd & Hc).
  assert (Hlen' : length (data (begin t)) = capacity (begin t)) by congruence.
  split; [|split; [done|split; [unfold size; by rewrite Hsz|split]]].
  - destruct (next_n_remaining (entries t) (begin t) Hlen' Hok Hr)
      as (t' & Hn & Hr' & Hok' & Hd' & Hc' & _).
    exists t'. unfold size. rewrite Hsz. split; [done|].
    pose proof (next_remaining t' ltac:(congruence) Hok') as Hn'.
    rewrite Hr' in Hn'. by rewrite Hn'.
  - intros k v. symmetry. by apply wf_at.
  - intros H0. unfold size in H0. rewrite Hsz in H0.
    apply nil_length_inv in H0. rewrite H0 in Hr.
    pose proof (next_remaining (begin t) Hlen' Hok) as Hn. rewrite Hr in Hn.
    rewrite Hn. split; [|done].
    unfold remaining in Hr. by apply app_eq_nil in Hr as [? _].
Qed.

(** C8: after [clear()] the size is 0, [empty()] holds, the capacity is
    the one before, and for every key [contains] is false and [at] throws
    [out_of_range]. *)
Theorem clear_spec (t : table K V) :
  0 < capacity t ->
  size (clear t) = 0 /\ empty (clear t) = true /\ capacity (clear t) = capacity t /\
  forall k, contains hash (clear t) k = false /\ at_ hash (clear t) k = Throw out_of_range.
Proof.
  intros Hcap. split; [done|]. split; [done|]. split; [done|].
  intros k.
  assert (Hb : bucket (clear t) (hash k mod capacity (clear t)) = []).
  { apply clear_bucket. simpl. apply Nat.mod_upper_bound. lia. }
  unfold contains, at_. rewrite Hb. done.
Qed.

Lemma insert_bound (t : table K V) k v :
  0 < capacity t -> 2 * sz t <= 3 * capacity t ->
  (capacity (insert hash t k v) = capacity t \/
   capacity (insert hash t k v) = 2 * capacity t) /\
  2 * sz (insert hash t k v) <= 3 * capacity (insert hash t k v) /\
  0 < capacity (insert hash t k v).
Proof.
  intros Hcap Hb. unfold insert.
  destruct (chain_find _ k); [lia|].
  case_decide as Hgt; simpl in *; unfold rehash; simpl; lia.
Qed.

Lemma erase_bound (t : table K V) k :
  0 < capacity t -> 2 * sz t <= 3 * capacity t ->
  2 * sz (snd (erase hash t k)) <= 3 * capacity (snd (erase hash t k)) /\
  0 < capacity (snd (erase hash t k)).
Proof.
  intros Hcap Hb. unfold erase.
  destruct (chain_erase _ k) as [[v c']|]; simpl; lia.
Qed.

(** C9: in every state reachable from a constructor with at least one
    bucket through the public operations (no direct [rehash] call),
    [size <= 1.5 * capacity]; an insert changes the capacity at most once,
    by one doubling, and the bound holds after it. *)
Theorem load_factor_bound (t : table K V) :
  reachable hash t ->
  2 * size t <= 3 * capacity t /\
  forall k v,
    (capacity (insert hash t k v) = capacity t \/
     capacity (insert hash t k v) = 2 * capacity t) /\
    2 * size (insert hash t k v) <= 3 * capacity (insert hash t k v).
Proof.
  intros Hr.
  assert (H : 2 * sz t <= 3 * capacity t /\ 0 < capacity t).
  { induction Hr as [cap Hcap|t k v _ [IH1 IH2]|t k _ [IH1 IH2]|t _ [IH1 IH2]
                    |t _ [IH1 IH2]|t _ [IH1 IH2]|t _ [IH1 IH2]|t u _ _ _ [IH1 IH2]].
    - simpl. lia.
    - destruct (insert_bound t k v IH2 IH1) as (_ & ? & ?). done.
    - by apply erase_bound.
    - simpl. lia.
    - simpl. lia.
    - destruct (next_fields t) as (_ & -> & ->). done.
    - simpl. lia.
    - simpl. lia. }
  destruct H as [H1 H2]. split; [done|].
  intros k v. destruct (insert_bound t k v H2 H1) as (? & ? & _). done.
Qed.

(** C10: any sequence of [begin]/[next] calls leaves [data], [sz] and
    [capacity] as they were, hence [at] and [contains] for every key;
    only [curr] and [curr_idx] move. *)
Theorem cursor_ops_pure (t : table K V) (os : list (op (K:=K) (V:=V))) :
  Forall (fun o => o = OBegin \/ o = ONext) os ->
  data (run hash t os) = data t /\ sz (run hash t os) = sz t /\
  capacity (run hash t os) = capacity t /\
  forall k, at_ hash (run hash t os) k = at_ hash t k /\
            contains hash (run hash t os) k = contains hash t k.
Proof.
  intros Hos.
  assert (H : data (run hash t os) = data t /\ sz (run hash t os) = sz t /\
              capacity (run hash t os) = capacity t).
  { revert t. induction Hos as [|o os Ho Hos IH]; intros t; simpl; [done|].
    destruct (IH (step hash t o)) as (H1 & H2 & H3).
    rewrite H1, H2, H3.
    destruct Ho as [->| ->]; simpl; [done|]. apply next_fields. }
  destruct H as (H1 & H2 & H3).
  split; [done|]. split; [done|]. split; [done|].
  intros k. split; [by apply at_fields|by apply contains_fields].
Qed.

End Claims.

Lemma growth_general {K V : Type} `{EqDecision K} (hash : K -> nat)
    (t : table K V) k v :
  wf hash t -> at_ hash t k = Throw out_of_range ->
  (capacity (insert hash t k v) = 2 * capacity t <->
   3 * capacity t < 2 * size (insert hash t k v)) /\
  (capacity (insert hash t k v) = capacity t \/
   capacity (insert hash t k v) = 2 * capacity t) /\
  size (insert hash t k v) = S (size t).
Proof.
  intros Hwf Ha. pose proof Hwf as (_ & Hcap & _).
  destruct (insert_new hash t k v Hwf Ha) as (_ & _ & Hs & Hc).
  unfold size. rewrite Hs, Hc. case_decide; lia.
Qed.

Lemma key_not_in (k : string) (l : list (string * nat)) (ks : list string) :
  (fst <$> l) = ks -> Forall (fun k' => k' <> k) ks -> k ∉ fst <$> l.
Proof. intros -> H Hin. rewrite Forall_forall in H. by apply (H k). Qed.

(** C5: an insert of a new key doubles the capacity exactly when, after
    [sz++], [size / capacity > 1.5], and otherwise keeps it; whatever the
    string hash, inserting ("a",1), ("b",2), ("c",3) into a table of
    capacity 2 reaches size 3 with capacity still 2 (load factor exactly
    1.5), and inserting ("d",4) then doubles the capacity to 4 with all
    four values found by [at]. *)
Theorem growth_trigger :
  (forall (K V : Type) (EqK : EqDecision K) (hash : K -> nat) (t : table K V) k v,
     wf hash t -> at_ hash t k = Throw out_of_range ->
     (capacity (insert hash t k v) = 2 * capacity t <->
      2 * size (insert hash t k v) > 3 * capacity t) /\
     (capacity (insert hash t k v) <> 2 * capacity t ->
      capacity (insert hash t k v) = capacity t)) /\
  (forall hash : string -> nat,
     let t3 := insert hash (insert hash (insert hash (hm_new 2) "a" 1) "b" 2) "c" 3 in
     let t4 := insert hash t3 "d" 4 in
     size t3 = 3 /\ capacity t3 = 2 /\ size t4 = 4 /\ capacity t4 = 4 /\
     at_ hash t4 "a" = Ok 1 /\ at_ hash t4 "b" = Ok 2 /\
     at_ hash t4 "c" = Ok 3 /\ at_ hash t4 "d" = Ok 4).
Proof.
  split.
  - intros K V EqK hash t k v Hwf Ha.
    destruct (growth_general hash t k v Hwf Ha) as (H1 & H2 & _).
    split; [done|]. intros Hne. destruct H2; [done|contradiction].
  - intros hash t3 t4. subst t3 t4.
    pose proof (hm_new_wf (V:=nat) hash 2 ltac:(lia)) as W0.
    assert (E0 : entries (@hm_new string nat 2) = []) by done.
    destruct (insert_fresh hash (hm_new 2) "a" 1 W0) as (W1 & E1 & S1 & C1).
    { rewrite E0. apply not_elem_of_nil. }
    set (t1 := insert hash (hm_new 2) "a" 1) in *.
    rewrite E0 in E1. simpl in S1, C1.
    destruct (insert_fresh hash t1 "b" 2 W1) as (W2 & E2 & S2 & C2).
    { rewrite E1. apply (key_not_in _ _ ["a"]); [done|]. repeat constructor; done. }
    set (t2 := insert hash t1 "b" 2) in *.
    rewrite S1, C1 in C2. simpl in C2. rewrite S1 in S2. rewrite E1 in E2.
    destruct (insert_fresh hash t2 "c" 3 W2) as (W3 & E3 & S3 & C3).
    { rewrite E2. apply (key_not_in _ _ ["b"; "a"]); [done|]. repeat constructor; done. }
    set (t3 := insert hash t2 "c" 3) in *.
    rewrite S2, C2 in C3. simpl in C3. rewrite S2 in S3. rewrite E2 in E3.
    destruct (insert_fresh hash t3 "d" 4 W3) as (W4 & E4 & S4 & C4).
    { rewrite E3. apply (key_not_in _ _ ["c"; "b"; "a"]); [done|].
      repeat constructor; done. }
    set (t4 := insert hash t3 "d" 4) in *.
    rewrite S3, C3 in C4. simpl in C4. rewrite S3 in S4. rewrite E3 in E4.
    unfold size. split; [done|]. split; [done|]. split; [done|]. split; [done|].
    repeat split; apply (wf_at hash); try done; rewrite E4;
      repeat (first [by left | right]).
Qed.

(** ** Concrete instances of the claims (nat keys, identity hash) *)

Definition idh (n : nat) : nat := n.

Definition t_ex : table nat nat :=
  insert idh (insert idh (insert idh (hm_new 2) 1 10) 3 30) 4 40.

Definition ops_ex : list (op (K:=nat) (V:=nat)) :=
  [OInsert 1 10; OInsert 3 30; OInsert 1 11; OErase 1; ORehash 4; OBegin; ONext].

Lemma insert_first_write_wins_witness :
  insert idh t_ex 3 99 = t_ex /\
  size (fold_left (fun t kv => insert idh t kv.1 kv.2)
          [(1, 10); (2, 20); (1, 11)] (hm_new 2)) = 2.
Proof.
  split.
  - apply (proj1 (insert_first_write_wins idh) t_ex 3 30 99). reflexivity.
  - rewrite (proj2 (insert_first_write_wins idh) 2 [(1, 10); (2, 20); (1, 11)])
      by lia. reflexivity.
Defined.

Lemma at_contains_membership_witness :
  0 < 2 /\ Forall op_ok ops_ex /\
  at_ idh (run idh (hm_new 2) ops_ex) 3 = Ok 30 /\
  at_ idh (run idh (hm_new 2) ops_ex) 1 = Throw out_of_range.
Proof.
  assert (Hok : Forall op_ok ops_ex) by (repeat constructor; simpl; lia).
  split; [lia|]. split; [done|]. split.
  - apply (proj1 (at_contains_membership idh 2 ops_ex ltac:(lia) Hok 3) 30).
    reflexivity.
  - apply (proj2 (at_contains_membership idh 2 ops_ex ltac:(lia) Hok 1)).
    reflexivity.
Defined.

Lemma erase_semantics_witness :
  wf idh t_ex /\ erase idh t_ex 5 = (Throw out_of_range, t_ex) /\
  exists t', erase idh t_ex 3 = (Ok 30, t') /\ contains idh t' 3 = false.
Proof.
  assert (W : wf idh t_ex) by (apply (bool_decide_unpack _); vm_compute; reflexivity).
  split; [done|]. split.
  - apply (proj2 (erase_semantics idh t_ex 5 W)). reflexivity.
  - pose proof (erase_semantics idh t_ex 3 W) as [H1 _].
    destruct (H1 30 ltac:(vm_compute; reflexivity)) as (t' & He & _ & Hc & _).
    exists t'. done.
Defined.

Lemma rehash_preserves_witness :
  wf idh t_ex /\ 0 < 5 /\ at_ idh (rehash idh t_ex 5) 4 = Ok 40.
Proof.
  assert (W : wf idh t_ex) by (apply (bool_decide_unpack _); vm_compute; reflexivity).
  split; [done|]. split; [lia|].
  rewrite (proj1 (rehash_preserves idh t_ex 5 W ltac:(lia)) 4). reflexivity.
Defined.

Lemma growth_trigger_witness :
  capacity (insert idh t_ex 5 50) = 2 * capacity t_ex /\
  capacity (insert (fun _ : string => 0)
              (insert (fun _ => 0) (insert (fun _ => 0) (insert (fun _ => 0)
                 (hm_new 2) "a" 1) "b" 2) "c" 3) "d" 4) = 4.
Proof.
  assert (W : wf idh t_ex) by (apply (bool_decide_unpack _); vm_compute; reflexivity).
  split.
  - pose proof (proj1 growth_trigger nat nat Nat.eq_dec idh t_ex 5 50 W) as H.
    apply (proj1 (H ltac:(vm_compute; reflexivity))). vm_compute. lia.
  - apply (proj2 growth_trigger (fun _ => 0)).
Defined.

Lemma iteration_complete_witness :
  wf idh t_ex /\
  fst (next_n (begin t_ex) (size t_ex)) = [Some (4, 40); Some (3, 30); Some (1, 10)].
Proof.
  assert (W : wf idh t_ex) by (apply (bool_decide_unpack _); vm_compute; reflexivity).
  split; [done|].
  destruct (proj1 (iteration_complete idh t_ex W)) as (t' & Hn & _).
  rewrite Hn. reflexivity.
Defined.

Lemma clear_spec_witness :
  0 < capacity t_ex /\ at_ idh (clear t_ex) 3 = Throw out_of_range.
Proof.
  split; [vm_compute; lia|].
  apply (proj2 (proj2 (proj2 (proj2 (clear_spec idh t_ex ltac:(vm_compute; lia)))) 3)).
Defined.

Lemma load_factor_bound_witness :
  reachable idh (insert idh (hm_new 1) 7 70) /\
  2 * size (insert idh (hm_new 1) 7 70) <= 3 * capacity (insert idh (hm_new 1) 7 70).
Proof.
  assert (R : reachable idh (insert idh (@hm_new nat nat 1) 7 70))
    by (apply R_insert; apply R_new; lia).
  split; [done|]. apply (proj1 (load_factor_bound idh _ R)).
Defined.

Lemma cursor_ops_pure_witness :
  Forall (fun o => o = @OBegin nat nat \/ o = ONext) [OBegin; ONext; ONext] /\
  at_ idh (run idh t_ex [OBegin; ONext; ONext]) 4 = at_ idh t_ex 4.
Proof.
  assert (H : Forall (fun o => o = @OBegin nat nat \/ o = ONext) [OBegin; ONext; ONext])
    by (repeat constructor; simpl; auto).
  split; [done|].
  apply (proj1 (proj2 (proj2 (proj2 (cursor_ops_pure idh t_ex _ H))) 4)).
Defined.


(** ** Further properties of the value-level embedding *)

Section Extra.
Context {K V : Type} `{EqDecision K}.
Variable hash : K -> nat.

Lemma hm_new_bucket cap i : bucket (@hm_new K V cap) i = [].
Proof.
  unfold bucket, hm_new. simpl.
  destruct (replicate cap [] !! i) eqn:E; [|done].
  apply lookup_replicate in E as [-> _]. done.
Qed.

Lemma hm_new_at cap k :
  contains hash (@hm_new K V cap) k = false /\
  at_ hash (@hm_new K V cap) k = Throw out_of_range.
Proof. unfold contains, at_. by rewrite hm_new_bucket. Qed.

Lemma contains_wf (t : table K V) k :
  wf hash t -> contains hash t k = true <-> k ∈ fst <$> entries t.
Proof.
  intros Hwf. rewrite contains_at. split.
  - destruct (at_ hash t k) as [v|[]] eqn:Ha; [|done]. intros _.
    apply keys_elem. exists v. by apply (wf_at hash).
  - intros Hk. destruct (at_ hash t k) as [v|[]] eqn:Ha; [done|].
    apply (wf_at_Throw hash) in Ha; [|done]. contradiction.
Qed.

Lemma absent_insert (t : table K V) k v :
  wf hash t -> at_ hash t k = Throw out_of_range ->
  wf hash (insert hash t k v) /\ at_ hash (insert hash t k v) k = Ok v /\
  (forall k', k' <> k -> at_ hash (insert hash t k v) k' = at_ hash t k') /\
  sz (insert hash t k v) = S (sz t).
Proof.
  intros Hwf Ha.
  destruct (insert_new hash t k v Hwf Ha) as (W1 & He & Hs & _).
  split; [done|]. split; [|split; [|done]].
  - apply (wf_at hash); [done|]. rewrite He. apply elem_of_cons. by left.
  - intros k' Hne. apply at_ext; [done..|]. intros w. rewrite He, elem_of_cons.
    split; [|by right]. intros [[= -> _]|?]; [done|done].
Qed.

Lemma erase_other (t : table K V) k :
  wf hash t ->
  wf hash (snd (erase hash t k)) /\
  at_ hash (snd (erase hash t k)) k = Throw out_of_range /\
  (forall k', k' <> k -> at_ hash (snd (erase hash t k)) k' = at_ hash t k') /\
  sz (snd (erase hash t k)) =
    match at_ hash t k with Ok _ => sz t - 1 | Throw _ => sz t end.
Proof.
  intros Hwf. destruct (at_ hash t k) as [v|[]] eqn:Ha.
  - destruct (erase_present hash t k v Hwf Ha) as (t' & -> & W' & He & _ & Hs).
    simpl. split; [done|]. split; [|split; [|done]].
    + apply (wf_at_Throw hash); [done|].
      pose proof Hwf as (_ & _ & _ & Hnd & _).
      rewrite He, fmap_cons in Hnd. simpl in Hnd. by apply NoDup_cons in Hnd as [? _].
    + intros k' Hne. symmetry. apply at_ext; [done..|]. intros w.
      rewrite He, elem_of_cons. split; [|by right].
      intros [[= -> _]|?]; [done|done].
  - rewrite erase_absent by done. simpl. done.
Qed.

Lemma capacity_step (t : table K V) o :
  (forall n, o <> ORehash n) ->
  capacity (step hash t o) = capacity t \/ capacity (step hash t o) = capacity t * 2.
Proof.
  intros Ho. destruct o as [k v|k| |n| |]; simpl.
  - unfold insert. destruct (chain_find _ k); [by left|].
    case_decide; [right|left]; done.
  - unfold erase. destruct (chain_erase _ k) as [[? ?]|]; by left.
  - by left.
  - by destruct (Ho n).
  - by left.
  - left. apply next_fields.
Qed.

Lemma inserts_distinct (kvs : list (K * V)) (t : table K V) :
  wf hash t -> NoDup (fst <$> kvs) ->
  (forall k, k ∈ fst <$> kvs -> k ∉ fst <$> entries t) ->
  2 * (sz t + length kvs) <= 3 * capacity t ->
  let t' := fold_left (fun t kv => insert hash t kv.1 kv.2) kvs t in
  wf hash t' /\ capacity t' = capacity t /\ sz t' = sz t + length kvs /\
  (forall k, k ∈ fst <$> entries t' <-> k ∈ fst <$> entries t \/ k ∈ fst <$> kvs).
Proof.
  revert t. induction kvs as [|[k v] kvs IH]; intros t Hwf Hnd Hdis Hb; simpl.
  - split; [done|]. split; [done|]. split; [lia|]. intros k'.
    split; [by left|]. intros [?|Hin]; [done|]. by apply not_elem_of_nil in Hin.
  - rewrite fmap_cons in Hnd. apply NoDup_cons in Hnd as [Hk Hnd].
    assert (Ha : at_ hash t k = Throw out_of_range).
    { apply (wf_at_Throw hash); [done|]. apply Hdis. rewrite fmap_cons.
      apply elem_of_cons. by left. }
    destruct (insert_new hash t k v Hwf Ha) as (W1 & He & Hs & Hc).
    rewrite decide_False in Hc by (simpl in Hb; lia).
    destruct (IH (insert hash t k v) W1 Hnd) as (W2 & Hc2 & Hs2 & Hk2).
    + intros k' Hin. rewrite He, fmap_cons, elem_of_cons. intros [->|Hin'].
      * done.
      * apply (Hdis k'); [|done]. rewrite fmap_cons. by apply elem_of_cons; right.
    + rewrite Hs, Hc. simpl in Hb. lia.
    + split; [done|]. split; [congruence|]. split; [rewrite Hs2, Hs; simpl; lia|].
      intros k'. rewrite Hk2, He, ?fmap_cons. rewrite ?fmap_cons. simpl. rewrite !elem_of_cons. tauto.
Qed.

Lemma begin_scan_fields (t1 t2 : table K V) i f :
  data t1 = data t2 -> capacity t1 = capacity t2 ->
  begin_scan t1 i f = begin_scan t2 i f.
Proof.
  intros Hd Hc. revert i. induction f as [|f IH]; intros i; simpl; [done|].
  unfold bucket. rewrite Hd, Hc. destruct (decide _); [|done].
  destruct (data t2 !! i) as [[|? ?]|]; simpl; try done; apply IH.
Qed.

Lemma begin_fields (t1 t2 : table K V) :
  data t1 = data t2 -> sz t1 = sz t2 -> capacity t1 = capacity t2 ->
  begin t1 = begin t2.
Proof.
  intros Hd Hs Hc. unfold begin.
  rewrite (begin_scan_fields t1 t2 0 (capacity t1) Hd Hc).
  unfold bucket. rewrite Hd, Hs, Hc. done.
Qed.

Lemma next_n_fields (t : table K V) n :
  data (snd (next_n t n)) = data t /\ sz (snd (next_n t n)) = sz t /\
  capacity (snd (next_n t n)) = capacity t.
Proof.
  revert t. induction n as [|n IH]; intros t; simpl; [done|].
  destruct (next t) as [r t1] eqn:Hn.
  pose proof (next_fields t) as Hf. rewrite Hn in Hf. simpl in Hf.
  destruct (IH t1) as (H1 & H2 & H3).
  destruct (next_n t1 n) as [rs t2]. simpl in *.
  destruct Hf as (? & ? & ?). split; [congruence|]. split; congruence.
Qed.

(** X1: both constructors build a table that satisfies the class
    invariant and holds no key: [size()] is 0, [empty()] holds, [contains]
    is false and [at] throws [out_of_range] for every key; [HashMap(cap)]
    has [cap] buckets (for [cap >= 1]) and [HashMap()] has 10. *)
Theorem constructors_empty (cap : nat) :
  0 < cap ->
  wf hash (@hm_new K V cap) /\ size (@hm_new K V cap) = 0 /\
  empty (@hm_new K V cap) = true /\ get_capacity (@hm_new K V cap) = cap /\
  (forall k, contains hash (@hm_new K V cap) k = false /\
             at_ hash (@hm_new K V cap) k = Throw out_of_range) /\
  wf hash (@hm_default K V) /\ size (@hm_default K V) = 0 /\
  empty (@hm_default K V) = true /\ get_capacity (@hm_default K V) = 10 /\
  (forall k, contains hash (@hm_default K V) k = false /\
             at_ hash (@hm_default K V) k = Throw out_of_range).
Proof.
  intros Hcap. split; [by apply hm_new_wf|]. split; [done|]. split; [done|].
  split; [done|]. split; [intros k; apply hm_new_at|].
  split; [apply hm_new_wf; lia|]. split; [done|]. split; [done|].
  split; [done|]. intros k. apply hm_new_at.
Qed.

(** X2: on a table satisfying the invariant, [empty()] (a test of [sz])
    holds exactly when [contains] is false for every key. *)
Theorem empty_iff_no_key (t : table K V) :
  wf hash t -> empty t = true <-> forall k, contains hash t k = false.
Proof.
  intros Hwf. pose proof Hwf as (_ & _ & _ & _ & Hsz).
  unfold empty. rewrite bool_decide_eq_true, Hsz. split.
  - intros H0 k. apply nil_length_inv in H0.
    destruct (contains hash t k) eqn:Hc; [|done].
    apply (contains_wf t k Hwf) in Hc. rewrite H0 in Hc.
    by apply not_elem_of_nil in Hc.
  - intros H. destruct (entries t) as [|[k v] es] eqn:He; [done|].
    exfalso. assert (Hc : contains hash t k = true).
    { apply (contains_wf t k Hwf). rewrite He, fmap_cons. by apply elem_of_cons; left. }
    by rewrite H in Hc.
Qed.

(** X3: after [insert(k, v)], [contains(k)] is true; when [k] was absent,
    [at(k)] returns [v] and [at] returns for every other key what it
    returned before. *)
Theorem insert_then_lookup (t : table K V) k v :
  wf hash t ->
  contains hash (insert hash t k v) k = true /\
  (contains hash t k = false ->
   at_ hash (insert hash t k v) k = Ok v /\
   forall k', k' <> k -> at_ hash (insert hash t k v) k' = at_ hash t k').
Proof.
  intros Hwf. destruct (at_ hash t k) as [v1|[]] eqn:Ha.
  - rewrite (insert_present hash t k v v1 Ha). rewrite contains_at, Ha.
    split; [done|]. done.
  - destruct (absent_insert t k v Hwf Ha) as (_ & H1 & H2 & _).
    rewrite contains_at, H1. split; [done|]. intros _. done.
Qed.

(** X4: inserting an absent key and erasing it again returns the inserted
    value and leaves a table with the size it had and the same answer from
    [at] for every key (the capacity may have doubled meanwhile). *)
Theorem insert_erase_roundtrip (t : table K V) k v :
  wf hash t -> contains hash t k = false ->
  exists t', erase hash (insert hash t k v) k = (Ok v, t') /\ wf hash t' /\
    size t' = size t /\ forall k', at_ hash t' k' = at_ hash t k'.
Proof.
  intros Hwf Hc. rewrite contains_at in Hc.
  destruct (at_ hash t k) as [v1|[]] eqn:Ha; [done|].
  destruct (absent_insert t k v Hwf Ha) as (W1 & H1 & _ & _).
  destruct (insert_new hash t k v Hwf Ha) as (_ & He & Hs & _).
  destruct (erase_present hash _ k v W1 H1) as (t' & Her & W' & He' & _ & Hs').
  exists t'. split; [done|]. split; [done|]. split.
  - unfold size. rewrite Hs', Hs. lia.
  - intros k'. apply at_ext; [done..|]. intros w.
    assert (Hp : entries t' ≡ₚ entries t).
    { apply (Permutation_cons_inv (a:=(k, v))). by rewrite <- He', He. }
    by rewrite Hp.
Qed.

(** X5: [insert] never overwrites, but [erase(k)] followed by
    [insert(k, v)] maps [k] to [v] whether or not [k] was present, leaves
    every other key as it was, and gives size [size()] if [k] was present
    and [size() + 1] otherwise. *)
Theorem erase_then_insert (t : table K V) k v :
  wf hash t ->
  let t' := insert hash (snd (erase hash t k)) k v in
  at_ hash t' k = Ok v /\
  (forall k', k' <> k -> at_ hash t' k' = at_ hash t k') /\
  size t' = if contains hash t k then size t else S (size t).
Proof.
  intros Hwf t'. subst t'.
  destruct (erase_other t k Hwf) as (W1 & Ha1 & Ho1 & Hs1).
  destruct (absent_insert _ k v W1 Ha1) as (_ & H1 & H2 & H3).
  split; [done|]. split.
  - intros k' Hne. rewrite H2 by done. by apply Ho1.
  - unfold size. rewrite H3, Hs1, contains_at.
    destruct (at_ hash t k) as [v1|[]] eqn:Ha; [|done].
    apply (wf_at hash) in Ha; [|done].
    pose proof Hwf as (_ & _ & _ & _ & Hsz).
    assert (0 < sz t); [|lia].
    rewrite Hsz. destruct (entries t); [by apply not_elem_of_nil in Ha|simpl; lia].
Qed.

(** X6: a sequence of public calls other than a direct [rehash] never
    shrinks the bucket array: the capacity only ever gets doubled, so it
    is the initial capacity times a power of two. *)
Theorem capacity_doublings (t : table K V) (os : list (op (K:=K) (V:=V))) :
  Forall (fun o => forall n, o <> ORehash n) os ->
  exists j, capacity (run hash t os) = capacity t * 2 ^ j.
Proof.
  revert t. induction os as [|o os IH]; intros t Hos; simpl.
  - exists 0. simpl. lia.
  - apply Forall_cons in Hos as [Ho Hos].
    destruct (IH (step hash t o) Hos) as [j Hj].
    change (fold_left (step hash) os (step hash t o)) with (run hash (step hash t o) os).
    rewrite Hj. destruct (capacity_step t o Ho) as [-> | ->].
    + by exists j.
    + exists (S j). rewrite Nat.pow_succ_r'. lia.
Qed.

(** X7: every state reachable through the constructors and the public
    calls keeps the class invariant ([capacity] buckets, at least one,
    every key in bucket [hash(key) % capacity], no key twice, [sz] the
    number of nodes), and [contains] is true exactly on the stored keys. *)
Theorem reachable_invariant (t : table K V) :
  reachable hash t ->
  wf hash t /\ forall k, contains hash t k = true <-> k ∈ fst <$> entries t.
Proof.
  intros Hr. pose proof (reachable_wf hash t Hr) as Hwf.
  split; [done|]. intros k. by apply contains_wf.
Qed.

(** X8: inserting distinct keys into [HashMap(cap)] never rehashes while
    [size <= 1.5 * cap]: after [n] such inserts with [2n <= 3 cap] the
    capacity is still [cap] and the size is [n]; the next insert of a new
    key that makes [2 (n + 1) > 3 cap] doubles the capacity. *)
Theorem fresh_growth (cap : nat) (kvs : list (K * V)) k v :
  0 < cap -> NoDup (fst <$> kvs) -> 2 * length kvs <= 3 * cap ->
  let t := fold_left (fun t kv => insert hash t kv.1 kv.2) kvs (hm_new cap) in
  capacity t = cap /\ size t = length kvs /\
  (k ∉ fst <$> kvs -> 3 * cap < 2 * S (length kvs) ->
   capacity (insert hash t k v) = 2 * cap).
Proof.
  intros Hcap Hnd Hb t.
  destruct (inserts_distinct kvs (hm_new cap) (hm_new_wf hash cap Hcap) Hnd)
    as (W & Hc & Hs & Hk).
  { intros k' _ Hin. unfold entries, hm_new in Hin. simpl in Hin.
    rewrite concat_replicate_nil in Hin. by apply not_elem_of_nil in Hin. }
  { simpl. lia. }
  fold t in W, Hc, Hs, Hk. simpl in Hc, Hs.
  split; [done|]. split; [done|]. intros Hnk Hgt.
  assert (Ha : at_ hash t k = Throw out_of_range).
  { apply (wf_at_Throw hash); [done|]. rewrite Hk. intros [Hin|Hin]; [|done].
    unfold entries, hm_new in Hin. simpl in Hin.
    rewrite concat_replicate_nil in Hin. by apply not_elem_of_nil in Hin. }
  destruct (insert_new hash t k v W Ha) as (_ & _ & _ & ->).
  rewrite Hc, Hs. rewrite decide_True by lia. lia.
Qed.

(** X9: [begin()] restarts the traversal: after any number of [next]
    calls it puts the cursor where it puts it on the table before them,
    and calling it twice is the same as calling it once. *)
Theorem begin_restarts (t : table K V) n :
  begin (snd (next_n t n)) = begin t /\ begin (begin t) = begin t.
Proof.
  destruct (next_n_fields t n) as (H1 & H2 & H3).
  split; [by apply begin_fields|]. by apply begin_fields.
Qed.

End Extra.

(** ** Concrete instances of the further properties *)

Definition keys15 : list (nat * nat) := (fun i => (i, i)) <$> seq 0 15.

Lemma constructors_empty_witness :
  0 < 3 /\ get_capacity (@hm_new nat nat 3) = 3 /\
  at_ idh (@hm_default nat nat) 4 = Throw out_of_range.
Proof.
  pose proof (constructors_empty idh (K:=nat) (V:=nat) 3 ltac:(lia)) as H.
  split; [lia|]. split; [apply H|]. apply H.
Defined.

Lemma empty_iff_no_key_witness :
  wf idh t_ex /\ (empty t_ex = true <-> forall k, contains idh t_ex k = false).
Proof.
  assert (W : wf idh t_ex) by (apply (bool_decide_unpack _); vm_compute; reflexivity).
  split; [done|]. apply (empty_iff_no_key idh t_ex W).
Defined.

Lemma insert_then_lookup_witness :
  wf idh t_ex /\ contains idh t_ex 5 = false /\ at_ idh (insert idh t_ex 5 50) 5 = Ok 50.
Proof.
  assert (W : wf idh t_ex) by (apply (bool_decide_unpack _); vm_compute; reflexivity).
  split; [done|]. split; [vm_compute; reflexivity|].
  apply (proj2 (insert_then_lookup idh t_ex 5 50 W)). vm_compute. reflexivity.
Defined.

Lemma insert_erase_roundtrip_witness :
  wf idh t_ex /\ contains idh t_ex 5 = false /\
  exists t', erase idh (insert idh t_ex 5 50) 5 = (Ok 50, t') /\ size t' = 3.
Proof.
  assert (W : wf idh t_ex) by (apply (bool_decide_unpack _); vm_compute; reflexivity).
  split; [done|]. split; [vm_compute; reflexivity|].
  assert (Hc : contains idh t_ex 5 = false) by (vm_compute; reflexivity).
  destruct (insert_erase_roundtrip idh t_ex 5 50 W Hc) as (t' & He & _ & Hs & _).
  exists t'. split; [done|]. rewrite Hs. reflexivity.
Defined.

Lemma erase_then_insert_witness :
  wf idh t_ex /\ at_ idh (insert idh (snd (erase idh t_ex 3)) 3 99) 3 = Ok 99.
Proof.
  assert (W : wf idh t_ex) by (apply (bool_decide_unpack _); vm_compute; reflexivity).
  split; [done|]. apply (erase_then_insert idh t_ex 3 99 W).
Defined.

Lemma capacity_doublings_witness :
  Forall (fun o => forall n, o <> ORehash n) [OInsert 5 50; OErase 1; OClear] /\
  exists j, capacity (run idh t_ex [OInsert 5 50; OErase 1; OClear]) = capacity t_ex * 2 ^ j.
Proof.
  assert (H : Forall (fun o => forall n, o <> ORehash n)
                [@OInsert nat nat 5 50; OErase 1; OClear])
    by (repeat constructor; intros n; discriminate).
  split; [done|]. apply (capacity_doublings idh t_ex _ H).
Defined.

Lemma reachable_invariant_witness :
  reachable idh (insert idh (@hm_new nat nat 1) 7 70) /\
  contains idh (insert idh (@hm_new nat nat 1) 7 70) 7 = true.
Proof.
  assert (R : reachable idh (insert idh (@hm_new nat nat 1) 7 70))
    by (apply R_insert; apply R_new; lia).
  split; [done|]. apply (proj2 (reachable_invariant idh _ R) 7).
  vm_compute. left.
Defined.

Lemma fresh_growth_witness :
  0 < 10 /\ NoDup (fst <$> keys15) /\ 2 * length keys15 <= 3 * 10 /\
  (15 ∉ fst <$> keys15) /\ 3 * 10 < 2 * S (length keys15) /\
  capacity (fold_left (fun t kv => insert idh t kv.1 kv.2) keys15 (hm_new 10)) = 10 /\
  capacity (insert idh (fold_left (fun t kv => insert idh t kv.1 kv.2) keys15
                          (hm_new 10)) 15 15) = 20.
Proof.
  assert (Hnd : NoDup (fst <$> keys15)) by (apply (bool_decide_unpack _); vm_compute; reflexivity).
  assert (Hn : 15 ∉ fst <$> keys15) by (apply (bool_decide_unpack _); vm_compute; reflexivity).
  pose proof (fresh_growth idh 10 keys15 15 15 ltac:(lia) Hnd ltac:(vm_compute; lia))
    as (Hc & _ & Hg).
  split; [lia|]. split; [done|]. split; [vm_compute; lia|]. split; [done|].
  split; [vm_compute; lia|]. split; [done|].
  apply (Hg Hn ltac:(vm_compute; lia)).
Defined.

End HashMap.

(* ================================================================== *)
(** ** Pointer-level embedding *)
(* ================================================================== *)

Module Heap.

(** Addresses of [ChainNode]s. *)
Definition loc := positive.

(** [struct ChainNode { const KeyT key; ValT value; ChainNode* next; }] *)
Record node (K V : Type) : Type := MkNode {
  key : K;
  value : V;
  next : option loc
}.
Arguments MkNode {K V} key value next.
Arguments key {K V} n.
Arguments value {K V} n.
Arguments next {K V} n.

(** The fields of one [HashMap] object. *)
Record table : Type := MkTable {
  data : list (option loc);
  sz : nat;
  capacity : nat;
  curr : option loc;
  curr_idx : nat
}.

(** The free store holding every node, and the [HashMap] objects, by
    object address. *)
Record world (K V : Type) : Type := MkWorld {
  heap : gmap loc (node K V);
  tables : gmap nat table
}.
Arguments MkWorld {K V} heap tables.
Arguments heap {K V} w.
Arguments tables {K V} w.

(** [ChainNode** ptr] in the copy loop: the address of a bucket slot of
    the array under construction, or of the [next] field of a node. *)
Inductive slot : Type :=
| Bucket (i : nat)
| NextOf (l : loc).

Section Ops.
Context {K V : Type} `{EqDecision K}.
Variable hash : K -> nat.

Notation hp := (gmap loc (node K V)).

(** [data[i]] *)
Definition bucket (tb : table) (i : nat) : option loc :=
  default None (data tb !! i).

(** [new ChainNode(...)]: a fresh address. *)
Definition alloc (h : hp) (n : node K V) : hp * loc :=
  let l := fresh (dom h) in (<[l := n]> h, l).

(** [l->next = p]; a write through a dangling pointer is not modelled
    (it leaves the heap as it is). *)
Definition set_next (h : hp) (l : loc) (p : option loc) : hp :=
  match h !! l with
  | Some n => <[l := MkNode (key n) (value n) p]> h
  | None => h
  end.

(** [l->value = v] *)
Definition set_value (h : hp) (l : loc) (v : V) : hp :=
  match h !! l with
  | Some n => <[l := MkNode (key n) v (next n)]> h
  | None => h
  end.

(** Every pointer walk below is bounded by a fuel argument; on a chain of
    distinct allocated nodes [S (size h)] is enough (see [chain_len]). *)

(** The scan of [insert], [at] and [contains]: the node holding [k]. *)
Fixpoint find_node (fuel : nat) (h : hp) (current : option loc) (k : K)
    : option loc :=
  match fuel with
  | O => None
  | S f =>
    match current with
    | None => None
    | Some c =>
      match h !! c with
      | None => None
      | Some n => if decide (key n = k) then Some c
                  else find_node f h (next n) k
      end
    end
  end.

(** The inner loop of [rehash]: relink each node of a chain at the head
    of its new bucket. *)
Fixpoint relink (fuel : nat) (h : hp) (d : list (option loc))
    (new_capacity : nat) (current : option loc) : hp * list (option loc) :=
  match fuel with
  | O => (h, d)
  | S f =>
    match current with
    | None => (h, d)
    | Some c =>
      match h !! c with
      | None => (h, d)
      | Some n =>
        let nxt := next n in
        let new_index := hash (key n) mod new_capacity in
        let h1 := set_next h c (default None (d !! new_index)) in
        let d1 := <[new_index := Some c]> d in
        relink f h1 d1 new_capacity nxt
      end
    end
  end.

(** [rehash(new_capacity)] *)
Definition rehash (h : hp) (tb : table) (new_capacity : nat) : hp * table :=
  let acc := fold_left
    (fun acc i => relink (S (size acc.1)) acc.1 acc.2 new_capacity (bucket tb i))
    (seq 0 (capacity tb)) (h, replicate new_capacity None) in
  (acc.1, MkTable acc.2 (sz tb) new_capacity (curr tb) (curr_idx tb)).

(** [insert(key, value)] *)
Definition insert (h : hp) (tb : table) (k : K) (v : V) : hp * table :=
  let index := hash k mod capacity tb in
  match find_node (S (size h)) h (bucket tb index) k with
  | Some _ => (h, tb)
  | None =>
    let '(h1, new_node) := alloc h (MkNode k v (bucket tb index)) in
    let tb1 := MkTable (<[index := Some new_node]> (data tb)) (S (sz tb))
                 (capacity tb) (curr tb) (curr_idx tb) in
    if decide (3 * capacity tb1 < 2 * sz tb1)
    then rehash h1 tb1 (capacity tb1 * 2)
    else (h1, tb1)
  end.

(** [at(key)], the value read through the returned reference. *)
Definition at_ (h : hp) (tb : table) (k : K) : HashMap.result V :=
  let index := hash k mod capacity tb in
  match find_node (S (size h)) h (bucket tb index) k with
  | Some c =>
    match h !! c with
    | Some n => HashMap.Ok (value n)
    | None => HashMap.Throw HashMap.out_of_range
    end
  | None => HashMap.Throw HashMap.out_of_range
  end.

(** [at(key) = v]: a write through the reference returned by [at]. *)
Definition at_set (h : hp) (tb : table) (k : K) (v : V)
    : HashMap.result unit * (hp * table) :=
  let index := hash k mod capacity tb in
  match find_node (S (size h)) h (bucket tb index) k with
  | Some c => (HashMap.Ok tt, (set_value h c v, tb))
  | None => (HashMap.Throw HashMap.out_of_range, (h, tb))
  end.

(** [contains(key)] *)
Definition contains (h : hp) (tb : table) (k : K) : bool :=
  let index := hash k mod capacity tb in
  match find_node (S (size h)) h (bucket tb index) k with
  | Some _ => true
  | None => false
  end.

(** The inner loop of [clear]: [delete] every node of a chain. *)
Fixpoint free_chain (fuel : nat) (h : hp) (current : option loc) : hp :=
  match fuel with
  | O => h
  | S f =>
    match current with
    | None => h
    | Some c =>
      match h !! c with
      | None => h
      | Some n => free_chain f (delete c h) (next n)
      end
    end
  end.

(** [clear()] *)
Definition clear (h : hp) (tb : table) : hp * table :=
  let acc := fold_left
    (fun acc i => (free_chain (S (size acc.1)) acc.1 (default None (acc.2 !! i)),
                   <[i := None]> acc.2))
    (seq 0 (capacity tb)) (h, data tb) in
  (acc.1, MkTable acc.2 0 (capacity tb) (curr tb) (curr_idx tb)).

(** The loop of [erase]: unlink and [delete] the node holding [k]; the
    erased value, the heap and the bucket array after the unlinking. *)
Fixpoint erase_loop (fuel : nat) (h : hp) (d : list (option loc))
    (index : nat) (prev current : option loc) (k : K)
    : option (V * hp * list (option loc)) :=
  match fuel with
  | O => None
  | S f =>
    match current with
    | None => None
    | Some c =>
      match h !! c with
      | None => None
      | Some n =>
        if decide (key n = k) then
          let val := value n in
          let hd := match prev with
                    | None => (h, <[index := next n]> d)
                    | Some p => (set_next h p (next n), d)
                    end in
          Some (val, delete c hd.1, hd.2)
        else erase_loop f h d index (Some c) (next n) k
      end
    end
  end.

(** [erase(key)] *)
Definition erase (h : hp) (tb : table) (k : K)
    : HashMap.result V * (hp * table) :=
  let index := hash k mod capacity tb in
  match erase_loop (S (size h)) h (data tb) index None (bucket tb index) k with
  | Some (val, h1, d1) =>
    (HashMap.Ok val,
     (h1, MkTable d1 (sz tb - 1) (capacity tb) (curr tb) (curr_idx tb)))
  | None => (HashMap.Throw HashMap.out_of_range, (h, tb))
  end.

(** [*ptr = p] *)
Definition write_slot (h : hp) (d : list (option loc)) (ptr : slot)
    (p : option loc) : hp * list (option loc) :=
  match ptr with
  | Bucket i => (h, <[i := p]> d)
  | NextOf l => (set_next h l p, d)
  end.

(** The deep-copy loop of the copy constructor and [operator=]:
    [while (current != nullptr) { *ptr = new ChainNode(current->key,
    current->value); ptr = &(( *ptr)->next); current = current->next; }] *)
Fixpoint copy_chain (fuel : nat) (h : hp) (d : list (option loc))
    (ptr : slot) (current : option loc) : hp * list (option loc) :=
  match fuel with
  | O => (h, d)
  | S f =>
    match current with
    | None => (h, d)
    | Some c =>
      match h !! c with
      | None => (h, d)
      | Some n =>
        let '(h1, l) := alloc h (MkNode (key n) (value n) None) in
        let '(h2, d2) := write_slot h1 d ptr (Some l) in
        let nxt := match h2 !! c with Some n' => next n' | None => None end in
        copy_chain f h2 d2 (NextOf l) nxt
      end
    end
  end.

(** Step 2 of the copy: every chain of [other], into a fresh array. *)
Definition copy_buckets (h : hp) (other : table) : hp * list (option loc) :=
  fold_left
    (fun acc i => copy_chain (S (size acc.1)) acc.1 acc.2 (Bucket i) (bucket other i))
    (seq 0 (capacity other)) (h, replicate (capacity other) None).

(** [HashMap(const HashMap& other)], building the object at [dst]; the
    cursor fields, left uninitialised, hold whatever [c0]/[i0] are. *)
Definition copy_ctor (w : world K V) (other dst : nat) (c0 : option loc)
    (i0 : nat) : world K V :=
  match tables w !! other with
  | Some ob =>
    let hd := copy_buckets (heap w) ob in
    MkWorld hd.1 (<[dst := MkTable hd.2 (sz ob) (capacity ob) c0 i0]> (tables w))
  | None => w
  end.

(** [operator=(other)] called on the object at [this]. *)
Definition assign (w : world K V) (this other : nat) : world K V :=
  if decide (this = other) then w else
  match tables w !! this, tables w !! other with
  | Some tb, Some ob =>
    let ht := clear (heap w) tb in
    let hd := copy_buckets ht.1 ob in
    MkWorld hd.1 (<[this := MkTable hd.2 (sz ob) (capacity ob)
                             (curr ht.2) (curr_idx ht.2)]> (tables w))
  | _, _ => w
  end.

(** [begin()] *)
Fixpoint begin_scan (tb : table) (i fuel : nat) : nat :=
  match fuel with
  | O => i
  | S f => if decide (i < capacity tb /\ bucket tb i = None)
           then begin_scan tb (S i) f else i
  end.

Definition begin (tb : table) : table :=
  let i := begin_scan tb 0 (capacity tb) in
  MkTable (data tb) (sz tb) (capacity tb)
    (if decide (i < capacity tb) then bucket tb i else None) i.

(** [while (curr == nullptr && ++curr_idx < capacity) curr = data[curr_idx];] *)
Fixpoint next_scan (tb : table) (c : option loc) (idx fuel : nat)
    : option loc * nat :=
  match fuel with
  | O => (c, idx)
  | S f =>
    match c with
    | Some _ => (c, idx)
    | None => if decide (S idx < capacity tb)
              then next_scan tb (bucket tb (S idx)) (S idx) f
              else (None, S idx)
    end
  end.

(** [next(key, value)]: the pair read, and the heap and object after. *)
Definition next_ (h : hp) (tb : table) : option (K * V) * table :=
  match curr tb with
  | None => (None, tb)
  | Some c =>
    match h !! c with
    | None => (None, tb)
    | Some n =>
      let r := next_scan tb (next n) (curr_idx tb) (S (capacity tb)) in
      (Some (key n, value n), MkTable (data tb) (sz tb) (capacity tb) r.1 r.2)
    end
  end.

(** The member calls on one object, and their effect on the world. *)
Inductive op : Type :=
| OInsert (k : K) (v : V)
| OErase (k : K)
| OAtSet (k : K) (v : V)
| OClear
| ORehash (n : nat)
| OBegin
| ONext
| OAssign (other : nat).

Definition on_table (w : world K V) (t : nat)
    (f : hp -> table -> hp * table) : world K V :=
  match tables w !! t with
  | Some tb => let r := f (heap w) tb in MkWorld r.1 (<[t := r.2]> (tables w))
  | None => w
  end.

Definition step (w : world K V) (t : nat) (o : op) : world K V :=
  match o with
  | OInsert k v => on_table w t (fun h tb => insert h tb k v)
  | OErase k => on_table w t (fun h tb => (erase h tb k).2)
  | OAtSet k v => on_table w t (fun h tb => (at_set h tb k v).2)
  | OClear => on_table w t clear
  | ORehash n => on_table w t (fun h tb => rehash h tb n)
  | OBegin => on_table w t (fun h tb => (h, begin tb))
  | ONext => on_table w t (fun h tb => (h, (next_ h tb).2))
  | OAssign other => assign w t other
  end.

Definition run (w : world K V) (t : nat) (os : list op) : world K V :=
  fold_left (fun w o => step w t o) os w.

End Ops.

Section Invariant.
Context {K V : Type}.

Notation hp := (gmap loc (node K V)).

(** [p] is [nullptr] or satisfies [P]. *)
Definition ptr_in (P : loc -> Prop) (p : option loc) : Prop :=
  match p with None => True | Some l => P l end.

(** The allocated nodes at addresses satisfying [P] point within [P]. *)
Definition closed (h : hp) (P : loc -> Prop) : Prop :=
  forall l n, P l -> h !! l = Some n -> ptr_in P (next n).

(** [h] holds at the addresses of [C] what [h0] holds. *)
Definition agree (C : gset loc) (h0 h : hp) : Prop :=
  forall l, l ∈ C -> h !! l = h0 !! l.

(** The frame invariant of a sequence of calls on one object: the nodes
    it can reach lie in [P], [P] contains every unallocated address (so
    every node it allocates), and the nodes [C] of another object are as
    they were in [h0]. *)
Definition inv (P : loc -> Prop) (C : gset loc) (h0 h : hp) : Prop :=
  closed h P /\ agree C h0 h /\ (forall l, l ∉ dom h -> P l).

(** [chain h p ls kvs]: following [next] from [p] visits the nodes [ls]
    holding the pairs [kvs], and ends at [nullptr]. *)
Inductive chain (h : hp) : option loc -> list loc -> list (K * V) -> Prop :=
| chain_nil : chain h None [] []
| chain_cons l n ls kvs :
    h !! l = Some n -> chain h (next n) ls kvs ->
    chain h (Some l) (l :: ls) ((key n, value n) :: kvs).

(** The chains of an object: bucket [i] is the chain [lks !! i]. *)
Definition contents (h : hp) (tb : table)
    (lks : list (list loc * list (K * V))) : Prop :=
  Forall2 (fun p lk => chain h p lk.1 lk.2) (data tb) lks.

(** The nodes of those chains. *)
Definition foot (lks : list (list loc * list (K * V))) : list loc :=
  concat (fst <$> lks).

(** [*ptr], when [ptr] is a valid slot. *)
Definition read_slot (h : hp) (d : list (option loc)) (ptr : slot)
    : option (option loc) :=
  match ptr with
  | Bucket i => d !! i
  | NextOf l => next <$> h !! l
  end.

Definition slot_node (ptr : slot) : option loc :=
  match ptr with Bucket _ => None | NextOf l => Some l end.

End Invariant.

Section Independence.
Context {K V : Type} `{EqDecision K}.
Variable hash : K -> nat.

(** In [w], the object at [dst] is an independent copy of the object at
    [src], whose fields are [tb] and whose buckets hold the chains [lks]:
    [dst] has the capacity, the size and, bucket for bucket, the (key,
    value) pairs of [src]; its nodes are none of [src]'s; [src] is intact;
    and any sequence of member calls on either object leaves the fields
    and the chains of the other as they are. *)
Definition independent_copy (w : world K V) (src dst : nat) (tb : table)
    (lks : list (list loc * list (K * V))) : Prop :=
  exists tb' lks',
    tables w !! dst = Some tb' /\
    capacity tb' = capacity tb /\ sz tb' = sz tb /\
    contents (heap w) tb' lks' /\ snd <$> lks' = snd <$> lks /\
    (forall l, l ∈ foot lks' -> l ∉ foot lks) /\
    tables w !! src = Some tb /\ contents (heap w) tb lks /\
    (forall os, tables (run hash w src os) !! dst = Some tb' /\
                contents (heap (run hash w src os)) tb' lks') /\
    (forall os, tables (run hash w dst os) !! src = Some tb /\
                contents (heap (run hash w dst os)) tb lks).

End Independence.

Section Frame.
Context {K V : Type} `{EqDecision K}.
Variable hash : K -> nat.
Variable P : loc -> Prop.
Variable C : gset loc.
Variable h0 : gmap loc (node K V).
Hypothesis HPC : forall l, l ∈ C -> ~ P l.

Notation hp := (gmap loc (node K V)).

Lemma inv_dom_C (h : hp) : inv P C h0 h -> forall l, l ∈ C -> l ∈ dom h.
Proof.
  intros (_ & _ & Hd) l Hl. destruct (decide (l ∈ dom h)) as [|Hn]; [done|].
  exfalso. by apply (HPC l), Hd.
Qed.

Lemma ptr_in_default (d : list (option loc)) i :
  Forall (ptr_in P) d -> ptr_in P (default None (d !! i)).
Proof.
  intros Hf. destruct (d !! i) as [p|] eqn:E; [|done].
  simpl. by eapply Forall_lookup_1.
Qed.

Lemma inv_set_next (h : hp) l p :
  inv P C h0 h -> P l -> ptr_in P p -> inv P C h0 (set_next h l p).
Proof.
  intros (Hc & Ha & Hd) Hl Hp. unfold set_next.
  destruct (h !! l) as [n|] eqn:E; [|split_and!; done].
  split_and!.
  - intros l' n' Hl' Hlk. apply lookup_insert_Some in Hlk.
    destruct Hlk as [[<- <-]|[_ Hlk]]; [done|]. by eapply Hc.
  - intros l' Hl'. rewrite lookup_insert_ne; [by apply Ha|].
    intros ->. by apply (HPC l').
  - intros l' Hl'. apply Hd. rewrite dom_insert_L in Hl'. set_solver.
Qed.

Lemma inv_set_value (h : hp) l v :
  inv P C h0 h -> P l -> inv P C h0 (set_value h l v).
Proof.
  intros (Hc & Ha & Hd) Hl. unfold set_value.
  destruct (h !! l) as [n|] eqn:E; [|split_and!; done].
  split_and!.
  - intros l' n' Hl' Hlk. apply lookup_insert_Some in Hlk.
    destruct Hlk as [[<- <-]|[_ Hlk]]; [simpl; by apply (Hc l n)|].
    by eapply Hc.
  - intros l' Hl'. rewrite lookup_insert_ne; [by apply Ha|].
    intros ->. by apply (HPC l').
  - intros l' Hl'. apply Hd. rewrite dom_insert_L in Hl'. set_solver.
Qed.

Lemma inv_delete (h : hp) l :
  inv P C h0 h -> P l -> inv P C h0 (delete l h).
Proof.
  intros (Hc & Ha & Hd) Hl. split_and!.
  - intros l' n' Hl' Hlk. apply lookup_delete_Some in Hlk as [_ Hlk].
    by eapply Hc.
  - intros l' Hl'. rewrite lookup_delete_ne; [by apply Ha|].
    intros ->. by apply (HPC l').
  - intros l' Hl'. rewrite dom_delete_L in Hl'.
    destruct (decide (l' = l)) as [->|Hne]; [done|]. apply Hd. set_solver.
Qed.

Lemma inv_alloc (h : hp) n :
  inv P C h0 h -> ptr_in P (next n) ->
  inv P C h0 (alloc h n).1 /\ P (alloc h n).2 /\ (alloc h n).2 ∉ dom h.
Proof.
  intros Hi Hn. pose proof (is_fresh (dom h)) as Hf.
  pose proof (inv_dom_C h Hi) as HC. destruct Hi as (Hc & Ha & Hd).
  unfold alloc, inv; simpl. split_and!; [| | | by apply Hd | done].
  - intros l' n' Hl' Hlk. apply lookup_insert_Some in Hlk.
    destruct Hlk as [[<- <-]|[_ Hlk]]; [done|]. by eapply Hc.
  - intros l' Hl'. rewrite lookup_insert_ne; [by apply Ha|].
    intros Heq. apply Hf. rewrite Heq. by apply HC.
  - intros l' Hl'. apply Hd. rewrite dom_insert_L in Hl'. set_solver.
Qed.

Lemma find_node_P f (h : hp) cur k c :
  closed h P -> ptr_in P cur -> find_node f h cur k = Some c -> P c.
Proof.
  revert cur. induction f as [|f IH]; intros cur Hc Hp Hfind; [done|].
  simpl in Hfind. destruct cur as [c'|]; [|done].
  destruct (h !! c') as [n|] eqn:E; [|done].
  case_decide; [by injection Hfind as <-|].
  eapply IH; [done| |done]. by eapply Hc.
Qed.

Lemma relink_inv f (h : hp) d nc cur :
  inv P C h0 h -> ptr_in P cur -> Forall (ptr_in P) d ->
  inv P C h0 (relink hash f h d nc cur).1 /\
  Forall (ptr_in P) (relink hash f h d nc cur).2.
Proof.
  revert h d cur. induction f as [|f IH]; intros h d cur Hi Hp Hd; [done|].
  simpl. destruct cur as [c|]; [|done]. destruct (h !! c) as [n|] eqn:E; [|done].
  apply IH.
  - apply inv_set_next; [done|done|]. by apply ptr_in_default.
  - destruct Hi as (Hc & _). by eapply Hc.
  - by apply Forall_insert.
Qed.

Lemma fold_inv {A B} (Q : A -> Prop) (g : A -> B -> A) (l : list B) a :
  Q a -> (forall a b, Q a -> Q (g a b)) -> Q (fold_left g l a).
Proof.
  revert a. induction l as [|b l IH]; intros a Ha Hg; simpl; [done|].
  apply IH; [by apply Hg|done].
Qed.

Lemma rehash_inv (h : hp) tb nc :
  inv P C h0 h -> Forall (ptr_in P) (data tb) ->
  inv P C h0 (rehash hash h tb nc).1 /\
  Forall (ptr_in P) (data (rehash hash h tb nc).2).
Proof.
  intros Hi Hd. unfold rehash; simpl.
  apply (fold_inv (fun acc => inv P C h0 acc.1 /\ Forall (ptr_in P) acc.2)).
  - split; [done|]. by apply Forall_replicate.
  - intros acc i [Hi1 Hd1].
    exact (relink_inv (S (size acc.1)) acc.1 acc.2 nc (bucket tb i) Hi1
             (ptr_in_default _ i Hd) Hd1).
Qed.

Lemma free_chain_inv f (h : hp) cur :
  inv P C h0 h -> ptr_in P cur -> inv P C h0 (free_chain f h cur).
Proof.
  revert h cur. induction f as [|f IH]; intros h cur Hi Hp; [done|].
  simpl. destruct cur as [c|]; [|done]. destruct (h !! c) as [n|] eqn:E; [|done].
  apply IH; [by apply inv_delete|]. destruct Hi as (Hc & _). by eapply Hc.
Qed.

Lemma clear_inv (h : hp) tb :
  inv P C h0 h -> Forall (ptr_in P) (data tb) ->
  inv P C h0 (clear h tb).1 /\ Forall (ptr_in P) (data (clear h tb).2).
Proof.
  intros Hi Hd. unfold clear; simpl.
  apply (fold_inv (fun acc => inv P C h0 acc.1 /\ Forall (ptr_in P) acc.2)).
  - done.
  - intros acc i [Hi1 Hd1]. split.
    + exact (free_chain_inv (S (size acc.1)) acc.1 _ Hi1
               (ptr_in_default acc.2 i Hd1)).
    + by apply Forall_insert.
Qed.

Lemma erase_loop_inv f (h : hp) d idx prev cur k r :
  inv P C h0 h -> ptr_in P prev -> ptr_in P cur -> Forall (ptr_in P) d ->
  erase_loop f h d idx prev cur k = Some r ->
  inv P C h0 r.1.2 /\ Forall (ptr_in P) r.2.
Proof.
  revert h prev cur. induction f as [|f IH]; intros h prev cur Hi Hpr Hp Hd Hr;
    [done|].
  simpl in Hr. destruct cur as [c|]; [|done].
  destruct (h !! c) as [n|] eqn:E; [|done].
  assert (Hn : ptr_in P (next n)) by (destruct Hi as (Hc & _); by eapply Hc).
  case_decide.
  - injection Hr as <-; simpl. destruct prev as [p|]; simpl; split.
    + apply inv_delete; [|exact Hp]. by apply inv_set_next.
    + done.
    + by apply inv_delete.
    + by apply Forall_insert.
  - eapply IH; [exact Hi|exact Hp|exact Hn|exact Hd|exact Hr].
Qed.

Lemma copy_chain_inv f (h : hp) d ptr cur :
  inv P C h0 h -> Forall (ptr_in P) d -> ptr_in P (slot_node ptr) ->
  inv P C h0 (copy_chain f h d ptr cur).1 /\
  Forall (ptr_in P) (copy_chain f h d ptr cur).2.
Proof.
  revert h d ptr cur. induction f as [|f IH]; intros h d ptr cur Hi Hd Hs; [done|].
  simpl. destruct cur as [c|]; [|done]. destruct (h !! c) as [n|] eqn:E; [|done].
  destruct (inv_alloc h (MkNode (key n) (value n) None) Hi I) as (Hi1 & Hl & _).
  unfold alloc in Hi1, Hl |- *. simpl in Hi1, Hl. set (l := fresh (dom h)) in *.
  destruct ptr as [i|l0]; simpl in *.
  - apply IH; [done| |exact Hl]. by apply Forall_insert.
  - apply IH; [|done|exact Hl]. by apply inv_set_next.
Qed.

Lemma copy_buckets_inv (h : hp) ob :
  inv P C h0 h ->
  inv P C h0 (copy_buckets h ob).1 /\ Forall (ptr_in P) (copy_buckets h ob).2.
Proof.
  intros Hi. unfold copy_buckets.
  apply (fold_inv (fun acc => inv P C h0 acc.1 /\ Forall (ptr_in P) acc.2)).
  - split; [done|]. by apply Forall_replicate.
  - intros acc i [Hi1 Hd1].
    exact (copy_chain_inv (S (size acc.1)) acc.1 acc.2 (Bucket i)
             (bucket ob i) Hi1 Hd1 I).
Qed.

Lemma insert_inv (h : hp) tb k v :
  inv P C h0 h -> Forall (ptr_in P) (data tb) ->
  inv P C h0 (insert hash h tb k v).1 /\
  Forall (ptr_in P) (data (insert hash h tb k v).2).
Proof.
  intros Hi Hd. unfold insert.
  destruct (find_node _ _ _ _); [done|].
  assert (Hb : ptr_in P (bucket tb (hash k mod capacity tb)))
    by (by apply ptr_in_default).
  destruct (inv_alloc h (MkNode k v (bucket tb (hash k mod capacity tb))) Hi Hb)
    as (Hi1 & Hl & _).
  destruct (alloc h _) as [h1 l]; simpl in *.
  assert (Hd1 : Forall (ptr_in P) (<[hash k mod capacity tb := Some l]> (data tb)))
    by (by apply Forall_insert).
  case_decide; [by apply rehash_inv|done].
Qed.

Lemma at_set_inv (h : hp) tb k v :
  inv P C h0 h -> Forall (ptr_in P) (data tb) ->
  inv P C h0 (at_set hash h tb k v).2.1 /\
  Forall (ptr_in P) (data (at_set hash h tb k v).2.2).
Proof.
  intros Hi Hd. unfold at_set.
  destruct (find_node _ _ _ _) as [c|] eqn:E; [|done]. simpl. split; [|done].
  apply inv_set_value; [done|]. eapply find_node_P; [by destruct Hi| |done].
  by apply ptr_in_default.
Qed.

Lemma erase_inv (h : hp) tb k :
  inv P C h0 h -> Forall (ptr_in P) (data tb) ->
  inv P C h0 (erase hash h tb k).2.1 /\
  Forall (ptr_in P) (data (erase hash h tb k).2.2).
Proof.
  intros Hi Hd. unfold erase.
  destruct (erase_loop _ _ _ _ _ _ _) as [[[val h1] d1]|] eqn:E; [|done].
  simpl. apply (erase_loop_inv _ _ _ _ None _ _ _ Hi I) in E; [done| |done].
  by apply ptr_in_default.
Qed.

Lemma next_data (h : hp) tb : data (next_ h tb).2 = data tb.
Proof.
  unfold next_. destruct (curr tb) as [c|]; [|done].
  by destruct (h !! c).
Qed.

Lemma on_table_frame (w : world K V) t c (f : hp -> table -> hp * table) tb :
  tables w !! t = Some tb -> t <> c ->
  inv P C h0 (f (heap w) tb).1 -> Forall (ptr_in P) (data (f (heap w) tb).2) ->
  tables (on_table w t f) !! c = tables w !! c /\
  inv P C h0 (heap (on_table w t f)) /\
  exists tb', tables (on_table w t f) !! t = Some tb' /\
              Forall (ptr_in P) (data tb').
Proof.
  intros Ht Hne Hi Hd. unfold on_table. rewrite Ht; simpl.
  split_and!; [by rewrite lookup_insert_ne|done|].
  eexists. rewrite lookup_insert_eq. by split.
Qed.

Lemma step_frame (w : world K V) t c o tb :
  tables w !! t = Some tb -> Forall (ptr_in P) (data tb) ->
  inv P C h0 (heap w) -> t <> c ->
  tables (step hash w t o) !! c = tables w !! c /\
  inv P C h0 (heap (step hash w t o)) /\
  exists tb', tables (step hash w t o) !! t = Some tb' /\
              Forall (ptr_in P) (data tb').
Proof.
  intros Ht Hd Hi Hne. destruct o as [k v|k|k v| |n| | |other]; simpl.
  - destruct (insert_inv (heap w) tb k v Hi Hd). by apply (on_table_frame _ _ _ _ tb).
  - destruct (erase_inv (heap w) tb k Hi Hd). by apply (on_table_frame _ _ _ _ tb).
  - destruct (at_set_inv (heap w) tb k v Hi Hd). by apply (on_table_frame _ _ _ _ tb).
  - destruct (clear_inv (heap w) tb Hi Hd). by apply (on_table_frame _ _ _ _ tb).
  - destruct (rehash_inv (heap w) tb n Hi Hd). by apply (on_table_frame _ _ _ _ tb).
  - by apply (on_table_frame _ _ _ _ tb).
  - apply (on_table_frame _ _ _ _ tb); [done|done|done|].
    simpl. by rewrite next_data.
  - unfold assign. case_decide; [split_and!; eauto|].
    rewrite Ht. destruct (tables w !! other) as [ob|]; [|split_and!; eauto].
    destruct (clear_inv (heap w) tb Hi Hd) as [Hi1 _].
    destruct (copy_buckets_inv _ ob Hi1) as [Hi2 Hd2]. simpl.
    split_and!; [by rewrite lookup_insert_ne|done|].
    eexists. rewrite lookup_insert_eq. by split.
Qed.

Lemma run_frame (w : world K V) t c os tb :
  tables w !! t = Some tb -> Forall (ptr_in P) (data tb) ->
  inv P C h0 (heap w) -> t <> c ->
  tables (run hash w t os) !! c = tables w !! c /\
  inv P C h0 (heap (run hash w t os)).
Proof.
  revert w tb. induction os as [|o os IH]; intros w tb Ht Hd Hi Hne; [done|].
  change (run hash w t (o :: os)) with (run hash (step hash w t o) t os).
  destruct (step_frame w t c o tb Ht Hd Hi Hne) as (Hc & Hi' & tb' & Ht' & Hd').
  destruct (IH _ tb' Ht' Hd' Hi' Hne) as [Hc' Hi'']. split; [|done].
  by rewrite Hc', Hc.
Qed.

End Frame.

Section Chains.
Context {K V : Type}.

Notation hp := (gmap loc (node K V)).

Lemma ptr_in_mono (P Q : loc -> Prop) p :
  (forall l, P l -> Q l) -> ptr_in P p -> ptr_in Q p.
Proof. destruct p; simpl; auto. Qed.

Lemma chain_frame (h h' : hp) p ls kvs :
  chain h p ls kvs -> (forall l, l ∈ ls -> h' !! l = h !! l) ->
  chain h' p ls kvs.
Proof.
  induction 1 as [|l n ls kvs Hl Hc IH]; intros Hag; [constructor|].
  constructor.
  - rewrite Hag; [done|]. by left.
  - apply IH. intros l' Hl'. apply Hag. by right.
Qed.

Lemma chain_dom (h : hp) p ls kvs :
  chain h p ls kvs -> forall l, l ∈ ls -> l ∈ dom h.
Proof.
  induction 1 as [|l n ls kvs Hl Hc IH]; intros l' Hl'.
  - by apply elem_of_nil in Hl'.
  - apply elem_of_cons in Hl' as [->|Hl']; [by eapply elem_of_dom_2|auto].
Qed.

Lemma chain_det (h : hp) p ls1 kvs1 ls2 kvs2 :
  chain h p ls1 kvs1 -> chain h p ls2 kvs2 -> ls1 = ls2 /\ kvs1 = kvs2.
Proof.
  intros H1. revert ls2 kvs2.
  induction H1 as [|l n ls kvs Hl Hc IH]; intros ls2 kvs2 H2;
    inversion H2 as [|l' n' ls' kvs' Hl' Hc']; subst; [done|].
  rewrite Hl in Hl'. injection Hl' as <-.
  destruct (IH _ _ Hc') as [-> ->]. done.
Qed.

Lemma chain_suffix (h : hp) p ls kvs l :
  chain h p ls kvs -> l ∈ ls ->
  exists ls' kvs', chain h (Some l) ls' kvs' /\ length ls' <= length ls.
Proof.
  induction 1 as [|l0 n ls kvs Hl Hc IH]; intros Hin.
  - by apply elem_of_nil in Hin.
  - apply elem_of_cons in Hin as [->|Hin].
    + exists (l0 :: ls), ((key n, value n) :: kvs). split; [by constructor|done].
    + destruct (IH Hin) as (ls' & kvs' & Hc' & Hlen).
      exists ls', kvs'. simpl. split; [done|lia].
Qed.

Lemma chain_nodup (h : hp) p ls kvs : chain h p ls kvs -> NoDup ls.
Proof.
  induction 1 as [|l n ls kvs Hl Hc IH]; [constructor|].
  constructor; [|done]. intros Hin.
  destruct (chain_suffix h _ _ _ l Hc Hin) as (ls' & kvs' & Hc' & Hlen).
  assert (Hself : chain h (Some l) (l :: ls) ((key n, value n) :: kvs))
    by (by constructor).
  destruct (chain_det _ _ _ _ _ _ Hself Hc') as [<- _]. simpl in Hlen. lia.
Qed.

(** A chain has at most as many nodes as the heap: the fuel [S (size h)]
    of the loops is enough to walk it. *)
Lemma chain_len (h : hp) p ls kvs : chain h p ls kvs -> length ls <= size h.
Proof.
  intros Hc. rewrite <- (size_list_to_set (C:=gset loc) ls)
    by (by eapply chain_nodup).
  rewrite <- size_dom. apply subseteq_size.
  intros l Hl. apply elem_of_list_to_set in Hl. by eapply chain_dom.
Qed.

Lemma chain_length (h : hp) p ls kvs :
  chain h p ls kvs -> length kvs = length ls.
Proof. induction 1; simpl; congruence. Qed.

Lemma chain_closed (h : hp) p ls kvs :
  chain h p ls kvs ->
  ptr_in (fun l => l ∈ ls) p /\ closed h (fun l => l ∈ ls).
Proof.
  induction 1 as [|l n ls kvs Hl Hc IH].
  - split; [done|]. intros l n Hin. by apply elem_of_nil in Hin.
  - destruct IH as [Hp Hcl]. split; [simpl; by left|].
    intros l' n' Hin Hlk. apply elem_of_cons in Hin as [->|Hin].
    + rewrite Hl in Hlk. injection Hlk as <-.
      eapply ptr_in_mono; [|exact Hp]. intros x Hx. by right.
    + eapply ptr_in_mono; [|by eapply Hcl]. intros x Hx. by right.
Qed.

Lemma contents_frame (h h' : hp) tb lks :
  contents h tb lks -> (forall l, l ∈ foot lks -> h' !! l = h !! l) ->
  contents h' tb lks.
Proof.
  unfold contents, foot. intros Hc Hag.
  apply Forall2_same_length_lookup in Hc as [Hlen Hc].
  apply Forall2_same_length_lookup. split; [done|].
  intros i p lk Hp Hlk. eapply chain_frame; [by eapply Hc|].
  intros l Hl. apply Hag. apply list_elem_of_In, in_concat.
  exists lk.1. rewrite <- !list_elem_of_In. split; [|done].
  apply list_elem_of_fmap. exists lk.
  split; [done|]. by eapply list_elem_of_lookup_2.
Qed.

End Chains.

Section Copy.
Context {K V : Type}.

Notation hp := (gmap loc (node K V)).

(** One run of the deep-copy loop, from a slot holding [nullptr]: the slot
    ends up holding a chain of fresh nodes with the pairs of the source
    chain; the only old node written is the slot's own node, whose [next]
    alone changes; no other bucket is written. *)
Lemma copy_chain_spec f (h : hp) d ptr p ls kvs h' d' :
  chain h p ls kvs -> length ls < f -> read_slot h d ptr = Some None ->
  (forall l0, slot_node ptr = Some l0 -> l0 ∉ ls) ->
  copy_chain f h d ptr p = (h', d') ->
  (exists q ls', read_slot h' d' ptr = Some q /\ chain h' q ls' kvs /\
                 Forall (fun l => l ∉ dom h) ls') /\
  (forall l, l ∈ dom h -> slot_node ptr <> Some l -> h' !! l = h !! l) /\
  (forall l0 n0, slot_node ptr = Some l0 -> h !! l0 = Some n0 ->
     exists q, h' !! l0 = Some (MkNode (key n0) (value n0) q)) /\
  (forall j, ptr <> Bucket j -> d' !! j = d !! j) /\
  length d' = length d /\
  dom h ⊆ dom h'.
Proof.
  revert h d ptr p ls kvs h' d'.
  induction f as [|f IH]; intros h d ptr p ls kvs h' d' Hc Hlen Hs Hnot Hcp;
    [simpl in Hlen; lia|].
  destruct Hc as [|c n ls0 kvs0 Hcn Hc0].
  - simpl in Hcp. injection Hcp as <- <-. split_and!; [|done| |done|done|done].
    + exists None, []. split_and!; [done|constructor|done].
    + intros l0 n0 _ Hn0. exists (next n0). rewrite Hn0. by destruct n0.
  - simpl in Hlen. simpl in Hcp. rewrite Hcn in Hcp. unfold alloc in Hcp.
    set (l := fresh (dom h)) in *.
    set (N := MkNode (key n) (value n) None) in *.
    assert (Hl : l ∉ dom h) by apply is_fresh.
    assert (Hcd : c ∈ dom h) by (by eapply elem_of_dom_2).
    assert (Hls0 : forall x, x ∈ ls0 -> x ∈ dom h)
      by (intros x Hx; by eapply chain_dom).
    destruct ptr as [i|l0]; simpl in Hcp, Hs, Hnot |- *.
    + rewrite (lookup_insert_ne h l c N), Hcn in Hcp by (intros ->; by apply Hl).
      set (h1 := <[l := N]> h) in *.
      assert (Hdom1 : dom h ⊆ dom h1) by (subst h1; rewrite dom_insert_L; set_solver).
      edestruct (IH h1 (<[i := Some l]> d) (NextOf l) (next n) ls0 kvs0 h' d')
        as (HA & HB & HC & HD & HL & HE).
      * apply (chain_frame h); [done|]. intros x Hx.
        apply lookup_insert_ne. intros ->. by apply Hl, Hls0.
      * lia.
      * simpl. subst h1. by rewrite lookup_insert_eq.
      * intros l0 [= <-] Hin. by apply Hl, Hls0.
      * exact Hcp.
      * destruct HA as (q & ls' & Hq & Hch & Hfr).
        destruct (HC l N eq_refl (lookup_insert_eq _ _ _)) as [q' Hq'].
        simpl in Hq. rewrite Hq' in Hq. simpl in Hq. injection Hq as <-.
        split_and!.
        -- exists (Some l), (l :: ls'). split_and!.
           ++ rewrite HD by congruence. apply list_lookup_insert_eq.
              by apply lookup_lt_Some in Hs.
           ++ by apply (chain_cons h' l (MkNode (key n) (value n) q') ls' kvs0).
           ++ constructor; [done|]. eapply Forall_impl; [exact Hfr|].
              intros x Hx Hxd. by apply Hx, Hdom1.
        -- intros x Hx _. rewrite HB; [| by apply Hdom1 |].
           ++ subst h1. rewrite lookup_insert_ne; [done|]. intros ->. by apply Hl.
           ++ intros [= ->]. by apply Hl.
        -- intros l0 n0 Hf. discriminate.
        -- intros j Hj. rewrite HD by congruence. apply list_lookup_insert_ne.
           intros ->. by apply Hj.
        -- by rewrite HL, length_insert.
        -- by etransitivity.
    + destruct (h !! l0) as [n0|] eqn:Hn0; [|discriminate].
      simpl in Hs. injection Hs as Hnx.
      assert (Hl0 : l0 <> l) by (intros ->; apply Hl; by eapply elem_of_dom_2).
      assert (Hl0c : l0 <> c) by (intros ->; by apply (Hnot c eq_refl); left).
      assert (Hl0s : l0 ∉ ls0) by (intros Hin; by apply (Hnot l0 eq_refl); right).
      unfold set_next in Hcp.
      rewrite (lookup_insert_ne h l l0 N), Hn0 in Hcp by congruence.
      set (N0 := MkNode (key n0) (value n0) (Some l)) in *.
      rewrite (lookup_insert_ne _ l0 c N0), (lookup_insert_ne h l c N), Hcn in Hcp
        by (try done; intros ->; by apply Hl).
      set (h2 := <[l0 := N0]> (<[l := N]> h)) in *.
      assert (Hdom2 : dom h ⊆ dom h2)
        by (subst h2; rewrite !dom_insert_L; set_solver).
      assert (Hh2 : forall x, x <> l0 -> x <> l -> h2 !! x = h !! x)
        by (intros x ? ?; subst h2; by rewrite !lookup_insert_ne).
      edestruct (IH h2 d (NextOf l) (next n) ls0 kvs0 h' d')
        as (HA & HB & HC & HD & HL & HE).
      * apply (chain_frame h); [done|]. intros x Hx. apply Hh2.
        -- intros ->. by apply Hl0s.
        -- intros ->. by apply Hl, Hls0.
      * lia.
      * simpl. subst h2. rewrite lookup_insert_ne by congruence.
        by rewrite lookup_insert_eq.
      * intros l1 [= <-] Hin. by apply Hl, Hls0.
      * exact Hcp.
      * destruct HA as (q & ls' & Hq & Hch & Hfr).
        assert (HNl : h2 !! l = Some N)
          by (subst h2; rewrite lookup_insert_ne by congruence;
              by rewrite lookup_insert_eq).
        destruct (HC l N eq_refl HNl) as [q' Hq'].
        simpl in Hq. rewrite Hq' in Hq. simpl in Hq. injection Hq as <-.
        assert (Hh'l0 : h' !! l0 = Some N0).
        { rewrite HB.
          - subst h2. by rewrite lookup_insert_eq.
          - apply Hdom2. by eapply elem_of_dom_2.
          - simpl. congruence. }
        split_and!.
        -- exists (Some l), (l :: ls'). split_and!.
           ++ by rewrite Hh'l0.
           ++ by apply (chain_cons h' l (MkNode (key n) (value n) q') ls' kvs0).
           ++ constructor; [done|]. eapply Forall_impl; [exact Hfr|].
              intros x Hx Hxd. by apply Hx, Hdom2.
        -- intros x Hx Hx0. rewrite HB; [| by apply Hdom2 |].
           ++ apply Hh2; [congruence|]. intros ->. by apply Hl.
           ++ intros [= ->]. by apply Hl.
        -- intros l1 n1 [= <-] Hn1. rewrite Hn0 in Hn1. injection Hn1 as <-.
           by exists (Some l).
        -- intros j _. by apply HD.
        -- done.
        -- by etransitivity.
Qed.

Lemma foot_lookup (lks : list (list loc * list (K * V))) j lk l :
  lks !! j = Some lk -> l ∈ lk.1 -> l ∈ foot lks.
Proof.
  intros Hj Hl. unfold foot. apply list_elem_of_In, in_concat.
  exists lk.1. rewrite <- !list_elem_of_In. split; [|done].
  apply list_elem_of_fmap. exists lk. split; [done|].
  by eapply list_elem_of_lookup_2.
Qed.

Lemma foot_inv (lks : list (list loc * list (K * V))) l :
  l ∈ foot lks -> exists j lk, lks !! j = Some lk /\ l ∈ lk.1.
Proof.
  unfold foot. intros Hl. apply list_elem_of_In in Hl.
  apply in_concat in Hl as (ls & Hls & Hin).
  apply list_elem_of_In in Hls. apply list_elem_of_In in Hin.
  apply list_elem_of_fmap in Hls as (lk & -> & Hlk).
  apply list_elem_of_lookup in Hlk as [j Hj]. by exists j, lk.
Qed.

Lemma contents_dom (h : hp) tb lks :
  contents h tb lks -> forall l, l ∈ foot lks -> l ∈ dom h.
Proof.
  intros Hc l Hl. apply foot_inv in Hl as (j & lk & Hj & Hin).
  apply Forall2_same_length_lookup in Hc as [Hlen Hc].
  destruct (lookup_lt_is_Some_2 (data tb) j) as [p Hp].
  { rewrite Hlen. by eapply lookup_lt_Some. }
  eapply chain_dom; [by eapply Hc|done].
Qed.

(** The nodes of an object's chains point among themselves. *)
Lemma contents_owned (h : hp) tb lks :
  contents h tb lks ->
  Forall (ptr_in (fun l => l ∈ foot lks)) (data tb) /\
  closed h (fun l => l ∈ foot lks).
Proof.
  intros Hc. apply Forall2_same_length_lookup in Hc as [Hlen Hc]. split.
  - apply Forall_lookup. intros j p Hp.
    destruct (lookup_lt_is_Some_2 lks j) as [lk Hlk].
    { rewrite <- Hlen. by eapply lookup_lt_Some. }
    destruct (chain_closed h p lk.1 lk.2 (Hc _ _ _ Hp Hlk)) as [Hin _].
    eapply ptr_in_mono; [|exact Hin]. intros x Hx. by eapply foot_lookup.
  - intros l n Hl Hn. apply foot_inv in Hl as (j & lk & Hj & Hin).
    destruct (lookup_lt_is_Some_2 (data tb) j) as [p Hp].
    { rewrite Hlen. by eapply lookup_lt_Some. }
    destruct (chain_closed h p lk.1 lk.2 (Hc _ _ _ Hp Hj)) as [_ Hcl].
    eapply ptr_in_mono; [|by eapply Hcl]. intros x Hx. by eapply foot_lookup.
Qed.

End Copy.

Section CopyBuckets.
Context {K V : Type}.

Notation hp := (gmap loc (node K V)).

Lemma copy_buckets_prefix (h : hp) ob lks m acc :
  contents h ob lks -> length (data ob) = capacity ob -> m <= capacity ob ->
  acc = fold_left
    (fun acc i => copy_chain (S (size acc.1)) acc.1 acc.2 (Bucket i) (bucket ob i))
    (seq 0 m) (h, replicate (capacity ob) None) ->
  length acc.2 = capacity ob /\
  (forall j, m <= j -> j < capacity ob -> acc.2 !! j = Some None) /\
  dom h ⊆ dom acc.1 /\
  (forall l, l ∈ dom h -> acc.1 !! l = h !! l) /\
  exists lks', length lks' = m /\
    forall j lk, lks' !! j = Some lk ->
      (exists q, acc.2 !! j = Some q /\ chain acc.1 q lk.1 lk.2) /\
      Forall (fun l => l ∉ dom h) lk.1 /\
      (snd <$> lks) !! j = Some lk.2.
Proof.
  intros Hc Hlen. revert acc. induction m as [|m IH]; intros acc Hm Hacc.
  - subst acc; simpl. split_and!.
    + apply length_replicate.
    + intros j _ Hj. by apply lookup_replicate_2.
    + done.
    + done.
    + exists []. split; [done|]. intros j lk Hj. by rewrite lookup_nil in Hj.
  - rewrite seq_S, fold_left_app in Hacc. cbn [fold_left Nat.add] in Hacc.
    destruct (IH _ ltac:(lia) eq_refl) as (HL0 & HN0 & HD0 & HA0 & lks0 & Hl0 & Hk0).
    revert Hacc HL0 HN0 HD0 HA0 Hk0.
    generalize (fold_left
      (fun acc i => copy_chain (S (size acc.1)) acc.1 acc.2 (Bucket i) (bucket ob i))
      (seq 0 m) (h, replicate (capacity ob) None)).
    intros [ha da] Hacc HL0 HN0 HD0 HA0 Hk0. cbn [fst snd] in *.
    pose proof Hc as Hc'. apply Forall2_same_length_lookup in Hc' as [Hlk Hc'].
    destruct (lookup_lt_is_Some_2 (data ob) m) as [p Hp]; [lia|].
    destruct (lookup_lt_is_Some_2 lks m) as [lk Hk]; [lia|].
    assert (Hch : chain ha p lk.1 lk.2).
    { apply (chain_frame h); [by eapply Hc'|]. intros x Hx.
      apply HA0. eapply chain_dom; [by eapply Hc'|done]. }
    assert (Hb : bucket ob m = p) by (unfold bucket; by rewrite Hp).
    rewrite Hb in Hacc.
    destruct (copy_chain (S (size ha)) ha da (Bucket m) p) as [h'' d''] eqn:E.
    subst acc; simpl.
    destruct (copy_chain_spec (S (size ha)) ha da (Bucket m) p lk.1 lk.2 h'' d'' Hch)
      as (HA & HB & _ & HD & HL & HE).
    { pose proof (chain_len _ _ _ _ Hch). lia. }
    { simpl. apply HN0; lia. }
    { done. }
    { exact E. }
    destruct HA as (q & ls' & Hq & Hchq & Hfr). simpl in Hq.
    split_and!.
    + lia.
    + intros j Hj1 Hj2. rewrite HD by (intros [= ->]; lia). apply HN0; lia.
    + by etransitivity.
    + intros l Hl. rewrite HB; [by apply HA0|by apply HD0|done].
    + exists (lks0 ++ [(ls', lk.2)]). split; [rewrite length_app; simpl; lia|].
      intros j lk0 Hj. apply lookup_app_Some in Hj as [Hj|[Hj1 Hj]].
      * pose proof (lookup_lt_Some _ _ _ Hj) as Hjm.
        destruct (Hk0 j lk0 Hj) as ((q0 & Hq0 & Hc0) & Hf0 & Hs0).
        split_and!; [|done|done]. exists q0. split.
        -- rewrite HD; [done|]. intros [= ->]. lia.
        -- apply (chain_frame ha); [done|]. intros x Hx.
           apply HB; [by eapply chain_dom|done].
      * apply list_lookup_singleton_Some in Hj as [Hj0 <-].
        assert (j = m) as -> by lia. simpl. split_and!.
        -- by exists q.
        -- eapply Forall_impl; [exact Hfr|]. intros x Hx Hxd. by apply Hx, HD0.
        -- by rewrite list_lookup_fmap, Hk.
Qed.

(** Step 2 of the copy, from a source whose buckets hold chains: the new
    array holds, bucket for bucket, chains of fresh nodes with the same
    pairs, and no node allocated before is changed. *)
Lemma copy_buckets_spec (h : hp) ob lks h' d' :
  contents h ob lks -> length (data ob) = capacity ob ->
  copy_buckets h ob = (h', d') ->
  exists lks',
    Forall2 (fun p lk => chain h' p lk.1 lk.2) d' lks' /\
    snd <$> lks' = snd <$> lks /\
    (forall l, l ∈ foot lks' -> l ∉ dom h) /\
    (forall l, l ∈ dom h -> h' !! l = h !! l) /\
    length d' = capacity ob.
Proof.
  intros Hc Hlen Hcp.
  destruct (copy_buckets_prefix h ob lks (capacity ob) (h', d') Hc Hlen
    ltac:(lia) (eq_sym Hcp)) as (HL & _ & _ & HA & lks' & Hl' & Hk'). simpl in *.
  pose proof (Forall2_length _ _ _ Hc) as Hlk.
  exists lks'. split_and!; [| | |done|done].
  - apply Forall2_same_length_lookup. split; [lia|].
    intros i p lk Hp Hlk'. destruct (Hk' i lk Hlk') as ((q & Hq & Hch) & _).
    rewrite Hp in Hq. by injection Hq as ->.
  - apply list_eq. intros i. rewrite !list_lookup_fmap.
    destruct (lks' !! i) as [lk|] eqn:E.
    + destruct (Hk' i lk E) as (_ & _ & Hs). rewrite list_lookup_fmap in Hs.
      by rewrite Hs.
    + apply lookup_ge_None in E. rewrite (proj2 (lookup_ge_None lks i)); [done|].
      lia.
  - intros l Hl. apply foot_inv in Hl as (j & lk & Hj & Hin).
    destruct (Hk' j lk Hj) as (_ & Hf & _).
    rewrite Forall_forall in Hf. by apply Hf.
Qed.

End CopyBuckets.

Section IndependenceLemmas.
Context {K V : Type} `{EqDecision K}.
Variable hash : K -> nat.

Notation hp := (gmap loc (node K V)).

(** The start of the frame argument: the object [t] reaches the nodes
    [foot lks], disjoint from the nodes [foot lkc] of the object [c]. *)
Lemma frame_start (h : hp) tb tc lks lkc :
  contents h tb lks -> contents h tc lkc ->
  (forall l, l ∈ foot lkc -> l ∉ foot lks) ->
  (forall l, l ∈ (list_to_set (foot lkc) : gset loc) ->
     ~ (l ∈ foot lks \/ l ∉ dom h)) /\
  inv (fun l => l ∈ foot lks \/ l ∉ dom h) (list_to_set (foot lkc)) h h /\
  Forall (ptr_in (fun l => l ∈ foot lks \/ l ∉ dom h)) (data tb).
Proof.
  intros Hb Hc Hdisj. destruct (contents_owned h tb lks Hb) as [Hd Hcl].
  split; [|split; [split; [|split]|]].
  - intros l Hl [Hp|Hp]; apply elem_of_list_to_set in Hl.
    + by apply (Hdisj l).
    + by apply Hp, (contents_dom h tc lkc).
  - intros l n [Hl|Hl] Hn.
    + eapply ptr_in_mono; [|by eapply Hcl]. intros x Hx. by left.
    + exfalso. apply Hl. by eapply elem_of_dom_2.
  - done.
  - intros l Hl. by right.
  - eapply Forall_impl; [exact Hd|]. intros p Hp.
    eapply ptr_in_mono; [|exact Hp]. intros x Hx. by left.
Qed.

(** Calls on [t] leave an object [c] with disjoint nodes as it is. *)
Lemma run_independent (w : world K V) t c tb tc lks lkc os :
  t <> c -> tables w !! t = Some tb -> contents (heap w) tb lks ->
  tables w !! c = Some tc -> contents (heap w) tc lkc ->
  (forall l, l ∈ foot lkc -> l ∉ foot lks) ->
  tables (run hash w t os) !! c = Some tc /\
  contents (heap (run hash w t os)) tc lkc.
Proof.
  intros Hne Ht Hb Hc Hcc Hdisj.
  destruct (frame_start (heap w) tb tc lks lkc Hb Hcc Hdisj) as (HPC & Hi & Hd).
  destruct (run_frame hash _ _ (heap w) HPC w t c os tb Ht Hd Hi Hne)
    as (Htc & _ & Hag & _).
  split; [by rewrite Htc|].
  apply (contents_frame (heap w)); [done|]. intros l Hl.
  apply Hag. by apply elem_of_list_to_set.
Qed.

Lemma independent_copy_intro (w : world K V) src dst tb tb' lks lks' :
  src <> dst -> tables w !! src = Some tb -> contents (heap w) tb lks ->
  tables w !! dst = Some tb' -> contents (heap w) tb' lks' ->
  capacity tb' = capacity tb -> sz tb' = sz tb ->
  snd <$> lks' = snd <$> lks ->
  (forall l, l ∈ foot lks' -> l ∉ foot lks) ->
  independent_copy hash w src dst tb lks.
Proof.
  intros Hne Hs Hcs Hd Hcd Hcap Hsz Hkv Hdisj.
  exists tb', lks'. split_and!; try done.
  - intros os. by apply (run_independent w src dst tb tb' lks lks').
  - intros os. apply (run_independent w dst src tb' tb lks' lks);
      try (done || congruence).
    intros l Hl Hl'. by apply (Hdisj l).
Qed.

Lemma copy_ctor_spec (w : world K V) src dst c0 i0 tb lks :
  tables w !! src = Some tb -> length (data tb) = capacity tb ->
  contents (heap w) tb lks -> tables w !! dst = None ->
  independent_copy hash (copy_ctor w src dst c0 i0) src dst tb lks.
Proof.
  intros Hs Hlen Hc Hd. unfold copy_ctor. rewrite Hs.
  destruct (copy_buckets (heap w) tb) as [h' d'] eqn:E.
  destruct (copy_buckets_spec (heap w) tb lks h' d' Hc Hlen E)
    as (lks' & Hc' & Hkv & Hfr & Hag & Hl'). simpl.
  assert (Hne : src <> dst) by congruence.
  apply (independent_copy_intro _ src dst tb (MkTable d' (sz tb) (capacity tb) c0 i0)
           lks lks'); simpl; try done.
  - by rewrite lookup_insert_ne.
  - apply (contents_frame (heap w)); [done|]. intros l Hl.
    apply Hag. by apply (contents_dom _ tb lks).
  - by rewrite lookup_insert_eq.
  - intros l Hl Hin. apply (Hfr l Hl). by apply (contents_dom _ tb lks).
Qed.

Lemma assign_spec (w : world K V) this src ta tb lka lks :
  this <> src ->
  tables w !! src = Some tb -> length (data tb) = capacity tb ->
  contents (heap w) tb lks ->
  tables w !! this = Some ta -> contents (heap w) ta lka ->
  (forall l, l ∈ foot lks -> l ∉ foot lka) ->
  independent_copy hash (assign w this src) src this tb lks.
Proof.
  intros Hne Hs Hlen Hc Ht Hca Hdisj. unfold assign.
  rewrite decide_False by done. rewrite Ht, Hs.
  destruct (frame_start (heap w) ta tb lka lks Hca Hc Hdisj) as (HPC & Hi & Hd).
  destruct (clear_inv _ _ (heap w) HPC (heap w) ta Hi Hd) as [(_ & Hag1 & _) _].
  destruct (clear (heap w) ta) as [h1 ta1] eqn:Ecl. simpl in Hag1 |- *.
  assert (Hc1 : contents h1 tb lks).
  { apply (contents_frame (heap w)); [done|]. intros l Hl.
    apply Hag1. by apply elem_of_list_to_set. }
  destruct (copy_buckets h1 tb) as [h' d'] eqn:E.
  destruct (copy_buckets_spec h1 tb lks h' d' Hc1 Hlen E)
    as (lks' & Hc' & Hkv & Hfr & Hag & Hl'). simpl.
  apply (independent_copy_intro _ src this tb
           (MkTable d' (sz tb) (capacity tb) (curr ta1) (curr_idx ta1))
           lks lks'); simpl; try done.
  - by rewrite lookup_insert_ne.
  - apply (contents_frame h1); [done|]. intros l Hl.
    apply Hag. by apply (contents_dom _ tb lks).
  - by rewrite lookup_insert_eq.
  - intros l Hl Hin. apply (Hfr l Hl). by apply (contents_dom _ tb lks).
Qed.

End IndependenceLemmas.

Section Claim.
Context {K V : Type} `{EqDecision K}.
Variable hash : K -> nat.

(** C6 (deep-copy independence).  The copy constructor, building a new
    object [dst] from [src], and [operator=] on an object [this] other than
    [src] whose nodes are its own, produce an object with the capacity, the
    size and the (key, value) pairs of [src] (bucket for bucket), made of
    nodes none of which is a node of [src]; afterwards any sequence of
    member calls ([insert], [erase], [clear], [rehash], writes through
    [at], [begin], [next], assignments) on either object leaves the fields
    and the chains of the other unchanged.  Self-assignment leaves
    everything as it is. *)
Theorem copy_independent :
  (forall (w : world K V) src dst c0 i0 tb lks,
     tables w !! src = Some tb -> length (data tb) = capacity tb ->
     contents (heap w) tb lks -> tables w !! dst = None ->
     independent_copy hash (copy_ctor w src dst c0 i0) src dst tb lks) /\
  (forall (w : world K V) this src ta tb lka lks,
     this <> src ->
     tables w !! src = Some tb -> length (data tb) = capacity tb ->
     contents (heap w) tb lks ->
     tables w !! this = Some ta -> contents (heap w) ta lka ->
     (forall l, l ∈ foot lks -> l ∉ foot lka) ->
     independent_copy hash (assign w this src) src this tb lks) /\
  (forall (w : world K V) t, assign w t t = w).
Proof.
  split; [|split].
  - intros w src dst c0 i0 tb lks Hs Hlen Hc Hd.
    by apply copy_ctor_spec.
  - intros w this src ta tb lka lks Hne Hs Hlen Hc Ht Hca Hdisj.
    by apply (assign_spec hash w this src ta tb lka lks).
  - intros w t. unfold assign. by rewrite decide_True.
Qed.

End Claim.

(** A concrete instance: [size_t] keys hashed by the identity, two buckets,
    the object 0 holding 1 -> 10 and 3 -> 30 in bucket 1, the object 1
    holding 5 -> 50. *)
Definition idh (n : nat) : nat := n.

Definition heap_ex : gmap loc (node nat nat) :=
  <[1%positive := MkNode 1 10 (Some 2%positive)]>
  (<[2%positive := MkNode 3 30 None]>
  (<[3%positive := MkNode 5 50 None]> ∅)).

Definition tb_ex : table := MkTable [None; Some 1%positive] 2 2 None 0.

Definition ta_ex : table := MkTable [None; Some 3%positive] 1 2 None 0.

Definition w_ex : world nat nat :=
  MkWorld heap_ex (<[0 := tb_ex]> (<[1 := ta_ex]> ∅)).

Definition lks_ex : list (list loc * list (nat * nat)) :=
  [([], []); ([1%positive; 2%positive], [(1, 10); (3, 30)])].

Definition lka_ex : list (list loc * list (nat * nat)) :=
  [([], []); ([3%positive], [(5, 50)])].

Lemma contents_tb_ex : contents heap_ex tb_ex lks_ex.
Proof.
  repeat constructor; simpl.
  apply (chain_cons _ 1%positive (MkNode 1 10 (Some 2%positive))); [done|].
  apply (chain_cons _ 2%positive (MkNode 3 30 None)); [done|].
  constructor.
Qed.

Lemma contents_ta_ex : contents heap_ex ta_ex lka_ex.
Proof.
  repeat constructor; simpl.
  apply (chain_cons _ 3%positive (MkNode 5 50 None)); [done|].
  constructor.
Qed.

Lemma copy_independent_witness :
  independent_copy idh (copy_ctor w_ex 0 2 None 0) 0 2 tb_ex lks_ex /\
  independent_copy idh (assign w_ex 1 0) 0 1 tb_ex lks_ex /\
  assign w_ex 0 0 = w_ex.
Proof.
  split; [|split].
  - apply (proj1 (copy_independent idh) w_ex 0 2 None 0 tb_ex lks_ex).
    + reflexivity.
    + reflexivity.
    + exact contents_tb_ex.
    + reflexivity.
  - apply (proj1 (proj2 (copy_independent idh)) w_ex 1 0 ta_ex tb_ex lka_ex lks_ex).
    + lia.
    + reflexivity.
    + reflexivity.
    + exact contents_tb_ex.
    + reflexivity.
    + exact contents_ta_ex.
    + unfold foot; simpl. set_solver.
  - exact (proj2 (proj2 (copy_independent idh)) w_ex 0).
Defined.


(** ** Further properties of the pointer-level embedding *)

Section Ops2.
Context {K V : Type} `{EqDecision K}.

Notation hp := (gmap loc (node K V)).

(** The (key, value) pairs of the chains of an object, as a table of the
    value-level embedding (the cursor is left at [nullptr]). *)
Definition abs (tb : table) (lks : list (list loc * list (K * V)))
    : HashMap.table K V :=
  HashMap.MkTable (snd <$> lks) (sz tb) (capacity tb) [] (curr_idx tb).

(** [~HashMap()]: [clear()], then [delete[] data]; the object is gone. *)
Definition destroy (w : world K V) (t : nat) : world K V :=
  match tables w !! t with
  | Some tb => MkWorld (clear (heap w) tb).1 (delete t (tables w))
  | None => w
  end.

(** Calls [next] [n] times and collects what it yields. *)
Fixpoint nexts (h : hp) (tb : table) (n : nat) : list (option (K * V)) * table :=
  match n with
  | O => ([], tb)
  | S n' =>
    let '(r, tb1) := next_ h tb in
    let '(rs, tb2) := nexts h tb1 n' in
    (r :: rs, tb2)
  end.

End Ops2.

Section ExtraLemmas.
Context {K V : Type} `{EqDecision K}.
Variable hash : K -> nat.

Notation hp := (gmap loc (node K V)).

Lemma foot_cons (lk : list loc * list (K * V)) lks : foot (lk :: lks) = lk.1 ++ foot lks.
Proof. done. Qed.

Lemma foot_snoc (lks : list (list loc * list (K * V))) lk :
  foot (lks ++ [lk]) = foot lks ++ lk.1.
Proof. unfold foot. rewrite fmap_app, concat_app. simpl. by rewrite app_nil_r. Qed.

Lemma foot_disjoint (lks : list (list loc * list (K * V))) i j lki lkj l :
  NoDup (foot lks) -> i <> j -> lks !! i = Some lki -> lks !! j = Some lkj ->
  l ∈ lki.1 -> l ∉ lkj.1.
Proof.
  revert i j. induction lks as [|lk lks IH]; intros i j Hnd Hij Hi Hj Hl; [done|].
  rewrite foot_cons in Hnd. apply NoDup_app in Hnd as (_ & Hdis & Hnd).
  destruct i as [|i], j as [|j]; simpl in Hi, Hj.
  - done.
  - injection Hi as <-. intros Hl'. apply (Hdis l Hl). by eapply foot_lookup.
  - injection Hj as <-. intros Hl'. apply (Hdis l Hl'). by eapply foot_lookup.
  - apply (IH i j Hnd); [lia|done..].
Qed.

Lemma foot_take (lks : list (list loc * list (K * V))) m l :
  l ∈ foot (take m lks) -> exists j lk, j < m /\ lks !! j = Some lk /\ l ∈ lk.1.
Proof.
  intros Hl. apply foot_inv in Hl as (j & lk & Hj & Hin).
  apply lookup_take_Some in Hj as [Hj Hjm]. by exists j, lk.
Qed.

Lemma foot_insert_perm (lks : list (list loc * list (K * V))) i lk x :
  lks !! i = Some lk -> foot (<[i := x]> lks) ++ lk.1 ≡ₚ foot lks ++ x.1.
Proof.
  revert i. induction lks as [|a lks IH]; intros i Hi; [done|].
  destruct i as [|i]; simpl in Hi.
  - injection Hi as <-. simpl. rewrite !foot_cons. solve_Permutation.
  - simpl. rewrite !foot_cons. rewrite <- !app_assoc. by rewrite (IH i Hi).
Qed.

Lemma contents_lookup (h : hp) tb lks i p :
  contents h tb lks -> data tb !! i = Some p ->
  exists lk, lks !! i = Some lk /\ chain h p lk.1 lk.2.
Proof.
  intros Hc Hp. apply Forall2_same_length_lookup in Hc as [Hlen Hc].
  destruct (lookup_lt_is_Some_2 lks i) as [lk Hlk].
  { rewrite <- Hlen. by eapply lookup_lt_Some. }
  exists lk. split; [done|]. by eapply Hc.
Qed.

Lemma contents_bucket (h : hp) tb lks i :
  contents h tb lks ->
  exists ls, chain h (bucket tb i) ls (HashMap.bucket (abs tb lks) i).
Proof.
  intros Hc. unfold bucket, HashMap.bucket, abs. simpl.
  rewrite list_lookup_fmap.
  destruct (data tb !! i) as [p|] eqn:Hp.
  - destruct (contents_lookup h tb lks i p Hc Hp) as (lk & Hlk & Hch).
    rewrite Hlk. simpl. by exists lk.1.
  - assert (Hn : lks !! i = None).
    { apply lookup_ge_None. apply lookup_ge_None in Hp.
      apply Forall2_length in Hc. lia. }
    rewrite Hn. exists []. constructor.
Qed.

Lemma chain_find_cons (kv : K * V) kvs k :
  HashMap.chain_find (kv :: kvs) k =
  if decide (kv.1 = k) then Some kv.2 else HashMap.chain_find kvs k.
Proof. by destruct kv. Qed.

(** The scan over a chain finds the first node holding the key. *)
Lemma find_node_chain f (h : hp) p ls kvs k :
  chain h p ls kvs -> length ls < f ->
  match find_node f h p k with
  | Some c => exists n, h !! c = Some n /\ key n = k /\
                        HashMap.chain_find kvs k = Some (value n) /\ c ∈ ls
  | None => HashMap.chain_find kvs k = None
  end.
Proof.
  intros Hc. revert f.
  induction Hc as [|l n ls kvs Hl Hc IH]; intros f Hf;
    destruct f as [|f]; simpl in Hf; try lia; cbn [find_node]; [done|].
  rewrite Hl, chain_find_cons. simpl. case_decide as Hk.
  - exists n. split; [done|]. split; [done|]. split; [done|]. by left.
  - 
    pose proof (IH f ltac:(lia)) as IH'.
    destruct (find_node f h (next n) k); [|done].
    destruct IH' as (n' & ? & ? & ? & ?). exists n'.
    split; [done|]. split; [done|]. split; [done|]. by right.
Qed.

Lemma find_node_found f (h : hp) p k c :
  find_node f h p k = Some c -> exists n, h !! c = Some n /\ key n = k.
Proof.
  revert p. induction f as [|f IH]; intros p; simpl; [done|].
  destruct p as [c'|]; [|done].
  destruct (h !! c') as [n|] eqn:Hn; [|done].
  case_decide; [intros [= <-]; by exists n|apply IH].
Qed.

Lemma find_node_set_value f (h : hp) c v p k :
  find_node f (set_value h c v) p k = find_node f h p k.
Proof.
  unfold set_value. destruct (h !! c) as [nc|] eqn:Hc; [|done].
  revert p. induction f as [|f IH]; intros p; simpl; [done|].
  destruct p as [c'|]; [|done].
  destruct (decide (c' = c)) as [->|Hne].
  - rewrite lookup_insert_eq, Hc. simpl. by rewrite IH.
  - rewrite lookup_insert_ne by done. destruct (h !! c'); [|done].
    by rewrite IH.
Qed.

Lemma size_set_value (h : hp) c v : size (set_value h c v) = size h.
Proof.
  unfold set_value. destruct (h !! c) eqn:Hc; [|done].
  apply map_size_insert_Some. by rewrite Hc.
Qed.

Lemma at_set_cases (h : hp) tb k v :
  (at_set hash h tb k v).2.2 = tb /\
  match find_node (S (size h)) h (bucket tb (hash k mod capacity tb)) k with
  | Some c => (at_set hash h tb k v).1 = HashMap.Ok tt /\
              (at_set hash h tb k v).2.1 = set_value h c v
  | None => (at_set hash h tb k v).1 = HashMap.Throw HashMap.out_of_range /\
            (at_set hash h tb k v).2.1 = h
  end.
Proof.
  unfold at_set. destruct (find_node _ _ _ k); done.
Qed.

(** [delete] every node of a chain of distinct nodes. *)
Lemma free_chain_spec f (h : hp) p ls kvs :
  chain h p ls kvs -> length ls < f ->
  forall l, free_chain f h p !! l = if decide (l ∈ ls) then None else h !! l.
Proof.
  intros Hc. pose proof (chain_nodup h p ls kvs Hc) as Hnd.
  revert f h p kvs Hc Hnd. induction ls as [|c ls IH];
    intros f h p kvs Hc Hnd Hf l; destruct f as [|f]; simpl in Hf; try lia.
  - inversion Hc; subst. cbn [free_chain]. rewrite decide_False; [done|].
    apply not_elem_of_nil.
  - inversion Hc as [|c' n ls' kvs' Hn Hc']; subst. cbn [free_chain]. rewrite Hn.
    apply NoDup_cons in Hnd as [Hc0 Hnd].
    assert (Hc'' : chain (delete c h) (next n) ls kvs').
    { eapply chain_frame; [exact Hc'|]. intros l' Hl'.
      rewrite lookup_delete_ne; [done|]. intros ->. contradiction. }
    rewrite (IH f (delete c h) (next n) kvs' Hc'' Hnd ltac:(lia) l).
    destruct (decide (l = c)) as [->|Hne].
    + rewrite decide_False by done. rewrite decide_True by (by left).
      apply lookup_delete_eq.
    + rewrite lookup_delete_ne by done.
      destruct (decide (l ∈ ls)) as [Hin|Hin].
      * rewrite decide_True by (by right). done.
      * rewrite decide_False; [done|]. rewrite elem_of_cons. tauto.
Qed.

Lemma clear_prefix (h : hp) tb lks m :
  contents h tb lks -> NoDup (foot lks) -> m <= length (data tb) ->
  let acc := fold_left
    (fun acc i => (free_chain (S (size acc.1)) acc.1 (default None (acc.2 !! i)),
                   <[i := None]> acc.2))
    (seq 0 m) (h, data tb) in
  (forall l, acc.1 !! l = if decide (l ∈ foot (take m lks)) then None else h !! l) /\
  acc.2 = replicate m None ++ drop m (data tb).
Proof.
  intros Hc Hnd. induction m as [|m IH]; intros Hm.
  - cbn [seq fold_left fst snd]. split; [|by rewrite drop_0]. intros l. rewrite decide_False; [done|].
    rewrite take_0. apply not_elem_of_nil.
  - rewrite seq_S, fold_left_app. cbn [fold_left fst snd].
    destruct (IH ltac:(lia)) as [H1 H2].
    set (acc := fold_left _ (seq 0 m) (h, data tb)) in *.
    destruct (lookup_lt_is_Some_2 (data tb) m ltac:(lia)) as [p Hp].
    destruct (contents_lookup h tb lks m p Hc Hp) as (lk & Hlk & Hch).
    assert (Hd : acc.2 !! m = Some p).
    { rewrite H2, lookup_app_r; rewrite length_replicate; [|lia].
      rewrite lookup_drop. by replace (m + (m - m)) with m by lia. }
    replace (0 + m) with m by lia. rewrite Hd. change (default None (Some p)) with p.
    assert (Hch' : chain acc.1 p lk.1 lk.2).
    { eapply chain_frame; [exact Hch|]. intros l Hl. rewrite H1.
      rewrite decide_False; [done|]. intros Hin.
      apply foot_take in Hin as (j & lkj & Hj & Hlkj & Hinj).
      apply (foot_disjoint lks j m lkj lk l Hnd); [lia|done..]. }
    pose proof (chain_len _ _ _ _ Hch') as Hlen.
    split.
    + intros l. rewrite (free_chain_spec _ acc.1 p lk.1 lk.2 Hch' (le_n_S _ _ Hlen) l).
      rewrite (take_S_r lks m lk Hlk), foot_snoc.
      rewrite H1. destruct (decide (l ∈ lk.1)) as [Hin|Hin].
      * rewrite decide_True; [done|]. apply elem_of_app. by right.
      * destruct (decide (l ∈ foot (take m lks))) as [Hin'|Hin'].
        -- rewrite decide_True; [done|]. apply elem_of_app. by left.
        -- rewrite decide_False; [done|]. rewrite elem_of_app. tauto.
    + rewrite H2. rewrite insert_app_r_alt; rewrite length_replicate; [|lia].
      rewrite Nat.sub_diag. rewrite (drop_S (data tb) p m Hp).
      rewrite replicate_S_end, <- app_assoc. done.
Qed.

End ExtraLemmas.


Section EraseLemmas.
Context {K V : Type} `{EqDecision K}.
Variable hash : K -> nat.

Notation hp := (gmap loc (node K V)).

Lemma chain_erase_cons (kv : K * V) kvs k :
  HashMap.chain_erase (kv :: kvs) k =
  if decide (kv.1 = k) then Some (kv.2, kvs)
  else match HashMap.chain_erase kvs k with
       | Some (x, c'') => Some (x, kv :: c'')
       | None => None
       end.
Proof. by destruct kv. Qed.

Lemma lookup_set_next_ne (h : hp) p q l : l <> p -> set_next h p q !! l = h !! l.
Proof.
  intros Hne. unfold set_next. destruct (h !! p); [|done].
  by rewrite lookup_insert_ne.
Qed.

(** The loop of [erase] past the head: [prev] is a node whose [next] is
    [current]. *)
Lemma erase_loop_inner f (h : hp) d idx p np cur k ls kvs :
  h !! p = Some np -> next np = cur -> chain h cur ls kvs -> p ∉ ls ->
  length ls < f ->
  match erase_loop f h d idx (Some p) cur k with
  | None => HashMap.chain_erase kvs k = None
  | Some (v, h1, d1) =>
      d1 = d /\
      exists c ls' kvs', c ∈ ls /\ HashMap.chain_erase kvs k = Some (v, kvs') /\
        ls ≡ₚ c :: ls' /\ h1 !! c = None /\
        (forall l, l <> c -> l ∉ p :: ls -> h1 !! l = h !! l) /\
        exists np', h1 !! p = Some np' /\ key np' = key np /\
                    value np' = value np /\ chain h1 (next np') ls' kvs'
  end.
Proof.
  intros Hp Hnx Hc. revert f p np Hp Hnx.
  induction Hc as [|c0 n0 ls kvs Hc0 Hc IH]; intros f p np Hp Hnx Hnin Hf;
    destruct f as [|f]; simpl in Hf; try lia; cbn [erase_loop]; [done|].
  pose proof (chain_nodup h _ _ _ (chain_cons h c0 n0 ls kvs Hc0 Hc)) as Hnd.
  apply NoDup_cons in Hnd as [Hc0ls Hnd].
  assert (Hpc0 : p <> c0) by (intros ->; apply Hnin; by left).
  assert (Hpls : p ∉ ls) by (intros Hin; apply Hnin; by right).
  rewrite Hc0, chain_erase_cons. simpl. case_decide as Hk.
  - split; [done|]. exists c0, ls, kvs.
    split; [by left|]. split; [done|]. split; [done|].
    split; [apply lookup_delete_eq|]. split.
    + intros l Hl Hl'. rewrite lookup_delete_ne by done.
      apply lookup_set_next_ne. intros ->. apply Hl'. by left.
    + exists (MkNode (key np) (value np) (next n0)).
      split; [|split; [done|split; [done|]]].
      * rewrite lookup_delete_ne by done. unfold set_next. rewrite Hp.
        by rewrite lookup_insert_eq.
      * simpl. eapply chain_frame; [exact Hc|]. intros l Hl.
        rewrite lookup_delete_ne by (intros ->; contradiction).
        apply lookup_set_next_ne. intros ->. contradiction.
  - pose proof (IH f c0 n0 Hc0 eq_refl Hc0ls ltac:(lia)) as IH'.
    destruct (erase_loop f h d idx (Some c0) (next n0) k) as [[[v h1] d1]|].
    + destruct IH' as (-> & c & ls' & kvs' & Hin & He & Hperm & Hdel & Hfr &
                       np' & Hnp' & Hk' & Hv' & Hch').
      split; [done|]. exists c, (c0 :: ls'), ((key n0, value n0) :: kvs').
      assert (Hpc : p <> c) by (intros ->; contradiction).
      split; [by right|]. split; [by rewrite He|]. split.
      { rewrite Hperm. apply perm_swap. }
      split; [done|]. split.
      * intros l Hl Hl'. apply Hfr; [done|]. intros Hin'. apply Hl'. by right.
      * exists np. split.
        { rewrite Hfr; [done..|]. intros Hin'.
          apply elem_of_cons in Hin' as [Heq|Hin']; [by apply Hpc0|done]. }
        split; [done|]. split; [done|]. rewrite Hnx.
        rewrite <- Hk', <- Hv'. by constructor.
    + by rewrite IH'.
Qed.

(** The loop of [erase] from the head of bucket [idx]. *)
Lemma erase_loop_head f (h : hp) d idx cur k ls kvs :
  d !! idx = Some cur -> chain h cur ls kvs -> length ls < f ->
  match erase_loop f h d idx None cur k with
  | None => HashMap.chain_erase kvs k = None
  | Some (v, h1, d1) =>
      exists c ls' kvs' cur', c ∈ ls /\ HashMap.chain_erase kvs k = Some (v, kvs') /\
        ls ≡ₚ c :: ls' /\ h1 !! c = None /\
        (forall l, l <> c -> l ∉ ls -> h1 !! l = h !! l) /\
        d1 = <[idx := cur']> d /\ chain h1 cur' ls' kvs'
  end.
Proof.
  intros Hd Hc Hf. destruct Hc as [|c0 n0 ls kvs Hc0 Hc];
    destruct f as [|f]; simpl in Hf; try lia; cbn [erase_loop]; [done|].
  pose proof (chain_nodup h _ _ _ (chain_cons h c0 n0 ls kvs Hc0 Hc)) as Hnd.
  apply NoDup_cons in Hnd as [Hc0ls Hnd].
  rewrite Hc0, chain_erase_cons. simpl. case_decide as Hk.
  - exists c0, ls, kvs, (next n0).
    split; [by left|]. split; [done|]. split; [done|].
    split; [apply lookup_delete_eq|]. split; [|split; [done|]].
    + intros l Hl _. by rewrite lookup_delete_ne.
    + eapply chain_frame; [exact Hc|]. intros l Hl.
      rewrite lookup_delete_ne by (intros ->; contradiction). done.
  - pose proof (erase_loop_inner f h d idx c0 n0 (next n0) k ls kvs Hc0 eq_refl Hc
                  Hc0ls ltac:(lia)) as H.
    destruct (erase_loop f h d idx (Some c0) (next n0) k) as [[[v h1] d1]|].
    + destruct H as (-> & c & ls' & kvs' & Hin & He & Hperm & Hdel & Hfr &
                     np' & Hnp' & Hk' & Hv' & Hch').
      exists c, (c0 :: ls'), ((key n0, value n0) :: kvs'), (Some c0).
      split; [by right|]. split; [by rewrite He|]. split.
      { rewrite Hperm. apply perm_swap. }
      split; [done|]. split; [|split].
      * intros l Hl Hl'. by apply Hfr.
      * by rewrite list_insert_id.
      * rewrite <- Hk', <- Hv'. by econstructor.
    + by rewrite H.
Qed.

Lemma contents_insert (h h' : hp) tb lks i p lk :
  contents h tb lks ->
  (forall j lkj l, j <> i -> lks !! j = Some lkj -> l ∈ lkj.1 -> h' !! l = h !! l) ->
  i < length lks -> chain h' p lk.1 lk.2 ->
  Forall2 (fun p lk => chain h' p lk.1 lk.2) (<[i := p]> (data tb)) (<[i := lk]> lks).
Proof.
  intros Hc Hag Hi Hch. apply Forall2_same_length_lookup in Hc as [Hlen Hc].
  apply Forall2_same_length_lookup. rewrite !length_insert. split; [done|].
  intros j p' lk' Hp' Hlk'.
  destruct (decide (i = j)) as [->|Hne].
  - rewrite list_lookup_insert_eq in Hp' by lia.
    rewrite list_lookup_insert_eq in Hlk' by lia. congruence.
  - rewrite list_lookup_insert_ne in Hp' by done.
    rewrite list_lookup_insert_ne in Hlk' by done.
    eapply chain_frame; [by eapply Hc|]. intros l Hl. by apply (Hag j lk').
Qed.

End EraseLemmas.

Section ExtraTheorems.
Context {K V : Type} `{EqDecision K}.
Variable hash : K -> nat.

Notation hp := (gmap loc (node K V)).

Lemma clear_full (h : hp) tb lks :
  contents h tb lks -> NoDup (foot lks) -> length (data tb) = capacity tb ->
  (forall l, (clear h tb).1 !! l = if decide (l ∈ foot lks) then None else h !! l) /\
  data (clear h tb).2 = replicate (capacity tb) None /\
  sz (clear h tb).2 = 0 /\ capacity (clear h tb).2 = capacity tb.
Proof.
  intros Hc Hnd Hlen.
  pose proof (clear_prefix h tb lks (capacity tb) Hc Hnd ltac:(lia)) as [H1 H2].
  assert (Hl : length lks = capacity tb) by (apply Forall2_length in Hc; lia).
  rewrite take_ge in H1 by lia. rewrite drop_ge, app_nil_r in H2 by lia.
  unfold clear. cbv zeta. cbn [fst snd data sz capacity].
  split; [done|]. split; [done|]. done.
Qed.

Lemma at_contains_rel (h : hp) tb lks k :
  contents h tb lks ->
  at_ hash h tb k = HashMap.at_ hash (abs tb lks) k /\
  contains hash h tb k = HashMap.contains hash (abs tb lks) k.
Proof.
  intros Hc. unfold at_, contains, HashMap.at_, HashMap.contains.
  change (HashMap.capacity (abs tb lks)) with (capacity tb).
  destruct (contents_bucket h tb lks (hash k mod capacity tb) Hc) as [ls Hch].
  pose proof (chain_len _ _ _ _ Hch) as Hlen.
  pose proof (find_node_chain (S (size h)) h _ _ _ k Hch ltac:(lia)) as Hf.
  destruct (find_node (S (size h)) h _ k) as [c|].
  - destruct Hf as (n & Hn & _ & Hv & _). rewrite Hn, Hv. done.
  - rewrite Hf. done.
Qed.

(** X10: [at] and [contains], walking the chains through the [next]
    pointers, give the same answers as the list-level [at] and [contains]
    on the (key, value) pairs those chains hold. *)
Theorem at_contains_refine (h : hp) tb lks k :
  contents h tb lks ->
  at_ hash h tb k = HashMap.at_ hash (abs tb lks) k /\
  contains hash h tb k = HashMap.contains hash (abs tb lks) k.
Proof. apply at_contains_rel. Qed.

(** X11: [at(k) = v] (a write through the reference [at] returns) throws
    [out_of_range] and changes nothing when [contains(k)] is false;
    otherwise afterwards [at(k)] returns [v], [at] returns for every other
    key what it returned before, [contains] is unchanged for every key and
    no node is allocated or freed. *)
Theorem at_set_write (h : hp) tb k v :
  (at_set hash h tb k v).2.2 = tb /\
  (contains hash h tb k = false ->
   (at_set hash h tb k v).1 = HashMap.Throw HashMap.out_of_range /\
   (at_set hash h tb k v).2.1 = h) /\
  (contains hash h tb k = true ->
   let h' := (at_set hash h tb k v).2.1 in
   (at_set hash h tb k v).1 = HashMap.Ok tt /\
   at_ hash h' tb k = HashMap.Ok v /\
   (forall k', k' <> k -> at_ hash h' tb k' = at_ hash h tb k') /\
   (forall k', contains hash h' tb k' = contains hash h tb k') /\
   dom h' = dom h).
Proof.
  destruct (at_set_cases hash h tb k v) as [Htb Hcase].
  split; [done|]. unfold contains at 1 2.
  destruct (find_node (S (size h)) h (bucket tb (hash k mod capacity tb)) k)
    as [c|] eqn:Hf.
  - destruct Hcase as [Hr Hh]. split; [done|]. intros _. rewrite Hh.
    destruct (find_node_found _ _ _ _ _ Hf) as (n & Hn & Hkn).
    split; [done|]. split; [|split; [|split]].
    + unfold at_. rewrite size_set_value, find_node_set_value, Hf.
      unfold set_value. rewrite Hn, lookup_insert_eq. done.
    + intros k' Hne. unfold at_. rewrite size_set_value, find_node_set_value.
      destruct (find_node _ h _ k') as [c'|] eqn:Hf'; [|done].
      destruct (find_node_found _ _ _ _ _ Hf') as (n' & Hn' & Hkn').
      assert (c' <> c) by (intros ->; rewrite Hn in Hn'; congruence).
      unfold set_value. rewrite Hn, lookup_insert_ne by done. done.
    + intros k'. unfold contains. by rewrite size_set_value, find_node_set_value.
    + unfold set_value. rewrite Hn, dom_insert_L.
      apply elem_of_dom_2 in Hn. set_solver.
  - destruct Hcase as [Hr Hh]. split; [done|]. intros [=].
Qed.

(** X12: on an object whose chains have distinct nodes and whose array
    has [capacity] slots, [clear()] deletes exactly the nodes of its
    chains (every other node is left as it was), sets every bucket to
    [nullptr], sets the size to 0 and keeps the capacity. *)
Theorem clear_frees (h : hp) tb lks :
  contents h tb lks -> NoDup (foot lks) -> length (data tb) = capacity tb ->
  (forall l, l ∈ foot lks -> (clear h tb).1 !! l = None) /\
  (forall l, l ∉ foot lks -> (clear h tb).1 !! l = h !! l) /\
  data (clear h tb).2 = replicate (capacity tb) None /\
  sz (clear h tb).2 = 0 /\ capacity (clear h tb).2 = capacity tb.
Proof.
  intros Hc Hnd Hlen. destruct (clear_full h tb lks Hc Hnd Hlen) as (H1 & H2 & H3 & H4).
  split; [|split; [|done]].
  - intros l Hl. rewrite H1. by rewrite decide_True.
  - intros l Hl. rewrite H1. by rewrite decide_False.
Qed.

(** X13: the destructor [~HashMap()] of an object whose chains have
    distinct nodes frees exactly the nodes of its chains (no node is
    leaked, no other node is touched) and removes the object, leaving
    every other object as it was. *)
Theorem destroy_frees (w : world K V) t tb lks :
  tables w !! t = Some tb -> contents (heap w) tb lks -> NoDup (foot lks) ->
  length (data tb) = capacity tb ->
  tables (destroy w t) !! t = None /\
  (forall t', t' <> t -> tables (destroy w t) !! t' = tables w !! t') /\
  (forall l, l ∈ foot lks -> heap (destroy w t) !! l = None) /\
  (forall l, l ∉ foot lks -> heap (destroy w t) !! l = heap w !! l).
Proof.
  intros Ht Hc Hnd Hlen. unfold destroy. rewrite Ht. simpl.
  destruct (clear_full (heap w) tb lks Hc Hnd Hlen) as (H1 & _).
  split; [apply lookup_delete_eq|]. split.
  - intros t' Hne. by rewrite lookup_delete_ne.
  - split.
    + intros l Hl. rewrite H1. by rewrite decide_True.
    + intros l Hl. rewrite H1. by rewrite decide_False.
Qed.

Lemma erase_rel (h : hp) tb lks k :
  contents h tb lks -> NoDup (foot lks) ->
  let r := erase hash h tb k in
  let r0 := HashMap.erase hash (abs tb lks) k in
  r.1 = r0.1 /\ sz r.2.2 = HashMap.sz r0.2 /\ capacity r.2.2 = capacity tb /\
  exists lks', contents r.2.1 r.2.2 lks' /\ snd <$> lks' = HashMap.data r0.2 /\
    NoDup (foot lks') /\ (forall l, l ∉ foot lks -> r.2.1 !! l = h !! l) /\
    match r.1 with
    | HashMap.Ok _ => exists c, foot lks ≡ₚ c :: foot lks' /\ r.2.1 !! c = None
    | HashMap.Throw _ => r.2 = (h, tb)
    end.
Proof.
  intros Hc Hnd r r0. subst r r0.
  unfold erase, HashMap.erase.
  change (HashMap.capacity (abs tb lks)) with (capacity tb).
  set (i := hash k mod capacity tb).
  unfold HashMap.bucket. change (HashMap.data (abs tb lks)) with (snd <$> lks).
  rewrite list_lookup_fmap.
  destruct (data tb !! i) as [p|] eqn:Hp.
  - destruct (contents_lookup h tb lks i p Hc Hp) as (lk & Hlk & Hch).
    rewrite Hlk. change (default [] (snd <$> Some lk)) with lk.2.
    unfold bucket. rewrite Hp. change (default None (Some p)) with p.
    pose proof (chain_len _ _ _ _ Hch) as Hlen.
    pose proof (erase_loop_head (S (size h)) h (data tb) i p k lk.1 lk.2 Hp Hch
                  ltac:(lia)) as He.
    destruct (erase_loop _ h (data tb) i None p k) as [[[v h1] d1]|].
    + destruct He as (c & ls' & kvs' & cur' & Hin & Hce & Hperm & Hdel & Hfr & -> & Hch').
      rewrite Hce. simpl. split; [done|]. split; [done|]. split; [done|].
      assert (Hi : i < length lks) by (by eapply lookup_lt_Some).
      assert (Hfoot : foot lks ≡ₚ c :: foot (<[i := (ls', kvs')]> lks)).
      { pose proof (foot_insert_perm lks i lk (ls', kvs') Hlk) as Hfp.
        simpl in Hfp. rewrite Hperm in Hfp.
        apply (Permutation_app_inv_r ls'). rewrite <- Hfp. solve_Permutation. }
      assert (Hout : forall l, l ∉ foot lks -> h1 !! l = h !! l).
      { intros l Hl. apply Hfr.
        - intros ->. apply Hl. by eapply foot_lookup.
        - intros Hl'. apply Hl. by eapply foot_lookup. }
      exists (<[i := (ls', kvs')]> lks). split; [|split; [|split; [|split]]].
      * unfold contents. simpl. apply (contents_insert h h1 tb lks i cur' (ls', kvs') Hc).
        -- intros j lkj l Hne Hj Hlj. apply Hfr.
           ++ intros ->. by apply (foot_disjoint lks i j lk lkj c Hnd).
           ++ intros Hl'. by apply (foot_disjoint lks i j lk lkj l Hnd).
        -- done.
        -- done.
      * by rewrite list_fmap_insert.
      * rewrite Hfoot in Hnd. by apply NoDup_cons in Hnd as [_ ?].
      * done.
      * exists c. done.
    + rewrite He. simpl. split; [done|]. split; [done|]. split; [done|].
      exists lks. split; [done|]. split; [done|]. split; [done|]. split; done.
  - assert (Hn : lks !! i = None).
    { apply lookup_ge_None. apply lookup_ge_None in Hp.
      apply Forall2_length in Hc. lia. }
    rewrite Hn. simpl. unfold bucket. rewrite Hp. simpl.
    split; [done|]. split; [done|]. split; [done|].
    exists lks. split; [done|]. split; [done|]. split; [done|]. split; done.
Qed.

(** X14: on an object whose chains have distinct nodes, [erase(k)]
    through the pointers returns what the list-level [erase] returns on
    the pairs of the chains, and leaves chains holding the pairs the
    list-level [erase] leaves, with the size and capacity it gives; when
    the key is found exactly one node of the chains is deleted, and no
    node outside the chains is touched. *)
Theorem erase_refine (h : hp) tb lks k :
  contents h tb lks -> NoDup (foot lks) ->
  let r := erase hash h tb k in
  let r0 := HashMap.erase hash (abs tb lks) k in
  r.1 = r0.1 /\ sz r.2.2 = HashMap.sz r0.2 /\ capacity r.2.2 = capacity tb /\
  exists lks', contents r.2.1 r.2.2 lks' /\ snd <$> lks' = HashMap.data r0.2 /\
    NoDup (foot lks') /\ (forall l, l ∉ foot lks -> r.2.1 !! l = h !! l) /\
    match r.1 with
    | HashMap.Ok _ => exists c, foot lks ≡ₚ c :: foot lks' /\ r.2.1 !! c = None
    | HashMap.Throw _ => r.2 = (h, tb)
    end.
Proof. apply erase_rel. Qed.

End ExtraTheorems.


Section CursorRefine.
Context {K V : Type} `{EqDecision K}.

Notation hp := (gmap loc (node K V)).

(** The pointer cursor [tb] of an object with chains [lks] and the list
    cursor [t] stand for the same position. *)
Definition cursor_rel (h : hp) (tb : table) (lks : list (list loc * list (K * V)))
    (t : HashMap.table K V) : Prop :=
  contents h tb lks /\ HashMap.data t = snd <$> lks /\
  HashMap.capacity t = capacity tb /\ HashMap.curr_idx t = curr_idx tb /\
  exists ls, chain h (curr tb) ls (HashMap.curr t).

Lemma chain_None_iff (h : hp) p ls kvs :
  chain h p ls kvs -> (p = None <-> kvs = []).
Proof. destruct 1; split; done. Qed.

Lemma bucket_rel (h : hp) tb lks (t : HashMap.table K V) i :
  contents h tb lks -> HashMap.data t = snd <$> lks ->
  exists ls, chain h (bucket tb i) ls (HashMap.bucket t i).
Proof.
  intros Hc Hd. destruct (contents_bucket h tb lks i Hc) as [ls Hch].
  exists ls. unfold HashMap.bucket. rewrite Hd. exact Hch.
Qed.

Lemma begin_scan_rel (h : hp) tb lks i f :
  contents h tb lks ->
  begin_scan tb i f = HashMap.begin_scan (abs tb lks) i f.
Proof.
  intros Hc. revert i. induction f as [|f IH]; intros i; [done|].
  cbn [begin_scan HashMap.begin_scan].
  change (HashMap.capacity (abs tb lks)) with (capacity tb).
  destruct (contents_bucket h tb lks i Hc) as [ls Hch].
  pose proof (chain_None_iff h _ _ _ Hch) as Hiff.
  destruct (decide (i < capacity tb)) as [Hi|Hi].
  - destruct (HashMap.bucket (abs tb lks) i) as [|kv kvs] eqn:Hb.
    + rewrite decide_True by (split; [done|by apply Hiff]). apply IH.
    + rewrite decide_False; [done|]. intros [_ Hn]. apply Hiff in Hn. done.
  - rewrite decide_False; [done|]. intros [? _]. done.
Qed.

Lemma begin_rel (h : hp) tb lks :
  contents h tb lks -> cursor_rel h (begin tb) lks (HashMap.begin (abs tb lks)).
Proof.
  intros Hc. unfold begin, HashMap.begin.
  change (HashMap.capacity (abs tb lks)) with (capacity tb).
  rewrite (begin_scan_rel h tb lks 0 (capacity tb) Hc).
  set (i := HashMap.begin_scan (abs tb lks) 0 (capacity tb)).
  split; [exact Hc|]. split; [done|]. split; [done|]. split; [done|].
  cbn [curr HashMap.curr]. destruct (decide (i < capacity tb)).
  - apply contents_bucket. exact Hc.
  - exists []. constructor.
Qed.

Lemma next_scan_rel (h : hp) tb lks (t : HashMap.table K V) c ls kvs idx f :
  contents h tb lks -> HashMap.data t = snd <$> lks ->
  HashMap.capacity t = capacity tb -> chain h c ls kvs ->
  (next_scan tb c idx f).2 = (HashMap.next_scan t kvs idx f).2 /\
  exists ls', chain h (next_scan tb c idx f).1 ls' (HashMap.next_scan t kvs idx f).1.
Proof.
  intros Hc Hd Hcap. revert c ls kvs idx.
  induction f as [|f IH]; intros c ls kvs idx Hch; [by eauto|].
  cbn [next_scan HashMap.next_scan].
  destruct Hch as [|l n ls kvs Hl Hch].
  - rewrite Hcap. destruct (decide (S idx < capacity tb)).
    + destruct (bucket_rel h tb lks t (S idx) Hc Hd) as [ls' Hb].
      by apply (IH _ _ _ _ Hb).
    + split; [done|]. exists []. constructor.
  - split; [done|]. eexists. by constructor.
Qed.

Lemma next_rel (h : hp) tb lks (t : HashMap.table K V) :
  cursor_rel h tb lks t ->
  (next_ h tb).1 = (HashMap.next t).1 /\
  cursor_rel h (next_ h tb).2 lks (HashMap.next t).2.
Proof.
  intros (Hc & Hd & Hcap & Hidx & ls & Hch). unfold next_, HashMap.next.
  destruct (curr tb) as [c|] eqn:Hct.
  - inversion Hch as [|l n ls' kvs Hl Hch' Hl' Hls Hkv]; subst l.
    rewrite Hl.
    pose proof (next_scan_rel h tb lks t _ _ _ (curr_idx tb) (S (capacity tb))
                  Hc Hd Hcap Hch') as [Hi [ls2 Hch2]].
    rewrite <- Hidx, <- Hcap in Hi, Hch2 |- *.
    destruct (HashMap.next_scan t kvs (HashMap.curr_idx t) (S (HashMap.capacity t)))
      as [c' idx'] eqn:Hs.
    simpl in Hi, Hch2 |- *. split; [done|].
    split; [exact Hc|]. split; [done|]. split; [done|]. split; [done|].
    by exists ls2.
  - assert (Hn : HashMap.curr t = []) by (inversion Hch; done). rewrite Hn.
    split; [done|]. split; [exact Hc|]. split; [done|]. split; [done|].
    split; [done|]. exists []. cbn. rewrite Hn, Hct. constructor.
Qed.

Lemma nexts_rel (h : hp) tb lks (t : HashMap.table K V) n :
  cursor_rel h tb lks t ->
  (nexts h tb n).1 = (HashMap.next_n t n).1 /\
  cursor_rel h (nexts h tb n).2 lks (HashMap.next_n t n).2.
Proof.
  revert tb t. induction n as [|n IH]; intros tb t Hr; [done|].
  cbn [nexts HashMap.next_n].
  destruct (next_rel h tb lks t Hr) as [H1 H2].
  destruct (next_ h tb) as [r tb1], (HashMap.next t) as [r' t1]. simpl in H1, H2.
  destruct (IH tb1 t1 H2) as [H3 H4].
  destruct (nexts h tb1 n) as [rs tb2], (HashMap.next_n t1 n) as [rs' t2].
  simpl in *. subst. done.
Qed.

End CursorRefine.

Section RehashRefine.
Context {K V : Type} `{EqDecision K}.
Variable hash : K -> nat.

Notation hp := (gmap loc (node K V)).

Lemma set_next_dom (h : hp) l p : dom (set_next h l p) = dom h.
Proof.
  unfold set_next. destruct (h !! l) eqn:Hl; [|done].
  rewrite dom_insert_L. apply elem_of_dom_2 in Hl. set_solver.
Qed.

Lemma relink_dom f (h : hp) d nc cur : dom (relink hash f h d nc cur).1 = dom h.
Proof.
  revert h d cur. induction f as [|f IH]; intros h d cur; [done|].
  cbn [relink]. destruct cur as [c|]; [|done].
  destruct (h !! c); [|done]. rewrite IH. apply set_next_dom.
Qed.

Lemma foot_push (lks : list (list loc * list (K * V))) i lk c kv :
  lks !! i = Some lk -> foot (<[i := (c :: lk.1, kv :: lk.2)]> lks) ≡ₚ c :: foot lks.
Proof.
  intros Hi. pose proof (foot_insert_perm lks i lk (c :: lk.1, kv :: lk.2) Hi) as Hp.
  simpl in Hp. apply (Permutation_app_inv_r lk.1). rewrite Hp. solve_Permutation.
Qed.

(** The inner loop of [rehash] moves the nodes of one chain, in chain
    order, to the heads of their new buckets. *)
Lemma relink_chain f (h : hp) d nc cur ls kvs lksN :
  0 < nc -> length d = nc -> chain h cur ls kvs -> length ls < f ->
  Forall2 (fun p lk => chain h p lk.1 lk.2) d lksN ->
  NoDup (ls ++ foot lksN) ->
  exists lksN',
    Forall2 (fun p lk => chain (relink hash f h d nc cur).1 p lk.1 lk.2)
      (relink hash f h d nc cur).2 lksN' /\
    snd <$> lksN' = fold_left (HashMap.relink hash nc) kvs (snd <$> lksN) /\
    foot lksN' ≡ₚ ls ++ foot lksN /\
    (forall l, l ∉ ls ++ foot lksN -> (relink hash f h d nc cur).1 !! l = h !! l) /\
    length (relink hash f h d nc cur).2 = nc.
Proof.
  intros Hnc Hd Hch Hf HN Hnd.
  revert f h d cur kvs lksN Hd Hch Hf HN Hnd.
  induction ls as [|c ls IH]; intros f h d cur kvs lksN Hd Hch Hf HN Hnd;
    (destruct f as [|f]; [simpl in Hf; lia|]).
  - inversion Hch; try subst cur; try subst kvs. cbn [relink]. exists lksN.
    split; [done|]. split; [done|]. split; [done|]. split; done.
  - inversion Hch as [|c0 n ls0 kvs' Hc Hch']; try subst cur; try subst kvs; try subst c0; try subst ls0.
    cbn [relink]. rewrite Hc.
    set (idx := hash (key n) mod nc).
    assert (Hidx : idx < length d) by (rewrite Hd; apply Nat.mod_upper_bound; lia).
    destruct (lookup_lt_is_Some_2 d idx Hidx) as [pN HpN].
    destruct (Forall2_lookup_l _ _ _ _ _ HN HpN) as (lkN & HlkN & HchN).
    rewrite HpN. change (default None (Some pN)) with pN.
    simpl in Hnd. apply NoDup_cons in Hnd as [Hcn Hnd].
    assert (Hcls : c ∉ ls) by (intros ?; apply Hcn; apply elem_of_app; by left).
    assert (Hcf : c ∉ foot lksN) by (intros ?; apply Hcn; apply elem_of_app; by right).
    assert (HcN : c ∉ lkN.1) by (intros ?; apply Hcf; by eapply foot_lookup).
    set (h1 := set_next h c pN).
    assert (Hh1 : forall l, l <> c -> h1 !! l = h !! l)
      by (intros x Hx; by apply lookup_set_next_ne).
    assert (Hh1c : h1 !! c = Some (MkNode (key n) (value n) pN))
      by (unfold h1, set_next; rewrite Hc; apply lookup_insert_eq).
    set (lksN1 := <[idx := (c :: lkN.1, (key n, value n) :: lkN.2)]> lksN).
    assert (Hfp : foot lksN1 ≡ₚ c :: foot lksN) by (by apply foot_push).
    assert (HN1 : Forall2 (fun p lk => chain h1 p lk.1 lk.2) (<[idx := Some c]> d) lksN1).
    { apply (contents_insert h h1 (MkTable d 0 0 None 0) lksN idx (Some c)
               (c :: lkN.1, (key n, value n) :: lkN.2) HN).
      - intros j lkj l _ Hj Hl. apply Hh1. intros ->. apply Hcf. by eapply foot_lookup.
      - rewrite <- (Forall2_length _ _ _ HN). done.
      - refine (chain_cons h1 c (MkNode (key n) (value n) pN) _ _ Hh1c _). simpl.
        apply (chain_frame h); [exact HchN|].
        intros l Hl. apply Hh1. by intros ->. }
    assert (Hch1 : chain h1 (next n) ls kvs').
    { apply (chain_frame h); [exact Hch'|]. intros l Hl. apply Hh1. by intros ->. }
    assert (Hnd1 : NoDup (ls ++ foot lksN1)).
    { rewrite Hfp. apply NoDup_app in Hnd as (Hnd1 & Hdis & Hnd2).
      apply NoDup_app. split; [done|]. split.
      - intros x Hx Hx'. apply elem_of_cons in Hx' as [->|Hx']; [done|].
        by apply (Hdis x).
      - by constructor. }
    destruct (IH f h1 (<[idx := Some c]> d) (next n) kvs' lksN1)
      as (lksN' & H1 & H2 & H3 & H4 & H5).
    { by rewrite length_insert. }
    { exact Hch1. }
    { simpl in Hf. lia. }
    { exact HN1. }
    { exact Hnd1. }
    exists lksN'. split; [exact H1|]. split.
    { rewrite H2. cbn [fold_left]. f_equal.
      unfold HashMap.relink. simpl. fold idx.
      rewrite list_lookup_fmap, HlkN. simpl.
      unfold lksN1. by rewrite list_fmap_insert. }
    split.
    { rewrite H3, Hfp. solve_Permutation. }
    split; [|exact H5].
    intros l Hl. rewrite H4.
    + apply Hh1. intros ->. apply Hl. by left.
    + intros Hl'. apply Hl. apply elem_of_app in Hl' as [Hl'|Hl'].
      * right. apply elem_of_app. by left.
      * rewrite Hfp in Hl'. apply elem_of_cons in Hl' as [->|Hl']; [by left|].
        right. apply elem_of_app. by right.
Qed.

Lemma foot_replicate_nil n :
  foot (replicate n ([] : list loc, [] : list (K * V))) = [].
Proof. induction n as [|n IH]; [done|]. simpl. rewrite foot_cons. done. Qed.

Lemma foot_take_nodup (lks : list (list loc * list (K * V))) m :
  NoDup (foot lks) -> NoDup (foot (take m lks)).
Proof.
  intros Hnd. rewrite <- (take_drop m lks) in Hnd.
  unfold foot in Hnd |- *. rewrite fmap_app, concat_app in Hnd.
  by apply NoDup_app in Hnd as [? _].
Qed.

(** The outer loop of [rehash] after the first [m] old buckets: their
    nodes, and only theirs, are in the new buckets, linked as the
    value-level [rehash] places their pairs. *)
Lemma rehash_prefix (h : hp) tb lks (t : HashMap.table K V) nc m :
  0 < nc -> contents h tb lks -> NoDup (foot lks) ->
  HashMap.data t = snd <$> lks ->
  let acc := fold_left
    (fun acc i => relink hash (S (size acc.1)) acc.1 acc.2 nc (bucket tb i))
    (seq 0 m) (h, replicate nc None) in
  exists lksN, Forall2 (fun p lk => chain acc.1 p lk.1 lk.2) acc.2 lksN /\
    snd <$> lksN = fold_left
      (fun d i => fold_left (HashMap.relink hash nc) (HashMap.bucket t i) d)
      (seq 0 m) (replicate nc []) /\
    foot lksN ≡ₚ foot (take m lks) /\
    (forall l, l ∉ foot (take m lks) -> acc.1 !! l = h !! l) /\
    length acc.2 = nc.
Proof.
  intros Hnc Hc Hnd Hd. induction m as [|m IH].
  - exists (replicate nc ([], [])). simpl. split.
    { apply Forall2_replicate. constructor. }
    split; [by rewrite fmap_replicate|].
    split; [by rewrite foot_replicate_nil|].
    split; [done|]. apply length_replicate.
  - cbv zeta in IH |- *. rewrite seq_S, !fold_left_app. cbn [fold_left].
    replace (0 + m) with m by lia.
    set (acc := fold_left
      (fun acc i => relink hash (S (size acc.1)) acc.1 acc.2 nc (bucket tb i))
      (seq 0 m) (h, replicate nc None)) in IH |- *.
    destruct IH as (lksN & H1 & H2 & H3 & H4 & H5).
    pose proof (Forall2_length _ _ _ Hc) as Hlen.
    destruct (data tb !! m) as [p|] eqn:Hp.
    + destruct (contents_lookup h tb lks m p Hc Hp) as (lk & Hlk & Hch).
      assert (Hb : bucket tb m = p) by (unfold bucket; by rewrite Hp).
      assert (Hb' : HashMap.bucket t m = lk.2)
        by (unfold HashMap.bucket; by rewrite Hd, list_lookup_fmap, Hlk).
      rewrite Hb, Hb'.
      assert (Htk : foot (take (S m) lks) ≡ₚ lk.1 ++ foot (take m lks))
        by (rewrite (take_S_r _ _ _ Hlk), foot_snoc; solve_Permutation).
      assert (Hout : forall l, l ∈ lk.1 -> l ∉ foot (take m lks)).
      { intros l Hl Hl'. apply foot_take in Hl' as (j & lkj & Hj & Hlkj & Hl').
        apply (foot_disjoint lks m j lk lkj l Hnd ltac:(lia) Hlk Hlkj Hl Hl'). }
      assert (Hch1 : chain acc.1 p lk.1 lk.2).
      { apply (chain_frame h); [exact Hch|]. intros l Hl. apply H4. by apply Hout. }
      destruct (relink_chain (S (size acc.1)) acc.1 acc.2 nc p lk.1 lk.2 lksN
                  Hnc H5 Hch1 ltac:(pose proof (chain_len _ _ _ _ Hch1); lia) H1)
        as (lksN' & G1 & G2 & G3 & G4 & G5).
      { rewrite H3, <- Htk. by apply foot_take_nodup. }
      exists lksN'. split; [exact G1|]. split; [by rewrite G2, H2|].
      split; [by rewrite G3, H3, Htk|]. split; [|exact G5].
      intros l Hl. rewrite G4.
      * apply H4. intros Hl'. apply Hl. rewrite Htk. apply elem_of_app. by right.
      * rewrite H3, <- Htk. exact Hl.
    + assert (Hb : bucket tb m = None) by (unfold bucket; by rewrite Hp).
      apply lookup_ge_None in Hp.
      assert (Hlk : lks !! m = None) by (apply lookup_ge_None; lia).
      assert (Hb' : HashMap.bucket t m = [])
        by (unfold HashMap.bucket; by rewrite Hd, list_lookup_fmap, Hlk).
      rewrite Hb, Hb'. cbn [relink fold_left].
      rewrite (take_ge lks (S m)), (take_ge lks m) in * by lia.
      exists lksN. destruct acc. done.
Qed.

End RehashRefine.

Section RefineTheorems.
Context {K V : Type} `{EqDecision K}.
Variable hash : K -> nat.

Notation hp := (gmap loc (node K V)).

Lemma rehash_dom (h : hp) tb nc : dom (rehash hash h tb nc).1 = dom h.
Proof.
  unfold rehash. cbn [fst].
  apply (fold_inv (fun acc : hp * list (option loc) => dom acc.1 = dom h)); [done|].
  intros acc i Ha. cbv beta. rewrite relink_dom. exact Ha.
Qed.

(** [rehash] of a table whose heap chains are [lks], against the
    value-level [rehash] of any table with the same buckets. *)
Lemma rehash_rel (h : hp) tb lks (t : HashMap.table K V) nc :
  0 < nc -> contents h tb lks -> NoDup (foot lks) ->
  length (data tb) = capacity tb ->
  HashMap.data t = snd <$> lks -> HashMap.capacity t = capacity tb ->
  exists lks', contents (rehash hash h tb nc).1 (rehash hash h tb nc).2 lks' /\
    snd <$> lks' = HashMap.data (HashMap.rehash hash t nc) /\
    foot lks' ≡ₚ foot lks /\
    (forall l, l ∉ foot lks -> (rehash hash h tb nc).1 !! l = h !! l) /\
    length (data (rehash hash h tb nc).2) = nc.
Proof.
  intros Hnc Hc Hnd Hlen Hd Hcap.
  destruct (rehash_prefix hash h tb lks t nc (capacity tb) Hnc Hc Hnd Hd)
    as (lksN & H1 & H2 & H3 & H4 & H5).
  assert (Htk : take (capacity tb) lks = lks)
    by (apply take_ge; rewrite <- (Forall2_length _ _ _ Hc); lia).
  rewrite Htk in H3, H4.
  exists lksN. unfold rehash, HashMap.rehash. rewrite Hcap. simpl.
  split; [exact H1|]. split; [exact H2|]. split; [exact H3|].
  split; [exact H4|exact H5].
Qed.

(** X15: iterating with [begin] and [next] over an object whose array has
    [capacity] slots yields the pairs of its chains, bucket by bucket, each
    chain from head to tail, then reports the end. *)
Theorem iteration_refine (h : hp) tb lks :
  contents h tb lks -> length (data tb) = capacity tb ->
  let n := length (concat (snd <$> lks)) in
  (nexts h (begin tb) n).1 = Some <$> concat (snd <$> lks) /\
  (next_ h (nexts h (begin tb) n).2).1 = None.
Proof.
  intros Hc Hlen n.
  assert (Hl : length (HashMap.data (abs tb lks)) = HashMap.capacity (abs tb lks)).
  { simpl. rewrite length_fmap, <- (Forall2_length _ _ _ Hc). exact Hlen. }
  destruct (HashMap.begin_remaining (abs tb lks) Hl) as (Hr & Hok & Hd & Hcap).
  destruct (HashMap.next_n_remaining (HashMap.entries (abs tb lks))
              (HashMap.begin (abs tb lks)) ltac:(congruence) Hok Hr)
    as (t' & Hn & Hr' & Hok' & Hd' & Hcap' & _).
  pose proof (nexts_rel h (begin tb) lks _ n (begin_rel h tb lks Hc)) as [H1 H2].
  unfold HashMap.entries in Hn. simpl in Hn. fold n in Hn. rewrite Hn in H1, H2.
  split; [exact H1|].
  destruct (next_rel h _ lks t' H2) as [H3 _]. rewrite H3.
  pose proof (HashMap.next_remaining t' ltac:(congruence) Hok') as Hx.
  rewrite Hr' in Hx. by rewrite Hx.
Qed.

(** X16: [rehash] allocates and frees nothing: it relinks every node of
    the object into the new bucket array, as the value-level [rehash] places
    the pairs, and leaves every other node as it was. *)
Theorem rehash_refine (h : hp) tb lks nc :
  0 < nc -> contents h tb lks -> NoDup (foot lks) ->
  length (data tb) = capacity tb ->
  let r := rehash hash h tb nc in
  exists lks', contents r.1 r.2 lks' /\
    snd <$> lks' = HashMap.data (HashMap.rehash hash (abs tb lks) nc) /\
    foot lks' ≡ₚ foot lks /\ dom r.1 = dom h /\
    (forall l, l ∉ foot lks -> r.1 !! l = h !! l) /\
    length (data r.2) = capacity r.2 /\ capacity r.2 = nc /\ sz r.2 = sz tb.
Proof.
  intros Hnc Hc Hnd Hlen r.
  destruct (rehash_rel h tb lks (abs tb lks) nc Hnc Hc Hnd Hlen eq_refl eq_refl)
    as (lks' & H1 & H2 & H3 & H4 & H5).
  exists lks'. split; [exact H1|]. split; [exact H2|]. split; [exact H3|].
  split; [apply rehash_dom|]. split; [exact H4|]. split; [exact H5|]. done.
Qed.

Lemma insert_rel (h : hp) tb lks k v :
  contents h tb lks -> NoDup (foot lks) ->
  length (data tb) = capacity tb -> 0 < capacity tb ->
  let r := insert hash h tb k v in
  let t := HashMap.insert hash (abs tb lks) k v in
  sz r.2 = HashMap.sz t /\ capacity r.2 = HashMap.capacity t /\
  length (data r.2) = capacity r.2 /\
  exists lks', contents r.1 r.2 lks' /\ snd <$> lks' = HashMap.data t /\
    NoDup (foot lks') /\
    (forall l, l ∈ dom h -> l ∉ foot lks -> r.1 !! l = h !! l) /\
    (if HashMap.contains hash (abs tb lks) k then r = (h, tb)
     else exists l, (l ∉ dom h) /\ dom r.1 = {[l]} ∪ dom h /\
                    foot lks' ≡ₚ l :: foot lks).
Proof.
  intros Hc Hnd Hlen Hcap0 r t. subst r t.
  pose proof (Forall2_length _ _ _ Hc) as Hlk.
  set (index := hash k mod capacity tb).
  assert (Hidx : index < length (data tb))
    by (rewrite Hlen; apply Nat.mod_upper_bound; lia).
  destruct (lookup_lt_is_Some_2 _ _ Hidx) as [p Hp].
  destruct (contents_lookup h tb lks index p Hc Hp) as (lk & Hlki & Hch).
  assert (Hb : bucket tb index = p) by (unfold bucket; by rewrite Hp).
  assert (Hb' : HashMap.bucket (abs tb lks) index = lk.2)
    by (unfold HashMap.bucket; simpl; by rewrite list_lookup_fmap, Hlki).
  pose proof (find_node_chain (S (size h)) h p lk.1 lk.2 k Hch
                ltac:(pose proof (chain_len _ _ _ _ Hch); lia)) as Hfn.
  unfold insert, HashMap.insert, HashMap.contains.
  change (HashMap.capacity (abs tb lks)) with (capacity tb). fold index.
  rewrite Hb, Hb'.
  destruct (find_node (S (size h)) h p k) as [c|] eqn:Hf.
  - destruct Hfn as (n & _ & _ & Hcf & _). rewrite Hcf.
    split; [done|]. split; [done|]. split; [exact Hlen|].
    exists lks. split; [exact Hc|]. split; [done|]. split; [exact Hnd|].
    split; done.
  - rewrite Hfn. unfold alloc. cbv beta iota zeta.
    set (l := fresh (dom h)).
    assert (Hl : l ∉ dom h) by apply is_fresh.
    assert (Hlf : l ∉ foot lks) by (intros Hin; apply Hl; by eapply contents_dom).
    set (h1 := <[l := MkNode k v p]> h).
    assert (Hh1 : forall x, x ∈ dom h -> h1 !! x = h !! x).
    { intros x Hx. apply lookup_insert_ne. intros ->. done. }
    set (lks1 := <[index := (l :: lk.1, (k, v) :: lk.2)]> lks).
    set (tb1 := MkTable (<[index := Some l]> (data tb)) (S (sz tb)) (capacity tb)
                  (curr tb) (curr_idx tb)).
    set (t1 := HashMap.MkTable (<[index := (k, v) :: lk.2]> (lks.*2))
                 (S (sz tb)) (capacity tb) [] (curr_idx tb)).
    assert (Hfp : foot lks1 ≡ₚ l :: foot lks) by (by apply foot_push).
    assert (Hnd1 : NoDup (foot lks1)) by (rewrite Hfp; by constructor).
    assert (Hc1 : contents h1 tb1 lks1).
    { apply (contents_insert h h1 tb lks index (Some l)
               (l :: lk.1, (k, v) :: lk.2) Hc).
      - intros j lkj x _ Hj Hx. apply Hh1. eapply contents_dom; [exact Hc|].
        by eapply foot_lookup.
      - lia.
      - refine (chain_cons h1 l (MkNode k v p) _ _ (lookup_insert_eq _ _ _) _).
        simpl. apply (chain_frame h); [exact Hch|].
        intros x Hx. apply Hh1. eapply contents_dom; [exact Hc|].
        by eapply foot_lookup. }
    assert (Hd1 : HashMap.data t1 = snd <$> lks1)
      by (unfold t1, lks1; simpl; by rewrite list_fmap_insert).
    assert (Hlen1 : length (data tb1) = capacity tb1)
      by (simpl; by rewrite length_insert).
    assert (Hdom1 : dom h1 = {[l]} ∪ dom h) by (apply dom_insert_L).
    unfold abs. cbn [HashMap.data HashMap.sz HashMap.curr HashMap.curr_idx
                     HashMap.capacity].
    fold h1 tb1 t1.
    change (3 * capacity tb1 < 2 * sz tb1) with (3 * capacity tb < 2 * S (sz tb)).
    change (3 * HashMap.capacity t1 < 2 * HashMap.sz t1)
      with (3 * capacity tb < 2 * S (sz tb)).
    destruct (decide (3 * capacity tb < 2 * S (sz tb))) as [Hg|Hg].
    + destruct (rehash_rel h1 tb1 lks1 t1 (capacity tb1 * 2) ltac:(simpl; lia)
                  Hc1 Hnd1 Hlen1 Hd1 eq_refl) as (lks' & H1 & H2 & H3 & H4 & H5).
      split; [reflexivity|]. split; [reflexivity|]. split; [exact H5|].
      exists lks'. split; [exact H1|]. split; [exact H2|].
      split; [by rewrite H3|]. split.
      * intros x Hx Hxf. rewrite H4; [by apply Hh1|].
        rewrite Hfp. intros [->|?]%elem_of_cons; done.
      * exists l. split; [done|]. split; [by rewrite rehash_dom|]. by rewrite H3.
    + split; [done|]. split; [done|]. split; [exact Hlen1|].
      exists lks1. split; [exact Hc1|]. split; [done|]. split; [exact Hnd1|].
      split; [intros x Hx _; by apply Hh1|]. by exists l.
Qed.

(** X17: [insert] on the heap does what the value-level [insert] does on
    the pairs of the chains: a present key changes nothing; otherwise one
    fresh node is allocated and linked (and the table possibly rehashed),
    and no other node changes. *)
Theorem insert_refine (h : hp) tb lks k v :
  contents h tb lks -> NoDup (foot lks) ->
  length (data tb) = capacity tb -> 0 < capacity tb ->
  let r := insert hash h tb k v in
  let t := HashMap.insert hash (abs tb lks) k v in
  sz r.2 = HashMap.sz t /\ capacity r.2 = HashMap.capacity t /\
  length (data r.2) = capacity r.2 /\
  exists lks', contents r.1 r.2 lks' /\ snd <$> lks' = HashMap.data t /\
    NoDup (foot lks') /\
    (forall l, l ∈ dom h -> l ∉ foot lks -> r.1 !! l = h !! l) /\
    (if HashMap.contains hash (abs tb lks) k then r = (h, tb)
     else exists l, (l ∉ dom h) /\ dom r.1 = {[l]} ∪ dom h /\
                    foot lks' ≡ₚ l :: foot lks).
Proof. apply insert_rel. Qed.

End RefineTheorems.


Section RunRefine.
Context {K V : Type} `{EqDecision K}.
Variable hash : K -> nat.

Notation hp := (gmap loc (node K V)).

(** The member call of the pointer-level embedding for a call of the
    value-level one. *)
Definition lift_op (o : HashMap.op (K:=K) (V:=V)) : op (K:=K) (V:=V) :=
  match o with
  | HashMap.OInsert k v => OInsert k v
  | HashMap.OErase k => OErase k
  | HashMap.OClear => OClear
  | HashMap.ORehash n => ORehash n
  | HashMap.OBegin => OBegin
  | HashMap.ONext => ONext
  end.

(** The object [tb] on the heap [h] holds, bucket by bucket and in chain
    order, the pairs of the value-level table [t], on distinct nodes, with
    the same size and capacity; its array has [capacity] slots. *)
Definition repr (h : hp) (tb : table) (t : HashMap.table K V) : Prop :=
  exists lks, contents h tb lks /\ NoDup (foot lks) /\
    snd <$> lks = HashMap.data t /\ sz tb = HashMap.sz t /\
    capacity tb = HashMap.capacity t /\ length (data tb) = capacity tb /\
    0 < capacity tb.

Lemma repr_fields (h : hp) tb (t1 t2 : HashMap.table K V) :
  HashMap.data t1 = HashMap.data t2 -> HashMap.sz t1 = HashMap.sz t2 ->
  HashMap.capacity t1 = HashMap.capacity t2 -> repr h tb t1 -> repr h tb t2.
Proof.
  intros Hd Hs Hc (lks & H1 & H2 & H3 & H4 & H5 & H6 & H7).
  exists lks. rewrite <- Hd, <- Hs, <- Hc. done.
Qed.

Lemma hm_rehash_fields (t1 t2 : HashMap.table K V) n :
  HashMap.data t1 = HashMap.data t2 -> HashMap.capacity t1 = HashMap.capacity t2 ->
  HashMap.data (HashMap.rehash hash t1 n) = HashMap.data (HashMap.rehash hash t2 n).
Proof. intros Hd Hc. unfold HashMap.rehash, HashMap.bucket. simpl. by rewrite Hd, Hc. Qed.

(** What a call does to the buckets, size and capacity depends on those
    alone, not on the cursor. *)
Lemma hm_step_fields (t1 t2 : HashMap.table K V) o :
  HashMap.data t1 = HashMap.data t2 -> HashMap.sz t1 = HashMap.sz t2 ->
  HashMap.capacity t1 = HashMap.capacity t2 ->
  HashMap.data (HashMap.step hash t1 o) = HashMap.data (HashMap.step hash t2 o) /\
  HashMap.sz (HashMap.step hash t1 o) = HashMap.sz (HashMap.step hash t2 o) /\
  HashMap.capacity (HashMap.step hash t1 o) = HashMap.capacity (HashMap.step hash t2 o).
Proof.
  intros Hd Hs Hc. destruct o as [k v|k| |n| |]; cbn [HashMap.step].
  - unfold HashMap.insert, HashMap.bucket. rewrite Hd, Hc.
    destruct (HashMap.chain_find _ k); [done|].
    cbn [HashMap.sz HashMap.capacity]. rewrite Hs.
    case_decide.
    + split; [apply hm_rehash_fields; simpl; congruence|]. simpl. split; congruence.
    + simpl. repeat split; congruence.
  - unfold HashMap.erase, HashMap.bucket. rewrite Hd, Hc.
    destruct (HashMap.chain_erase _ k) as [[x c']|]; simpl; by rewrite ?Hd, ?Hs, ?Hc.
  - unfold HashMap.clear. simpl. by rewrite Hd, Hc.
  - split; [by apply hm_rehash_fields|]. simpl. done.
  - simpl. done.
  - destruct (HashMap.next_fields t1) as (A1 & A2 & A3).
    destruct (HashMap.next_fields t2) as (B1 & B2 & B3). repeat split; congruence.
Qed.

Lemma hm_clear_data (t : HashMap.table K V) :
  length (HashMap.data t) = HashMap.capacity t ->
  HashMap.data (HashMap.clear t) = replicate (HashMap.capacity t) [].
Proof.
  intros Hlen. apply list_eq. intros i.
  assert (Hl : length (HashMap.data (HashMap.clear t)) = HashMap.capacity t).
  { unfold HashMap.clear. simpl. rewrite <- Hlen at 2.
    generalize (HashMap.data t). induction (seq 0 (HashMap.capacity t))
      as [|j js IH]; intros d; [done|]. simpl. rewrite IH. apply length_insert. }
  destruct (decide (i < HashMap.capacity t)) as [Hi|Hi].
  - rewrite lookup_replicate_2 by done.
    pose proof (HashMap.clear_bucket t i Hi) as Hb. unfold HashMap.bucket in Hb.
    destruct (lookup_lt_is_Some_2 (HashMap.data (HashMap.clear t)) i ltac:(lia))
      as [b Hbi].
    rewrite Hbi in Hb |- *. simpl in Hb. by subst.
  - rewrite !lookup_ge_None_2; [done| |]; rewrite ?length_replicate; lia.
Qed.

Lemma hm_erase_length (t : HashMap.table K V) k :
  length (HashMap.data (HashMap.erase hash t k).2) = length (HashMap.data t).
Proof.
  unfold HashMap.erase. destruct (HashMap.chain_erase _ k) as [[x c']|]; simpl;
    [apply length_insert|done].
Qed.

Lemma hm_erase_capacity (t : HashMap.table K V) k :
  HashMap.capacity (HashMap.erase hash t k).2 = HashMap.capacity t.
Proof.
  unfold HashMap.erase. by destruct (HashMap.chain_erase _ k) as [[x c']|].
Qed.

Lemma next_fields_heap (h : hp) tb :
  data (next_ h tb).2 = data tb /\ sz (next_ h tb).2 = sz tb /\
  capacity (next_ h tb).2 = capacity tb.
Proof.
  unfold next_. destruct (curr tb) as [c|]; [|done]. by destruct (h !! c).
Qed.

(** One call of the pointer-level embedding keeps [repr] with the
    matching call of the value-level one. *)
Lemma step_repr (w : world K V) c tb (t : HashMap.table K V) o :
  tables w !! c = Some tb -> repr (heap w) tb t -> HashMap.op_ok o ->
  exists tb', tables (step hash w c (lift_op o)) !! c = Some tb' /\
    repr (heap (step hash w c (lift_op o))) tb' (HashMap.step hash t o).
Proof.
  intros Htb Hr Hok.
  destruct Hr as (lks & Hc & Hnd & Hd & Hs & Hcap & Hlen & Hpos).
  set (a := abs tb lks).
  assert (Hfa : HashMap.data a = HashMap.data t /\ HashMap.sz a = HashMap.sz t /\
                HashMap.capacity a = HashMap.capacity t) by (simpl; done).
  destruct Hfa as (Ha1 & Ha2 & Ha3).
  destruct (hm_step_fields a t o Ha1 Ha2 Ha3) as (F1 & F2 & F3).
  enough (Hgoal : exists tb', tables (step hash w c (lift_op o)) !! c = Some tb' /\
    repr (heap (step hash w c (lift_op o))) tb' (HashMap.step hash a o)).
  { destruct Hgoal as (tb' & H1 & H2). exists tb'. split; [exact H1|].
    exact (repr_fields _ _ _ _ F1 F2 F3 H2). }
  clear F1 F2 F3 Ha1 Ha2 Ha3 Hd Hs Hcap.
  destruct o as [k v|k| |n| |]; cbn [lift_op step HashMap.step];
    unfold on_table; rewrite Htb; cbn [tables heap]; rewrite lookup_insert_eq;
    eexists; (split; [reflexivity|]).
  - destruct (insert_rel hash (heap w) tb lks k v Hc Hnd Hlen Hpos)
      as (H1 & H2 & H3 & lks' & H4 & H5 & H6 & _).
    exists lks'. split; [exact H4|]. split; [exact H6|]. split; [exact H5|].
    split; [exact H1|]. split; [exact H2|]. split; [exact H3|].
    rewrite H2. unfold HashMap.insert. destruct (HashMap.chain_find _ k); [done|].
    case_decide; simpl; lia.
  - destruct (erase_rel hash (heap w) tb lks k Hc Hnd)
      as (H1 & H2 & H3 & lks' & H4 & H5 & H6 & _).
    exists lks'. split; [exact H4|]. split; [exact H6|]. split; [exact H5|].
    split; [exact H2|]. split; [by rewrite H3, hm_erase_capacity|]. split; [|lia].
    rewrite H3, (Forall2_length _ _ _ H4), <- (length_fmap snd), H5.
    rewrite hm_erase_length. simpl. rewrite length_fmap.
    rewrite <- (Forall2_length _ _ _ Hc). exact Hlen.
  - destruct (clear_full (heap w) tb lks Hc Hnd Hlen) as (_ & H2 & H3 & H4).
    exists (replicate (capacity tb) ([], [])).
    split.
    { unfold contents. rewrite H2. apply Forall2_replicate. constructor. }
    split; [rewrite foot_replicate_nil; constructor|].
    rewrite fmap_replicate, hm_clear_data.
    2:{ simpl. rewrite length_fmap, <- (Forall2_length _ _ _ Hc). exact Hlen. }
    change (HashMap.capacity a) with (capacity tb).
    split; [done|]. split; [by rewrite H3|]. split; [by rewrite H4|].
    rewrite H2, H4, length_replicate. split; lia.
  - simpl in Hok.
    destruct (rehash_rel hash (heap w) tb lks a n Hok Hc Hnd Hlen eq_refl eq_refl)
      as (lks' & H1 & H2 & H3 & H4 & H5).
    exists lks'. split; [exact H1|]. split; [by rewrite H3|]. split; [exact H2|].
    split; [done|]. split; [done|]. simpl in H5 |- *. split; [exact H5|lia].
  - exists lks. split; [exact Hc|]. split; [exact Hnd|]. simpl.
    split; [done|]. split; [done|]. split; [done|]. split; [exact Hlen|exact Hpos].
  - destruct (next_fields_heap (heap w) tb) as (N1 & N2 & N3).
    destruct (HashMap.next_fields a) as (M1 & M2 & M3).
    exists lks. cbn [fst snd]. split; [unfold contents; rewrite N1; exact Hc|].
    split; [exact Hnd|]. rewrite M1, M2, M3, N1, N2, N3. simpl.
    split; [done|]. split; [done|]. split; [done|]. split; [exact Hlen|exact Hpos].
Qed.

Lemma run_repr (w : world K V) c tb (t : HashMap.table K V) os :
  tables w !! c = Some tb -> repr (heap w) tb t -> Forall HashMap.op_ok os ->
  exists tb', tables (run hash w c (lift_op <$> os)) !! c = Some tb' /\
    repr (heap (run hash w c (lift_op <$> os))) tb' (HashMap.run hash t os).
Proof.
  revert w tb t. induction os as [|o os IH]; intros w tb t Htb Hr Hok.
  - by exists tb.
  - apply Forall_cons in Hok as [Ho Hos].
    destruct (step_repr w c tb t o Htb Hr Ho) as (tb1 & H1 & H2).
    rewrite fmap_cons. unfold run. cbn [fold_left].
    exact (IH _ _ _ H1 H2 Hos).
Qed.

(** X18: through any sequence of [insert], [erase], [clear], [rehash]
    (with a positive capacity), [begin] and [next] on one object, the
    object keeps on the heap exactly the buckets, size and capacity of the
    value-level table after the same calls, on distinct nodes, and [at]
    and [contains] answer as on that table. *)
Theorem run_refine (w : world K V) c tb (t : HashMap.table K V) os :
  tables w !! c = Some tb -> repr (heap w) tb t -> Forall HashMap.op_ok os ->
  let w' := run hash w c (lift_op <$> os) in
  exists tb', tables w' !! c = Some tb' /\
    repr (heap w') tb' (HashMap.run hash t os) /\
    forall k, at_ hash (heap w') tb' k = HashMap.at_ hash (HashMap.run hash t os) k /\
              contains hash (heap w') tb' k =
                HashMap.contains hash (HashMap.run hash t os) k.
Proof.
  intros Htb Hr Hok w'.
  destruct (run_repr w c tb t os Htb Hr Hok) as (tb' & H1 & H2).
  exists tb'. split; [exact H1|]. split; [exact H2|]. intros k.
  destruct H2 as (lks & Hc & _ & Hd & _ & Hcap & _).
  destruct (at_contains_rel hash (heap w') tb' lks k Hc) as [A1 A2].
  rewrite A1, A2. split.
  - apply HashMap.at_fields; done.
  - apply HashMap.contains_fields; done.
Qed.

End RunRefine.


Lemma foot_lks_ex_nodup : NoDup (foot lks_ex).
Proof. apply (bool_decide_unpack _). vm_compute. reflexivity. Qed.

Lemma at_contains_refine_witness :
  contents heap_ex tb_ex lks_ex /\
  at_ idh heap_ex tb_ex 3 = HashMap.at_ idh (abs tb_ex lks_ex) 3 /\
  contains idh heap_ex tb_ex 2 = HashMap.contains idh (abs tb_ex lks_ex) 2.
Proof.
  split; [exact contents_tb_ex|]. split.
  - exact (proj1 (at_contains_refine idh heap_ex tb_ex lks_ex 3 contents_tb_ex)).
  - exact (proj2 (at_contains_refine idh heap_ex tb_ex lks_ex 2 contents_tb_ex)).
Defined.

Lemma clear_frees_witness :
  contents heap_ex tb_ex lks_ex /\ NoDup (foot lks_ex) /\
  length (data tb_ex) = capacity tb_ex /\
  (clear heap_ex tb_ex).1 !! 2%positive = None /\
  (clear heap_ex tb_ex).1 !! 3%positive = heap_ex !! 3%positive.
Proof.
  split; [exact contents_tb_ex|]. split; [exact foot_lks_ex_nodup|].
  split; [reflexivity|].
  destruct (clear_frees heap_ex tb_ex lks_ex contents_tb_ex foot_lks_ex_nodup eq_refl)
    as (H1 & H2 & _).
  split.
  - apply H1. vm_compute. right. left.
  - apply H2. vm_compute. intros Hin. inversion Hin as [|? ? ? Hin']; subst.
    inversion Hin' as [|? ? ? Hin'']; subst. inversion Hin''.
Defined.

Lemma destroy_frees_witness :
  tables w_ex !! 0 = Some tb_ex /\ contents (heap w_ex) tb_ex lks_ex /\
  NoDup (foot lks_ex) /\ length (data tb_ex) = capacity tb_ex /\
  tables (destroy w_ex 0) !! 0 = None /\
  heap (destroy w_ex 0) !! 1%positive = None /\
  tables (destroy w_ex 0) !! 1 = Some ta_ex.
Proof.
  split; [reflexivity|]. split; [exact contents_tb_ex|].
  split; [exact foot_lks_ex_nodup|]. split; [reflexivity|].
  destruct (destroy_frees w_ex 0 tb_ex lks_ex eq_refl contents_tb_ex
              foot_lks_ex_nodup eq_refl) as (H1 & H2 & H3 & _).
  split; [exact H1|]. split.
  - apply H3. vm_compute. left.
  - rewrite (H2 1) by lia. reflexivity.
Defined.

Lemma erase_refine_witness :
  contents heap_ex tb_ex lks_ex /\ NoDup (foot lks_ex) /\
  (erase idh heap_ex tb_ex 3).1 = (HashMap.erase idh (abs tb_ex lks_ex) 3).1 /\
  (erase idh heap_ex tb_ex 3).1 = HashMap.Ok 30.
Proof.
  split; [exact contents_tb_ex|]. split; [exact foot_lks_ex_nodup|].
  destruct (erase_refine idh heap_ex tb_ex lks_ex 3 contents_tb_ex foot_lks_ex_nodup)
    as (H1 & _).
  split; [exact H1|]. rewrite H1. vm_compute. reflexivity.
Defined.

Lemma iteration_refine_witness :
  contents heap_ex tb_ex lks_ex /\ length (data tb_ex) = capacity tb_ex /\
  (nexts heap_ex (begin tb_ex) 2).1 = [Some (1, 10); Some (3, 30)] /\
  (next_ heap_ex (nexts heap_ex (begin tb_ex) 2).2).1 = None.
Proof.
  split; [exact contents_tb_ex|]. split; [reflexivity|].
  exact (iteration_refine heap_ex tb_ex lks_ex contents_tb_ex eq_refl).
Defined.

Lemma rehash_refine_witness :
  0 < 4 /\ contents heap_ex tb_ex lks_ex /\ NoDup (foot lks_ex) /\
  length (data tb_ex) = capacity tb_ex /\
  exists lks', contents (rehash idh heap_ex tb_ex 4).1 (rehash idh heap_ex tb_ex 4).2 lks' /\
    snd <$> lks' = [[]; [(1, 10)]; []; [(3, 30)]] /\
    dom (rehash idh heap_ex tb_ex 4).1 = dom heap_ex.
Proof.
  split; [lia|]. split; [exact contents_tb_ex|]. split; [exact foot_lks_ex_nodup|].
  split; [reflexivity|].
  destruct (rehash_refine idh heap_ex tb_ex lks_ex 4 ltac:(lia) contents_tb_ex
              foot_lks_ex_nodup eq_refl) as (lks' & H1 & H2 & _ & H4 & _).
  exists lks'. split; [exact H1|]. split; [|exact H4].
  rewrite H2. vm_compute. reflexivity.
Defined.

Lemma insert_refine_witness :
  contents heap_ex tb_ex lks_ex /\ NoDup (foot lks_ex) /\
  length (data tb_ex) = capacity tb_ex /\ 0 < capacity tb_ex /\
  sz (insert idh heap_ex tb_ex 5 50).2 = 3 /\
  exists lks', contents (insert idh heap_ex tb_ex 5 50).1 (insert idh heap_ex tb_ex 5 50).2 lks' /\
    snd <$> lks' = [[]; [(5, 50); (1, 10); (3, 30)]].
Proof.
  split; [exact contents_tb_ex|]. split; [exact foot_lks_ex_nodup|].
  split; [reflexivity|]. split; [vm_compute; lia|].
  destruct (insert_refine idh heap_ex tb_ex lks_ex 5 50 contents_tb_ex
              foot_lks_ex_nodup eq_refl ltac:(vm_compute; lia))
    as (H1 & _ & _ & lks' & H4 & H5 & _).
  split; [rewrite H1; vm_compute; reflexivity|].
  exists lks'. split; [exact H4|]. rewrite H5. vm_compute. reflexivity.
Defined.

Definition ops_heap_ex : list (HashMap.op (K:=nat) (V:=nat)) :=
  [HashMap.OInsert 5 50; HashMap.OErase 1; HashMap.ORehash 4; HashMap.OBegin;
   HashMap.ONext; HashMap.OInsert 7 70].

Lemma repr_tb_ex : repr heap_ex tb_ex (abs tb_ex lks_ex).
Proof.
  exists lks_ex. split; [exact contents_tb_ex|]. split; [exact foot_lks_ex_nodup|].
  repeat split; simpl; lia.
Qed.

Lemma run_refine_witness :
  tables w_ex !! 0 = Some tb_ex /\ repr (heap w_ex) tb_ex (abs tb_ex lks_ex) /\
  Forall HashMap.op_ok ops_heap_ex /\
  exists tb', tables (run idh w_ex 0 (lift_op <$> ops_heap_ex)) !! 0 = Some tb' /\
    at_ idh (heap (run idh w_ex 0 (lift_op <$> ops_heap_ex))) tb' 7 = HashMap.Ok 70.
Proof.
  split; [reflexivity|]. split; [exact repr_tb_ex|].
  assert (Hok : Forall HashMap.op_ok ops_heap_ex)
    by (repeat constructor; simpl; lia).
  split; [exact Hok|].
  destruct (run_refine idh w_ex 0 tb_ex (abs tb_ex lks_ex) ops_heap_ex eq_refl
              repr_tb_ex Hok) as (tb' & H1 & _ & H3).
  exists tb'. split; [exact H1|]. rewrite (proj1 (H3 7)). vm_compute. reflexivity.
Defined.

End Heap.
